(** * Spalart-Allmaras source terms: a model of [turb_sources_new.hpp]

    The development embeds [CSourceBase_TurbSA::ComputeResidual] and the
    strategy structs it is instantiated with ([Omega_*], [ft2_*], [ModVort_*],
    [r_*], [SourceTerms_*]) and proves properties of the pipeline.

    - [su2double] is kept abstract: the code is written once against the
      interface [Arith] (literals, the four operations, the libm functions
      and the comparisons the source uses).  Structural results are proved
      for every instance, some of them from the two order facts of
      [ArithOrder], which hold of the reals and of IEEE binary64; results
      that need the laws of arithmetic are proved for the instance over the
      real numbers.
    - [CommonVariables] is the scratch struct, a flat record.
    - The body of every function is written in a small state monad over the
      scratch struct and the accumulators of the evaluator; the monad also
      logs every read and write of a non-constant member of the struct, so
      that ordering properties are properties of the very same definitions. *)

From Stdlib Require Import List Bool Arith ZArith Lia QArith Reals Lra.
From Stdlib Require Floats.
Import ListNotations.

(** * The scalar type *)

(** What the source needs from [su2double].  [lit] injects a decimal literal
    of the program text; [flt], [fle] and [feq] are the C++ operators [<],
    [<=] and [==]. *)
Class Arith (su2double : Type) : Type := {
  lit : Q -> su2double;
  fadd : su2double -> su2double -> su2double;
  fsub : su2double -> su2double -> su2double;
  fmul : su2double -> su2double -> su2double;
  fdiv : su2double -> su2double -> su2double;
  fneg : su2double -> su2double;
  fsqrt : su2double -> su2double;
  fpow : su2double -> su2double -> su2double;
  fexp : su2double -> su2double;
  ftanh : su2double -> su2double;
  flt : su2double -> su2double -> bool;
  fle : su2double -> su2double -> bool;
  feq : su2double -> su2double -> bool
}.

Arguments lit {su2double _} q%_Q.

Declare Scope su2_scope.
Delimit Scope su2_scope with su2.
Infix "+" := fadd : su2_scope.
Infix "-" := fsub : su2_scope.
Infix "*" := fmul : su2_scope.
Infix "/" := fdiv : su2_scope.
Notation "- x" := (fneg x) : su2_scope.
Infix "<?" := flt (at level 70, no associativity) : su2_scope.
Infix "<=?" := fle (at level 70, no associativity) : su2_scope.
Notation "x >? y" := (flt y x) (at level 70, no associativity) : su2_scope.
Infix "==?" := feq (at level 70, no associativity) : su2_scope.

(** The two order facts the proofs use.  Both hold for real numbers and for
    IEEE doubles (where a comparison with a NaN is false). *)
Class ArithOrder (su2double : Type) `{Arith su2double} : Prop := {
  fle_not_gt : forall a b : su2double, fle a b = true -> flt b a = false;
  flt_asym : forall a b : su2double, flt a b = true -> flt b a = false
}.

Section MinMax.
Context {su2double : Type} `{Arith su2double}.
Local Open Scope su2_scope.

(** [std::min(a, b)] is [(b < a) ? b : a]; [std::max(a, b)] is
    [(a < b) ? b : a]. *)
Definition fmin (a b : su2double) : su2double := if b <? a then b else a.
Definition fmax (a b : su2double) : su2double := if a <? b then b else a.
End MinMax.

(** * The intermediate-state record

    [struct CommonVariables] holds twelve model constants, eighteen auxiliary
    functions and six helpers.  The twenty-four non-constant members are
    named by [Field.t], so that every access to one of them can be logged. *)

Module Field.

Inductive t : Set :=
  | ft2 | d_ft2 | r | d_r | g | d_g
  | glim | fw | d_fw | Ji | d_Ji | S
  | Shat | d_Shat | fv1 | d_fv1 | fv2 | d_fv2
  | Omega | dist_i_2 | inv_k2_d2 | inv_Shat | g_6 | norm2_Grad.

Definition index (f : t) : nat :=
  match f with
  | ft2 => 0 | d_ft2 => 1 | r => 2 | d_r => 3 | g => 4 | d_g => 5 | glim => 6
  | fw => 7 | d_fw => 8 | Ji => 9 | d_Ji => 10 | S => 11 | Shat => 12
  | d_Shat => 13 | fv1 => 14 | d_fv1 => 15 | fv2 => 16 | d_fv2 => 17
  | Omega => 18 | dist_i_2 => 19 | inv_k2_d2 => 20 | inv_Shat => 21
  | g_6 => 22 | norm2_Grad => 23
  end.

Definition eqb (a b : t) : bool := Nat.eqb (index a) (index b).

End Field.

Module Const.

Inductive t : Set :=
  | cv1_3 | k2 | cb1 | cw2 | ct3 | ct4
  | cw3_6 | cb2_sigma | sigma | cb2 | cw1 | cr1.

End Const.

Module CommonVariables.

Record t (su2double : Type) : Type := mk {
  (* List of constants *)
  cv1_3 : su2double;
  k2 : su2double;
  cb1 : su2double;
  cw2 : su2double;
  ct3 : su2double;
  ct4 : su2double;
  cw3_6 : su2double;
  cb2_sigma : su2double;
  sigma : su2double;
  cb2 : su2double;
  cw1 : su2double;
  cr1 : su2double;
  (* List of auxiliary functions *)
  ft2 : su2double;
  d_ft2 : su2double;
  r : su2double;
  d_r : su2double;
  g : su2double;
  d_g : su2double;
  glim : su2double;
  fw : su2double;
  d_fw : su2double;
  Ji : su2double;
  d_Ji : su2double;
  S : su2double;
  Shat : su2double;
  d_Shat : su2double;
  fv1 : su2double;
  d_fv1 : su2double;
  fv2 : su2double;
  d_fv2 : su2double;
  (* List of helpers *)
  Omega : su2double;
  dist_i_2 : su2double;
  inv_k2_d2 : su2double;
  inv_Shat : su2double;
  g_6 : su2double;
  norm2_Grad : su2double
}.

Arguments mk {su2double}.
Arguments cv1_3 {su2double}.
Arguments k2 {su2double}.
Arguments cb1 {su2double}.
Arguments cw2 {su2double}.
Arguments ct3 {su2double}.
Arguments ct4 {su2double}.
Arguments cw3_6 {su2double}.
Arguments cb2_sigma {su2double}.
Arguments sigma {su2double}.
Arguments cb2 {su2double}.
Arguments cw1 {su2double}.
Arguments cr1 {su2double}.
Arguments ft2 {su2double}.
Arguments d_ft2 {su2double}.
Arguments r {su2double}.
Arguments d_r {su2double}.
Arguments g {su2double}.
Arguments d_g {su2double}.
Arguments glim {su2double}.
Arguments fw {su2double}.
Arguments d_fw {su2double}.
Arguments Ji {su2double}.
Arguments d_Ji {su2double}.
Arguments S {su2double}.
Arguments Shat {su2double}.
Arguments d_Shat {su2double}.
Arguments fv1 {su2double}.
Arguments d_fv1 {su2double}.
Arguments fv2 {su2double}.
Arguments d_fv2 {su2double}.
Arguments Omega {su2double}.
Arguments dist_i_2 {su2double}.
Arguments inv_k2_d2 {su2double}.
Arguments inv_Shat {su2double}.
Arguments g_6 {su2double}.
Arguments norm2_Grad {su2double}.

(** The value of a model constant. *)
Definition const {su2double : Type} (c : Const.t) (m : t su2double) : su2double :=
  match c with
  | Const.cv1_3 => cv1_3 m
  | Const.k2 => k2 m
  | Const.cb1 => cb1 m
  | Const.cw2 => cw2 m
  | Const.ct3 => ct3 m
  | Const.ct4 => ct4 m
  | Const.cw3_6 => cw3_6 m
  | Const.cb2_sigma => cb2_sigma m
  | Const.sigma => sigma m
  | Const.cb2 => cb2 m
  | Const.cw1 => cw1 m
  | Const.cr1 => cr1 m
  end.

Definition get {su2double : Type} (f : Field.t) (m : t su2double) : su2double :=
  match f with
  | Field.ft2 => ft2 m
  | Field.d_ft2 => d_ft2 m
  | Field.r => r m
  | Field.d_r => d_r m
  | Field.g => g m
  | Field.d_g => d_g m
  | Field.glim => glim m
  | Field.fw => fw m
  | Field.d_fw => d_fw m
  | Field.Ji => Ji m
  | Field.d_Ji => d_Ji m
  | Field.S => S m
  | Field.Shat => Shat m
  | Field.d_Shat => d_Shat m
  | Field.fv1 => fv1 m
  | Field.d_fv1 => d_fv1 m
  | Field.fv2 => fv2 m
  | Field.d_fv2 => d_fv2 m
  | Field.Omega => Omega m
  | Field.dist_i_2 => dist_i_2 m
  | Field.inv_k2_d2 => inv_k2_d2 m
  | Field.inv_Shat => inv_Shat m
  | Field.g_6 => g_6 m
  | Field.norm2_Grad => norm2_Grad m
  end.

(** [set f v m] is the assignment [m.f = v]: the member named by [f] becomes
    [v], every other member (constants included) keeps its value. *)
Definition set {su2double : Type} (f : Field.t) (v : su2double) (m : t su2double)
  : t su2double :=
  let upd (g : Field.t) (old : su2double) := if Field.eqb f g then v else old in
  mk
    (cv1_3 m) (k2 m) (cb1 m) (cw2 m) (ct3 m) (ct4 m) (cw3_6 m) (cb2_sigma m)
    (sigma m) (cb2 m) (cw1 m) (cr1 m)
    (upd Field.ft2 (ft2 m)) (upd Field.d_ft2 (d_ft2 m)) (upd Field.r (r m))
    (upd Field.d_r (d_r m)) (upd Field.g (g m)) (upd Field.d_g (d_g m))
    (upd Field.glim (glim m)) (upd Field.fw (fw m)) (upd Field.d_fw (d_fw m))
    (upd Field.Ji (Ji m)) (upd Field.d_Ji (d_Ji m)) (upd Field.S (S m))
    (upd Field.Shat (Shat m)) (upd Field.d_Shat (d_Shat m))
    (upd Field.fv1 (fv1 m)) (upd Field.d_fv1 (d_fv1 m))
    (upd Field.fv2 (fv2 m)) (upd Field.d_fv2 (d_fv2 m))
    (upd Field.Omega (Omega m)) (upd Field.dist_i_2 (dist_i_2 m))
    (upd Field.inv_k2_d2 (inv_k2_d2 m)) (upd Field.inv_Shat (inv_Shat m))
    (upd Field.g_6 (g_6 m)) (upd Field.norm2_Grad (norm2_Grad m)).

End CommonVariables.

(** * Inputs and evaluator members *)

(** The members of the base class [CNumerics] that the source term reads.
    They are set by the caller before [ComputeResidual] and never written by
    it.  [V_i_Density] and [V_i_LaminarViscosity] are [V_i[idx.Density()]] and
    [V_i[idx.LaminarViscosity()]]; [ScalarVar_i] is [ScalarVar_i[0]];
    [ScalarVar_Grad_i iDim] is [ScalarVar_Grad_i[0][iDim]];
    [PrimVar_Grad_i_Vel i j] is [PrimVar_Grad_i[idx.Velocity()+i][j]].
    [EPS] is the constant of that name of the base class.  [rotating_frame]
    is a constant member of the evaluator, [false] unless a constructor says
    otherwise; it is kept as an input. *)
Record Base (su2double : Type) : Type := mkBase {
  nDim : nat;
  rotating_frame : bool;
  EPS : su2double;
  roughness_i : su2double;
  V_i_Density : su2double;
  V_i_LaminarViscosity : su2double;
  dist_i : su2double;
  StrainMag_i : su2double;
  Volume : su2double;
  ScalarVar_i : su2double;
  ScalarVar_Grad_i : nat -> su2double;
  Vorticity_i : nat -> su2double;
  PrimVar_Grad_i_Vel : nat -> nat -> su2double
}.

Arguments mkBase {su2double}.
Arguments nDim {su2double}.
Arguments rotating_frame {su2double}.
Arguments EPS {su2double}.
Arguments roughness_i {su2double}.
Arguments V_i_Density {su2double}.
Arguments V_i_LaminarViscosity {su2double}.
Arguments dist_i {su2double}.
Arguments StrainMag_i {su2double}.
Arguments Volume {su2double}.
Arguments ScalarVar_i {su2double}.
Arguments ScalarVar_Grad_i {su2double}.
Arguments Vorticity_i {su2double}.
Arguments PrimVar_Grad_i_Vel {su2double}.

(** The members of the evaluator that [ComputeResidual] assigns.
    [Jacobian_i] is the one cell [Jacobian_i[0]]. *)
Record Members (su2double : Type) : Type := mkMembers {
  roughwall : bool;
  Density_i : su2double;
  Laminar_Viscosity_i : su2double;
  Residual : su2double;
  Production : su2double;
  Destruction : su2double;
  CrossProduction : su2double;
  AddSourceTerm : su2double;
  Jacobian_i : su2double
}.

Arguments mkMembers {su2double}.
Arguments roughwall {su2double}.
Arguments Density_i {su2double}.
Arguments Laminar_Viscosity_i {su2double}.
Arguments Residual {su2double}.
Arguments Production {su2double}.
Arguments Destruction {su2double}.
Arguments CrossProduction {su2double}.
Arguments AddSourceTerm {su2double}.
Arguments Jacobian_i {su2double}.

(** * The monad *)

(** One access to a non-constant member of the scratch struct.  A statement
    logs one read for each member it mentions, then its write. *)
Inductive event : Set :=
  | Rd (f : Field.t)
  | Wr (f : Field.t).

(** The machine state of one call: the local [model_var] and the members. *)
Record State (su2double : Type) : Type := mkState {
  model_var : CommonVariables.t su2double;
  members : Members su2double
}.

Arguments mkState {su2double}.
Arguments model_var {su2double}.
Arguments members {su2double}.

Section Monad.
Context {su2double : Type}.

(** A computation returns a value, the new state and the accesses it made,
    oldest first. *)
Definition M (A : Type) : Type :=
  State su2double -> A * State su2double * list event.

Definition ret {A : Type} (a : A) : M A := fun s => (a, s, []).

Definition bind {A B : Type} (c : M A) (k : A -> M B) : M B :=
  fun s =>
    let '(a, s1, e1) := c s in
    let '(b, s2, e2) := k a s1 in
    (b, s2, e1 ++ e2).

(** Read and write of a logged member of [model_var]. *)
Definition rd (f : Field.t) : M su2double :=
  fun s => (CommonVariables.get f (model_var s), s, [Rd f]).

Definition wr (f : Field.t) (v : su2double) : M unit :=
  fun s =>
    (tt, mkState (CommonVariables.set f v (model_var s)) (members s), [Wr f]).

(** Read of a model constant of [model_var]; not logged. *)
Definition cst (c : Const.t) : M su2double :=
  fun s => (CommonVariables.const c (model_var s), s, []).

(** Read and update of the evaluator members; not logged. *)
Definition mrd {A : Type} (p : Members su2double -> A) : M A :=
  fun s => (p (members s), s, []).

Definition mwr (u : Members su2double -> Members su2double) : M unit :=
  fun s => (tt, mkState (model_var s) (u (members s)), []).

(** [if (c) stmt;] without an [else]. *)
Definition when (c : bool) (k : M unit) : M unit :=
  if c then k else ret tt.

Definition val {A : Type} (c : M A) (s : State su2double) : A :=
  fst (fst (c s)).

Definition final {A : Type} (c : M A) (s : State su2double) : State su2double :=
  snd (fst (c s)).

Definition trace {A : Type} (c : M A) (s : State su2double) : list event :=
  snd (c s).
End Monad.

Arguments M : clear implicits.

Notation "x <- c ;; k" := (bind c (fun x => k))
  (at level 61, c at next level, right associativity).
Notation "c ;; k" := (bind c (fun _ => k))
  (at level 61, right associativity).

Section MemberUpdates.
Context {su2double : Type}.
Implicit Type m : Members su2double.

Definition set_roughwall (v : bool) m :=
  mkMembers v (Density_i m) (Laminar_Viscosity_i m) (Residual m)
    (Production m) (Destruction m) (CrossProduction m) (AddSourceTerm m)
    (Jacobian_i m).
Definition set_Density_i (v : su2double) m :=
  mkMembers (roughwall m) v (Laminar_Viscosity_i m) (Residual m)
    (Production m) (Destruction m) (CrossProduction m) (AddSourceTerm m)
    (Jacobian_i m).
Definition set_Laminar_Viscosity_i (v : su2double) m :=
  mkMembers (roughwall m) (Density_i m) v (Residual m)
    (Production m) (Destruction m) (CrossProduction m) (AddSourceTerm m)
    (Jacobian_i m).
Definition set_Residual (v : su2double) m :=
  mkMembers (roughwall m) (Density_i m) (Laminar_Viscosity_i m) v
    (Production m) (Destruction m) (CrossProduction m) (AddSourceTerm m)
    (Jacobian_i m).
Definition set_Production (v : su2double) m :=
  mkMembers (roughwall m) (Density_i m) (Laminar_Viscosity_i m) (Residual m)
    v (Destruction m) (CrossProduction m) (AddSourceTerm m) (Jacobian_i m).
Definition set_Destruction (v : su2double) m :=
  mkMembers (roughwall m) (Density_i m) (Laminar_Viscosity_i m) (Residual m)
    (Production m) v (CrossProduction m) (AddSourceTerm m) (Jacobian_i m).
Definition set_CrossProduction (v : su2double) m :=
  mkMembers (roughwall m) (Density_i m) (Laminar_Viscosity_i m) (Residual m)
    (Production m) (Destruction m) v (AddSourceTerm m) (Jacobian_i m).
Definition set_AddSourceTerm (v : su2double) m :=
  mkMembers (roughwall m) (Density_i m) (Laminar_Viscosity_i m) (Residual m)
    (Production m) (Destruction m) (CrossProduction m) v (Jacobian_i m).
Definition set_Jacobian_i (v : su2double) m :=
  mkMembers (roughwall m) (Density_i m) (Laminar_Viscosity_i m) (Residual m)
    (Production m) (Destruction m) (CrossProduction m) (AddSourceTerm m) v.
End MemberUpdates.

(** * The strategy structs *)

(** The template arguments of [CSourceBase_TurbSA], one variant per family. *)
Module Variant.
Inductive Omega_class : Set := Omega_Bsl | Omega_Edw.
Inductive ft2_class : Set := ft2_Bsl | ft2_nonzero.
Inductive ModVort_class : Set := ModVort_Bsl | ModVort_Edw | ModVort_Neg.
Inductive r_class : Set := r_Bsl | r_Edw.
Inductive SourceTerms_class : Set := SourceTerms_Bsl | SourceTerms_Neg.
End Variant.

Record TemplateArgs : Set := mkTemplateArgs {
  Omega_class : Variant.Omega_class;
  ft2_class : Variant.ft2_class;
  ModVort_class : Variant.ModVort_class;
  r_class : Variant.r_class;
  SourceTerms_class : Variant.SourceTerms_class
}.

(** ** Strain rate *)

Module Omega_Bsl.
Section Def.
Context {su2double : Type} `{Arith su2double}.
Local Open Scope su2_scope.

Definition get (b : Base su2double) : M su2double unit :=
  wr Field.Omega
    (fsqrt (Vorticity_i b 0 * Vorticity_i b 0
            + Vorticity_i b 1 * Vorticity_i b 1
            + Vorticity_i b 2 * Vorticity_i b 2)).
End Def.
End Omega_Bsl.

Module Omega_Edw.
Section Def.
Context {su2double : Type} `{Arith su2double}.
Local Open Scope su2_scope.

(** The local [Sbar] after the double loop. *)
Definition Sbar_sym (b : Base su2double) : su2double :=
  fold_left
    (fun Sbar iDim =>
       fold_left
         (fun Sbar jDim =>
            Sbar
            + (PrimVar_Grad_i_Vel b iDim jDim + PrimVar_Grad_i_Vel b jDim iDim)
              * PrimVar_Grad_i_Vel b iDim jDim)
         (seq 0 (nDim b)) Sbar)
    (seq 0 (nDim b)) (lit 0.0).

(** The local [Sbar] after the second loop. *)
Definition Sbar (b : Base su2double) : su2double :=
  fold_left
    (fun Sbar iDim =>
       Sbar
       - (lit 2.0 / lit 3.0) * fpow (PrimVar_Grad_i_Vel b iDim iDim) (lit 2))
    (seq 0 (nDim b)) (Sbar_sym b).

Definition get (b : Base su2double) : M su2double unit :=
  wr Field.Omega (fsqrt (fmax (Sbar b) (lit 0.0))).
End Def.
End Omega_Edw.

(** ** ft2-term and its derivative *)

Module ft2_Bsl.
Section Def.
Context {su2double : Type} `{Arith su2double}.

Definition get (b : Base su2double) : M su2double unit :=
  wr Field.ft2 (lit 0.0) ;;
  wr Field.d_ft2 (lit 0.0).
End Def.
End ft2_Bsl.

Module ft2_nonzero.
Section Def.
Context {su2double : Type} `{Arith su2double}.
Local Open Scope su2_scope.

Definition get (b : Base su2double) : M su2double unit :=
  Ji <- rd Field.Ji ;;
  let xsi2 := fpow Ji (lit 2) in
  ct3 <- cst Const.ct3 ;;
  ct4 <- cst Const.ct4 ;;
  wr Field.ft2 (ct3 * fexp ((- ct4) * xsi2)) ;;
  ct4 <- cst Const.ct4 ;;
  Ji <- rd Field.Ji ;;
  ft2 <- rd Field.ft2 ;;
  d_Ji <- rd Field.d_Ji ;;
  wr Field.d_ft2 ((- lit 2.0) * ct4 * Ji * ft2 * d_Ji).
End Def.
End ft2_nonzero.

(** ** Modified vorticity and its derivative *)

Module ModVort_Bsl.
Section Def.
Context {su2double : Type} `{Arith su2double}.
Local Open Scope su2_scope.

Definition get (b : Base su2double) : M su2double unit :=
  let nue := ScalarVar_i b in
  fv2 <- rd Field.fv2 ;;
  inv_k2_d2 <- rd Field.inv_k2_d2 ;;
  let Sbar := nue * fv2 * inv_k2_d2 in
  S_ <- rd Field.S ;;
  wr Field.Shat (S_ + Sbar) ;;
  Shat <- rd Field.Shat ;;
  wr Field.Shat (fmax Shat (lit 1.0e-10)) ;;
  fv2 <- rd Field.fv2 ;;
  d_fv2 <- rd Field.d_fv2 ;;
  inv_k2_d2 <- rd Field.inv_k2_d2 ;;
  let d_Sbar := (fv2 + nue * d_fv2) * inv_k2_d2 in
  Shat <- rd Field.Shat ;;
  wr Field.d_Shat (if Shat <=? lit 1.0e-10 then lit 0.0 else d_Sbar).
End Def.
End ModVort_Bsl.

Module ModVort_Edw.
Section Def.
Context {su2double : Type} `{Arith su2double}.
Local Open Scope su2_scope.

(** The source names [nu] here without declaring it; it is the kinematic
    viscosity [Laminar_Viscosity_i / Density_i] of [ComputeResidual]. *)
Definition get (b : Base su2double) : M su2double unit :=
  S_ <- rd Field.S ;;
  Ji <- rd Field.Ji ;;
  fv1 <- rd Field.fv1 ;;
  wr Field.Shat
    (fmax (S_ * ((lit 1.0 / fmax Ji (lit 1.0e-16)) + fv1)) (lit 1.0e-16)) ;;
  Shat <- rd Field.Shat ;;
  wr Field.Shat (fmax Shat (lit 1.0e-10)) ;;
  Shat <- rd Field.Shat ;;
  S_ <- rd Field.S ;;
  Ji <- rd Field.Ji ;;
  Laminar_Viscosity_i <- mrd Laminar_Viscosity_i ;;
  Density_i <- mrd Density_i ;;
  let nu := Laminar_Viscosity_i / Density_i in
  d_fv1 <- rd Field.d_fv1 ;;
  wr Field.d_Shat
    (if Shat <=? lit 1.0e-10 then lit 0.0
     else (- S_) * fpow Ji (- lit 2.0) / nu + S_ * d_fv1).
End Def.
End ModVort_Edw.

Module ModVort_Neg.
Section Def.
Context {su2double : Type} `{Arith su2double}.
Local Open Scope su2_scope.

Definition get (b : Base su2double) : M su2double unit :=
  let nue := ScalarVar_i b in
  if nue >? lit 0.0 then
    (* Baseline solution *)
    ModVort_Bsl.get b
  else
    (* No need for Sbar *)
    ret tt.
End Def.
End ModVort_Neg.

(** ** Auxiliary function r and its derivative *)

Module r_Bsl.
Section Def.
Context {su2double : Type} `{Arith su2double}.
Local Open Scope su2_scope.

Definition get (b : Base su2double) : M su2double unit :=
  let nue := ScalarVar_i b in
  inv_Shat <- rd Field.inv_Shat ;;
  inv_k2_d2 <- rd Field.inv_k2_d2 ;;
  wr Field.r (fmin (nue * inv_Shat * inv_k2_d2) (lit 10.0)) ;;
  Shat <- rd Field.Shat ;;
  d_Shat <- rd Field.d_Shat ;;
  inv_Shat <- rd Field.inv_Shat ;;
  inv_k2_d2 <- rd Field.inv_k2_d2 ;;
  wr Field.d_r ((Shat - nue * d_Shat) * inv_Shat * inv_Shat * inv_k2_d2) ;;
  r <- rd Field.r ;;
  when (r ==? lit 10.0) (wr Field.d_r (lit 0.0)).
End Def.
End r_Bsl.

Module r_Edw.
Section Def.
Context {su2double : Type} `{Arith su2double}.
Local Open Scope su2_scope.

Definition get (b : Base su2double) : M su2double unit :=
  let nue := ScalarVar_i b in
  inv_Shat <- rd Field.inv_Shat ;;
  inv_k2_d2 <- rd Field.inv_k2_d2 ;;
  wr Field.r (fmin (nue * inv_Shat * inv_k2_d2) (lit 10.0)) ;;
  r <- rd Field.r ;;
  wr Field.r (ftanh r / ftanh (lit 1.0)) ;;
  Shat <- rd Field.Shat ;;
  d_Shat <- rd Field.d_Shat ;;
  inv_Shat <- rd Field.inv_Shat ;;
  inv_k2_d2 <- rd Field.inv_k2_d2 ;;
  wr Field.d_r ((Shat - nue * d_Shat) * inv_Shat * inv_Shat * inv_k2_d2) ;;
  r <- rd Field.r ;;
  d_r <- rd Field.d_r ;;
  wr Field.d_r ((lit 1 - fpow (ftanh r) (lit 2.0)) * d_r / ftanh (lit 1.0)).
End Def.
End r_Edw.

(** ** Source terms: production, destruction, cross production *)

(** The pointer arguments [Production], [Destruction], [CrossProduction] and
    [Jacobian] are, at the one call site, the members of those names and
    [&Jacobian_i[0]]; the functions below write the members. *)

Module SourceTerms_Bsl.
Section Def.
Context {su2double : Type} `{Arith su2double}.
Local Open Scope su2_scope.

Definition ComputeProduction (nue : su2double) : M su2double unit :=
  cb1 <- cst Const.cb1 ;;
  ft2 <- rd Field.ft2 ;;
  Shat <- rd Field.Shat ;;
  mwr (set_Production (cb1 * (lit 1.0 - ft2) * Shat * nue)) ;;
  cb1 <- cst Const.cb1 ;;
  Shat <- rd Field.Shat ;;
  d_ft2 <- rd Field.d_ft2 ;;
  ft2 <- rd Field.ft2 ;;
  d_Shat <- rd Field.d_Shat ;;
  Jacobian <- mrd Jacobian_i ;;
  mwr (set_Jacobian_i
         (Jacobian
          + cb1 * ((- Shat) * nue * d_ft2
                   + (lit 1.0 - ft2) * (nue * d_Shat + Shat)))).

Definition ComputeDestruction (nue : su2double) : M su2double unit :=
  cw1 <- cst Const.cw1 ;;
  fw <- rd Field.fw ;;
  cb1 <- cst Const.cb1 ;;
  ft2 <- rd Field.ft2 ;;
  k2 <- cst Const.k2 ;;
  dist_i_2 <- rd Field.dist_i_2 ;;
  mwr (set_Destruction
         ((cw1 * fw - cb1 * ft2 / k2) * nue * nue / dist_i_2)) ;;
  d_fw <- rd Field.d_fw ;;
  d_ft2 <- rd Field.d_ft2 ;;
  fw <- rd Field.fw ;;
  ft2 <- rd Field.ft2 ;;
  dist_i_2 <- rd Field.dist_i_2 ;;
  Jacobian <- mrd Jacobian_i ;;
  mwr (set_Jacobian_i
         (Jacobian
          - ((cw1 * d_fw - cb1 / k2 * d_ft2) * nue * nue / dist_i_2
             + (cw1 * fw - cb1 * ft2 / k2) * lit 2.0 * nue / dist_i_2))).

Definition ComputeCrossProduction (nue : su2double) : M su2double unit :=
  cb2_sigma <- cst Const.cb2_sigma ;;
  norm2_Grad <- rd Field.norm2_Grad ;;
  mwr (set_CrossProduction (cb2_sigma * norm2_Grad)).
  (* No contribution to the jacobian *)

Definition get (b : Base su2double) : M su2double unit :=
  let nue := ScalarVar_i b in
  ComputeProduction nue ;;
  ComputeDestruction nue ;;
  ComputeCrossProduction nue.
End Def.
End SourceTerms_Bsl.

Module SourceTerms_Neg.
Section Def.
Context {su2double : Type} `{Arith su2double}.
Local Open Scope su2_scope.

Definition ComputeProduction (nue : su2double) : M su2double unit :=
  cb1 <- cst Const.cb1 ;;
  ct3 <- cst Const.ct3 ;;
  S_ <- rd Field.S ;;
  mwr (set_Production (cb1 * (lit 1.0 - ct3) * S_ * nue)) ;;
  S_ <- rd Field.S ;;
  Jacobian <- mrd Jacobian_i ;;
  mwr (set_Jacobian_i (Jacobian + cb1 * (lit 1.0 - ct3) * S_)).

Definition ComputeDestruction (nue : su2double) : M su2double unit :=
  cw1 <- cst Const.cw1 ;;
  dist_i_2 <- rd Field.dist_i_2 ;;
  mwr (set_Destruction (cw1 * nue * nue / dist_i_2)) ;;
  dist_i_2 <- rd Field.dist_i_2 ;;
  Jacobian <- mrd Jacobian_i ;;
  mwr (set_Jacobian_i (Jacobian - lit 2.0 * cw1 * nue / dist_i_2)).

Definition ComputeCrossProduction (nue : su2double) : M su2double unit :=
  (* Same cross production as baseline. No need to duplicate code. *)
  SourceTerms_Bsl.ComputeCrossProduction nue.

Definition get (b : Base su2double) : M su2double unit :=
  let nue := ScalarVar_i b in
  if nue >? lit 0.0 then
    (* Baseline solution *)
    SourceTerms_Bsl.get b
  else
    ComputeProduction nue ;;
    ComputeDestruction nue ;;
    ComputeCrossProduction nue.
End Def.
End SourceTerms_Neg.

(** * The evaluator *)

Section Evaluator.
Context {su2double : Type} `{Arith su2double}.
Local Open Scope su2_scope.

(** The static calls [X_class::get(model_var)], resolved by the template
    arguments. *)
Definition Omega_class_get (sel : TemplateArgs) (b : Base su2double)
  : M su2double unit :=
  match Omega_class sel with
  | Variant.Omega_Bsl => Omega_Bsl.get b
  | Variant.Omega_Edw => Omega_Edw.get b
  end.

Definition ft2_class_get (sel : TemplateArgs) (b : Base su2double)
  : M su2double unit :=
  match ft2_class sel with
  | Variant.ft2_Bsl => ft2_Bsl.get b
  | Variant.ft2_nonzero => ft2_nonzero.get b
  end.

Definition ModVort_class_get (sel : TemplateArgs) (b : Base su2double)
  : M su2double unit :=
  match ModVort_class sel with
  | Variant.ModVort_Bsl => ModVort_Bsl.get b
  | Variant.ModVort_Edw => ModVort_Edw.get b
  | Variant.ModVort_Neg => ModVort_Neg.get b
  end.

Definition r_class_get (sel : TemplateArgs) (b : Base su2double)
  : M su2double unit :=
  match r_class sel with
  | Variant.r_Bsl => r_Bsl.get b
  | Variant.r_Edw => r_Edw.get b
  end.

Definition SourceTerms_class_get (sel : TemplateArgs) (b : Base su2double)
  : M su2double unit :=
  match SourceTerms_class sel with
  | Variant.SourceTerms_Bsl => SourceTerms_Bsl.get b
  | Variant.SourceTerms_Neg => SourceTerms_Neg.get b
  end.

(** [for (iDim = first; iDim < first + count; iDim++) body] *)
Fixpoint for_iDim (first count : nat) (body : nat -> M su2double unit)
  : M su2double unit :=
  match count with
  | O => ret tt
  | Datatypes.S n => body first ;; for_iDim (Datatypes.S first) n body
  end.

(** Lines 137-140. *)
Definition read_primitives (b : Base su2double) : M su2double unit :=
  (* Set the boolean here depending on whether the point is closest to a
     rough wall or not. *)
  mwr (set_roughwall (roughness_i b >? lit 0.0)) ;;
  mwr (set_Density_i (V_i_Density b)) ;;
  mwr (set_Laminar_Viscosity_i (V_i_LaminarViscosity b)).

(** Lines 142-147: the accumulators are reset. *)
Definition reset_accumulators : M su2double unit :=
  mwr (set_Residual (lit 0.0)) ;;
  mwr (set_Production (lit 0.0)) ;;
  mwr (set_Destruction (lit 0.0)) ;;
  mwr (set_CrossProduction (lit 0.0)) ;;
  mwr (set_AddSourceTerm (lit 0.0)) ;;
  mwr (set_Jacobian_i (lit 0.0)).

(** Lines 154-156. *)
Definition rotational_correction (b : Base su2double) : M su2double unit :=
  when (rotating_frame b)
    (Omega <- rd Field.Omega ;;
     wr Field.Omega
       (Omega + lit 2.0 * fmin (lit 0.0) (StrainMag_i b - Omega))).

(** Lines 161-183: [S], the distance helpers, [Ji], [fv1], [fv2] and their
    derivatives. *)
Definition viscous_functions (b : Base su2double) : M su2double unit :=
  (* Vorticity *)
  Omega <- rd Field.Omega ;;
  wr Field.S Omega ;;
  wr Field.dist_i_2 (dist_i b * dist_i b) ;;
  Laminar_Viscosity_i <- mrd Laminar_Viscosity_i ;;
  Density_i <- mrd Density_i ;;
  let nu := Laminar_Viscosity_i / Density_i in
  k2 <- cst Const.k2 ;;
  dist_i_2 <- rd Field.dist_i_2 ;;
  wr Field.inv_k2_d2 (lit 1.0 / (k2 * dist_i_2)) ;;
  (* Modified values for roughness *)
  cr1 <- cst Const.cr1 ;;
  wr Field.Ji
    (ScalarVar_i b / nu + cr1 * (roughness_i b / (dist_i b + EPS b))) ;;
  wr Field.d_Ji (lit 1.0 / nu) ;;
  Ji <- rd Field.Ji ;;
  let Ji_2 := Ji * Ji in
  Ji <- rd Field.Ji ;;
  let Ji_3 := Ji_2 * Ji in
  cv1_3 <- cst Const.cv1_3 ;;
  wr Field.fv1 (Ji_3 / (Ji_3 + cv1_3)) ;;
  wr Field.d_fv1
    (lit 3.0 * Ji_2 * cv1_3 / (nu * fpow (Ji_3 + cv1_3) (lit 2.0))) ;;
  (* Using a modified relation so as to not change the Shat that depends on
     fv2. *)
  fv1 <- rd Field.fv1 ;;
  wr Field.fv2 (lit 1.0 - ScalarVar_i b / (nu + ScalarVar_i b * fv1)) ;;
  d_fv1 <- rd Field.d_fv1 ;;
  Ji <- rd Field.Ji ;;
  fv1 <- rd Field.fv1 ;;
  wr Field.d_fv2
    ((- (lit 1.0 / nu - Ji_2 * d_fv1)) / fpow (lit 1.0 + Ji * fv1) (lit 2.0)).

(** Line 191. *)
Definition invert_Shat : M su2double unit :=
  Shat <- rd Field.Shat ;;
  wr Field.inv_Shat (lit 1.0 / Shat).

(** Lines 196-202: [g], [g_6], [glim], [fw] and the derivatives [d_g] and
    [d_fw].  Line 202 of the source spells the target [dfw]; the struct has
    the one member [d_fw], which [SourceTerms_Bsl] reads. *)
Definition wall_damping : M su2double unit :=
  r <- rd Field.r ;;
  cw2 <- cst Const.cw2 ;;
  wr Field.g (r + cw2 * (fpow r (lit 6.0) - r)) ;;
  g <- rd Field.g ;;
  wr Field.g_6 (fpow g (lit 6.0)) ;;
  cw3_6 <- cst Const.cw3_6 ;;
  g_6 <- rd Field.g_6 ;;
  wr Field.glim
    (fpow ((lit 1.0 + cw3_6) / (g_6 + cw3_6)) (lit 1.0 / lit 6.0)) ;;
  g <- rd Field.g ;;
  glim <- rd Field.glim ;;
  wr Field.fw (g * glim) ;;
  d_r <- rd Field.d_r ;;
  r <- rd Field.r ;;
  wr Field.d_g
    (d_r * (lit 1.0 + cw2 * (lit 6.0 * fpow r (lit 5.0) - lit 1.0))) ;;
  d_g <- rd Field.d_g ;;
  glim <- rd Field.glim ;;
  g_6 <- rd Field.g_6 ;;
  wr Field.d_fw (d_g * glim * (lit 1.0 - g_6 / (g_6 + cw3_6))).

(** Lines 204-206: the squared norm of the gradient of the scalar. *)
Definition gradient_norm (b : Base su2double) : M su2double unit :=
  wr Field.norm2_Grad (lit 0.0) ;;
  for_iDim 0 (nDim b)
    (fun iDim =>
       norm2_Grad <- rd Field.norm2_Grad ;;
       wr Field.norm2_Grad
         (norm2_Grad + ScalarVar_Grad_i b iDim * ScalarVar_Grad_i b iDim)).

(** Lines 214-218: the residual and the Jacobian are scaled by the volume. *)
Definition scale_by_Volume (b : Base su2double) : M su2double unit :=
  Production <- mrd Production ;;
  Destruction <- mrd Destruction ;;
  CrossProduction <- mrd CrossProduction ;;
  AddSourceTerm <- mrd AddSourceTerm ;;
  mwr (set_Residual
         (Production - Destruction + CrossProduction + AddSourceTerm)) ;;
  Residual <- mrd Residual ;;
  mwr (set_Residual (Residual * Volume b)) ;;
  Jacobian <- mrd Jacobian_i ;;
  mwr (set_Jacobian_i (Jacobian * Volume b)).

(** Lines 160-209: everything the source terms are assembled from, and the
    assembly itself. *)
Definition source_terms (sel : TemplateArgs) (b : Base su2double)
  : M su2double unit :=
  viscous_functions b ;;
  (* Compute ft2 term *)
  ft2_class_get sel b ;;
  (* Compute modified vorticity *)
  ModVort_class_get sel b ;;
  invert_Shat ;;
  (* Compute auxiliary function r *)
  r_class_get sel b ;;
  wall_damping ;;
  gradient_norm b ;;
  (* Compute production, destruction and cross production and jacobian *)
  SourceTerms_class_get sel b.

(** Lines 160-218: the body of [if (dist_i > 1e-10)]. *)
Definition away_from_wall (sel : TemplateArgs) (b : Base su2double)
  : M su2double unit :=
  source_terms sel b ;;
  scale_by_Volume b.

(** [CSourceBase_TurbSA::ComputeResidual], lines 131-220. *)
Definition ComputeResidual (sel : TemplateArgs) (b : Base su2double)
  : M su2double unit :=
  read_primitives b ;;
  reset_accumulators ;;
  (* Evaluate Omega *)
  Omega_class_get sel b ;;
  (* Rotational correction term *)
  rotational_correction b ;;
  when (dist_i b >? lit 1e-10) (away_from_wall sel b).

(** The view handed back to the caller, [ResidualType<>]: [Residual] and
    [Jacobian_i[0]].  (The body in the source ends without its [return].) *)
Definition ResidualType (s : State su2double) : su2double * su2double :=
  (Residual (members s), Jacobian_i (members s)).

Definition evaluate (sel : TemplateArgs) (b : Base su2double)
    (s : State su2double) : su2double * su2double :=
  ResidualType (final (ComputeResidual sel b) s).
End Evaluator.

(** * The Edwards damping function as the specification words it *)

Module r_Edw_as_specified.
Section Def.
Context {su2double : Type} `{Arith su2double}.
Local Open Scope su2_scope.

(** Follows the specification, not the source: "compute r, dr as Baseline,
    then transform r := tanh(r)/tanh(1); dr := (1 - tanh(r)^2) dr_baseline /
    tanh(1), where the factor uses the already-transformed r".  It is
    compared with [r_Edw.get], which is the source. *)
Definition get (b : Base su2double) : M su2double unit :=
  r_Bsl.get b ;;
  r <- rd Field.r ;;
  wr Field.r (ftanh r / ftanh (lit 1.0)) ;;
  r <- rd Field.r ;;
  d_r <- rd Field.d_r ;;
  wr Field.d_r ((lit 1 - fpow (ftanh r) (lit 2.0)) * d_r / ftanh (lit 1.0)).
End Def.
End r_Edw_as_specified.

(** * The instance over the real numbers *)

Section RealArith.
Local Open Scope R_scope.

Definition Rltb (x y : R) : bool := if Rlt_dec x y then true else false.
Definition Rleb (x y : R) : bool := if Rle_dec x y then true else false.
Definition Reqb (x y : R) : bool := if Req_dec_T x y then true else false.

(** [pow(x, y)] of libm on reals: an integral exponent is a repeated product
    or quotient for every base; any other exponent is [exp (y * ln x)]. *)
Definition Rpow (x y : R) : R :=
  if Req_dec_T y (IZR (Int_part y)) then powerRZ x (Int_part y)
  else Rpower x y.
End RealArith.

#[export] Instance Arith_R : Arith R := {|
  lit := Q2R;
  fadd := Rplus;
  fsub := Rminus;
  fmul := Rmult;
  fdiv := Rdiv;
  fneg := Ropp;
  fsqrt := sqrt;
  fpow := Rpow;
  fexp := exp;
  ftanh := tanh;
  flt := Rltb;
  fle := Rleb;
  feq := Reqb
|}.

(** * The instance over IEEE binary64 *)

(** The language has no [pow], [exp] and [tanh]; they come from libm, and are
    parameters here. *)
Section Binary64.
Variable libm_pow : PrimFloat.float -> PrimFloat.float -> PrimFloat.float.
Variables libm_exp libm_tanh : PrimFloat.float -> PrimFloat.float.

Definition float_of_Z (z : Z) : PrimFloat.float :=
  match z with
  | Z0 => PrimFloat.zero
  | Zpos _ => PrimFloat.of_uint63 (Uint63.of_Z z)
  | Zneg p => PrimFloat.opp (PrimFloat.of_uint63 (Uint63.of_Z (Zpos p)))
  end.

(** A decimal literal, as the quotient of its numerator and denominator:
    correctly rounded when both are doubles, which those of the literals of
    the source are. *)
Definition float_of_Q (q : Q) : PrimFloat.float :=
  PrimFloat.div (float_of_Z (Qnum q)) (float_of_Z (Zpos (Qden q))).

Definition Arith_binary64 : Arith PrimFloat.float := {|
  lit := float_of_Q;
  fadd := PrimFloat.add;
  fsub := PrimFloat.sub;
  fmul := PrimFloat.mul;
  fdiv := PrimFloat.div;
  fneg := PrimFloat.opp;
  fsqrt := PrimFloat.sqrt;
  fpow := libm_pow;
  fexp := libm_exp;
  ftanh := libm_tanh;
  flt := PrimFloat.ltb;
  fle := PrimFloat.leb;
  feq := PrimFloat.eqb
|}.
End Binary64.

Section Binary64Samples.

Definition zero_State : State PrimFloat.float :=
  let z := PrimFloat.zero in
  mkState
    (CommonVariables.mk z z z z z z z z z z z z z z z z z z z z z z z z z z z z
       z z z z z z z z)
    (mkMembers false z z z z z z z z).

(** A point whose vorticity vector is (0, 0, 5), at the distance [d] from
    the wall. *)
Definition binary64_Base (d : PrimFloat.float) : Base PrimFloat.float :=
  let z := PrimFloat.zero in
  let one := PrimFloat.one in
  mkBase 3 false (float_of_Q 1e-16) z one (float_of_Q 1e-5) d one one
    (float_of_Q 0.1)
    (fun _ => z) (fun i => match i with 2%nat => float_of_Q 5 | _ => z end)
    (fun _ _ => z).
End Binary64Samples.

(** * Ordering of accesses *)

Definition mem (f : Field.t) (W : list Field.t) : bool :=
  existsb (Field.eqb f) W.

(** [reads_defined W es]: along [es], every member that is read is in [W] or
    has been written earlier in [es]. *)
Fixpoint reads_defined (W : list Field.t) (es : list event) : bool :=
  match es with
  | [] => true
  | Rd f :: es' => mem f W && reads_defined W es'
  | Wr f :: es' => reads_defined (f :: W) es'
  end.

(** The members written along [es], added to [W]. *)
Fixpoint written (W : list Field.t) (es : list event) : list Field.t :=
  match es with
  | [] => W
  | Rd _ :: es' => written W es'
  | Wr f :: es' => written (f :: W) es'
  end.

Definition is_write_of (f : Field.t) (e : event) : bool :=
  match e with
  | Wr g => Field.eqb f g
  | Rd _ => false
  end.

Definition count_writes (f : Field.t) (es : list event) : nat :=
  length (filter (is_write_of f) es).

(** The discipline "written exactly once, and never read before written",
    for every member, along one trace. *)
Definition written_once_before_read (es : list event) : Prop :=
  reads_defined [] es = true /\ forall f : Field.t, count_writes f es = 1%nat.

(** * The input with another cell volume *)

Definition with_Volume {su2double : Type} (V : su2double) (b : Base su2double)
  : Base su2double :=
  mkBase (nDim b) (rotating_frame b) (EPS b) (roughness_i b) (V_i_Density b)
    (V_i_LaminarViscosity b) (dist_i b) (StrainMag_i b) V (ScalarVar_i b)
    (ScalarVar_Grad_i b) (Vorticity_i b) (PrimVar_Grad_i_Vel b).

(** * Dependence on the modified vorticity *)

(** The members whose value is computed from [Shat] or [d_Shat]. *)
Definition Shat_chain : list Field.t :=
  [Field.Shat; Field.d_Shat; Field.inv_Shat; Field.r; Field.d_r; Field.g;
   Field.g_6; Field.glim; Field.fw; Field.d_g; Field.d_fw].

(** Two states that differ at most in the members of [Shat_chain]. *)
Definition agree_off_Shat_chain {su2double : Type} (s1 s2 : State su2double)
  : Prop :=
  members s1 = members s2 /\
  (forall c : Const.t,
     CommonVariables.const c (model_var s1)
     = CommonVariables.const c (model_var s2)) /\
  (forall f : Field.t,
     mem f Shat_chain = false ->
     CommonVariables.get f (model_var s1)
     = CommonVariables.get f (model_var s2)).

(** * Sample inputs over the reals *)

Section Samples.
Local Open Scope R_scope.

(** The usual calibration of the model. *)
Definition sample_model_var (x : R) : CommonVariables.t R :=
  CommonVariables.mk
    (* cv1_3 k2 cb1 cw2 ct3 ct4 *)
    357.911 0.1681 0.1355 0.3 1.2 0.5
    (* cw3_6 cb2_sigma sigma cb2 cw1 cr1 *)
    64 0.933 (2 / 3) 0.622 3.2391 0.5
    x x x x x x x x x x x x x x x x x x
    x x x x x x.

Definition sample_members : Members R :=
  mkMembers false 0 0 0 0 0 0 0 0.

(** A state in which every non-constant member holds [x]. *)
Definition sample_State (x : R) : State R :=
  mkState (sample_model_var x) sample_members.

(** A point a unit distance off a smooth wall, in a shear of unit vorticity,
    whose turbulence scalar is [nue]. *)
Definition sample_Base (nue : R) : Base R :=
  mkBase 3 false 1e-16 0 1 1e-5 1 1 1 nue
    (fun _ => 0) (fun i => match i with 2%nat => 1 | _ => 0 end)
    (fun _ _ => 0).

(** The same point on the wall. *)
Definition wall_Base : Base R :=
  mkBase 3 false 1e-16 0 1 1e-5 0 1 1 0.1
    (fun _ => 0) (fun i => match i with 2%nat => 1 | _ => 0 end)
    (fun _ _ => 0).
End Samples.

Definition SA_Bsl : TemplateArgs :=
  mkTemplateArgs Variant.Omega_Bsl Variant.ft2_Bsl Variant.ModVort_Bsl
    Variant.r_Bsl Variant.SourceTerms_Bsl.

Definition SA_Edw : TemplateArgs :=
  mkTemplateArgs Variant.Omega_Edw Variant.ft2_Bsl Variant.ModVort_Edw
    Variant.r_Edw Variant.SourceTerms_Bsl.

Definition SA_Neg : TemplateArgs :=
  mkTemplateArgs Variant.Omega_Bsl Variant.ft2_Bsl Variant.ModVort_Neg
    Variant.r_Bsl Variant.SourceTerms_Neg.

Section MoreSamples.
Local Open Scope R_scope.

(** The state on entry to the damping function at a point where
    [nue * inv_Shat * inv_k2_d2] is 100 for [nue = 1]: the modified vorticity
    is 0.01 and [k2 * dist_i_2] is 1. *)
Definition clamped_State : State R :=
  mkState
    (CommonVariables.set Field.Shat 0.01
       (CommonVariables.set Field.inv_Shat 100
          (CommonVariables.set Field.inv_k2_d2 1 (sample_model_var 0))))
    sample_members.

(** The state on entry to the modified vorticity at a point of unit
    vorticity, every other member still zero. *)
Definition sheared_State : State R :=
  mkState (CommonVariables.set Field.S 1 (sample_model_var 0)) sample_members.

(** The state on entry to the source assembly at a point of unit modified
    vorticity, a unit distance off the wall, with the trip term off. *)
Definition assembly_State : State R :=
  mkState
    (CommonVariables.set Field.S 1
       (CommonVariables.set Field.Shat 1
          (CommonVariables.set Field.fw 1
             (CommonVariables.set Field.dist_i_2 1 (sample_model_var 0)))))
    sample_members.
End MoreSamples.

(** * The members written by the end of each stage of the pipeline *)

Definition after_Omega : list Field.t := [Field.Omega].

Definition after_viscous_functions : list Field.t :=
  [Field.d_fv2; Field.fv2; Field.d_fv1; Field.fv1; Field.d_Ji; Field.Ji;
   Field.inv_k2_d2; Field.dist_i_2; Field.S] ++ after_Omega.

Definition after_ft2 : list Field.t :=
  [Field.d_ft2; Field.ft2] ++ after_viscous_functions.

Definition after_ModVort : list Field.t :=
  [Field.d_Shat; Field.Shat] ++ after_ft2.

Definition after_invert_Shat : list Field.t :=
  Field.inv_Shat :: after_ModVort.

Definition after_r : list Field.t :=
  [Field.d_r; Field.r] ++ after_invert_Shat.

Definition after_wall_damping : list Field.t :=
  [Field.d_fw; Field.d_g; Field.fw; Field.glim; Field.g_6; Field.g] ++ after_r.

Definition after_gradient_norm : list Field.t :=
  Field.norm2_Grad :: after_wall_damping.

(** * Judgments on computations *)

Section Judgments.
Context {su2double : Type}.

(** [respects c]: from states that agree off the chain, [c] returns the same
    value and reaches states that agree off the chain. *)
Definition respects {A : Type} (c : M su2double A) : Prop :=
  forall s1 s2, agree_off_Shat_chain s1 s2 ->
    val c s1 = val c s2 /\ agree_off_Shat_chain (final c s1) (final c s2).

(** [chain_only c]: [c] changes members of the chain only. *)
Definition chain_only {A : Type} (c : M su2double A) : Prop :=
  forall s, agree_off_Shat_chain s (final c s).

(** [preserves c]: [c] maps states that agree off the chain to such states. *)
Definition preserves {A : Type} (c : M su2double A) : Prop :=
  forall s1 s2, agree_off_Shat_chain s1 s2 ->
    agree_off_Shat_chain (final c s1) (final c s2).

(** [defines W c W']: started when the members of [W] hold a written value,
    [c] reads written members only, and afterwards the members of [W'] hold
    a written value. *)
Definition defines {A : Type} (W : list Field.t) (c : M su2double A)
    (W' : list Field.t) : Prop :=
  forall (V : list Field.t) (s : State su2double),
    (forall f, mem f W = true -> mem f V = true) ->
    reads_defined V (trace c s) = true /\
    (forall f, mem f W' = true -> mem f (written V (trace c s)) = true).

End Judgments.

(** [fails_without f es]: unless [f] is defined beforehand, [es] reads a
    member that has not been written. *)
Definition fails_without (f : Field.t) (es : list event) : Prop :=
  forall W, mem f W = false -> reads_defined W es = false.

(** * Dependence on the state a call starts from *)

(** Two states with the same evaluator members and model constants that hold
    the same value in every member of [W]. *)
Definition agree_on {su2double : Type} (W : list Field.t)
    (s1 s2 : State su2double) : Prop :=
  members s1 = members s2 /\
  (forall c : Const.t,
     CommonVariables.const c (model_var s1)
     = CommonVariables.const c (model_var s2)) /\
  (forall f : Field.t,
     mem f W = true ->
     CommonVariables.get f (model_var s1)
     = CommonVariables.get f (model_var s2)).

Section JudgmentsOnStates.
Context {su2double : Type}.

(** [determined W c W']: from states that agree on [W], [c] returns the same
    value and reaches states that agree on [W']. *)
Definition determined {A : Type} (W : list Field.t) (c : M su2double A)
    (W' : list Field.t) : Prop :=
  forall s1 s2, agree_on W s1 s2 ->
    val c s1 = val c s2 /\ agree_on W' (final c s1) (final c s2).

(** [keeps_constants c]: [c] leaves every model constant as it found it. *)
Definition keeps_constants {A : Type} (c : M su2double A) : Prop :=
  forall (s : State su2double) (k : Const.t),
    CommonVariables.const k (model_var (final c s))
    = CommonVariables.const k (model_var s).
End JudgmentsOnStates.

(** [touches_only F c]: [c] leaves the evaluator members, the model constants
    and every member of the scratch struct outside [F] as it found them. *)
Definition touches_only {su2double A : Type} (F : list Field.t)
    (c : M su2double A) : Prop :=
  forall s : State su2double,
    members (final c s) = members s /\
    (forall k : Const.t,
       CommonVariables.const k (model_var (final c s))
       = CommonVariables.const k (model_var s)) /\
    (forall f : Field.t,
       mem f F = false ->
       CommonVariables.get f (model_var (final c s))
       = CommonVariables.get f (model_var s)).

(** * The input with another turbulence scalar *)

Definition with_ScalarVar {su2double : Type} (nue : su2double)
    (b : Base su2double) : Base su2double :=
  mkBase (nDim b) (rotating_frame b) (EPS b) (roughness_i b) (V_i_Density b)
    (V_i_LaminarViscosity b) (dist_i b) (StrainMag_i b) (Volume b) nue
    (ScalarVar_Grad_i b) (Vorticity_i b) (PrimVar_Grad_i_Vel b).

(** The state with another scratch struct. *)
Definition with_model_var {su2double : Type}
    (m : CommonVariables.t su2double) (s : State su2double)
  : State su2double :=
  mkState m (members s).

(** * Sums and samples over the reals *)

Section RealDefinitions.
Local Open Scope R_scope.

(** The sum [init + g first ^ 2 + ... + g (first + n - 1) ^ 2], added in
    the order of the loops of the source. *)
Definition sum_of_squares (g : nat -> R) (first n : nat) (init : R) : R :=
  fold_left (fun acc i => acc + g i * g i) (seq first n) init.

(** A state whose density and laminar viscosity members are both 1, as
    after the primitives of such a point have been read. *)
Definition flow_State : State R :=
  mkState (sample_model_var 0) (mkMembers false 1 1 0 0 0 0 0 0).

(** The same with every member of the scratch struct at 1: a unit
    vorticity on entry to the viscous functions. *)
Definition sheared_flow_State : State R :=
  mkState (sample_model_var 1) (mkMembers false 1 1 0 0 0 0 0 0).
End RealDefinitions.

(** * The state as a function of the turbulence scalar *)

Section Families.
Local Open Scope R_scope.

(** The states a step reaches when the point is given the turbulence
    scalar [nue], from the states [sf nue]. *)
Definition along (b : Base R) (c : Base R -> M R unit) (sf : R -> State R)
  : R -> State R :=
  fun nue => final (c (with_ScalarVar nue b)) (sf nue).

(** At [x] the member [df] holds the derivative of the member [f]. *)
Definition tracks (sf : R -> State R) (x : R) (f df : Field.t) : Prop :=
  derivable_pt_lim (fun z => CommonVariables.get f (model_var (sf z))) x
    (CommonVariables.get df (model_var (sf x))).

(** At [x] the member [f] has the derivative 0. *)
Definition still (sf : R -> State R) (x : R) (f : Field.t) : Prop :=
  derivable_pt_lim (fun z => CommonVariables.get f (model_var (sf z))) x 0.

(** The evaluator members and the model constants are the same in every
    state of the family. *)
Definition fixed_frame (sf : R -> State R) : Prop :=
  forall z z' : R,
    members (sf z) = members (sf z') /\
    forall k : Const.t,
      CommonVariables.const k (model_var (sf z))
      = CommonVariables.const k (model_var (sf z')).
End Families.

(** * The stages of a call of the baseline model *)

Section BaselineStages.
Variable sel : TemplateArgs.
Variable b : Base R.
Variable s : State R.

(** The state on entry to the block guarded by the wall distance: lines
    137-157 do not use the turbulence scalar. *)
Definition entry_state : State R :=
  final (rotational_correction b)
    (final (Omega_class_get sel b)
       (final reset_accumulators (final (read_primitives b) s))).

(** The states after each step of the guarded block, as functions of the
    turbulence scalar, with the baseline modified vorticity, damping
    function and source terms. *)
Definition at_viscous : R -> State R :=
  along b viscous_functions (fun _ => entry_state).

Definition at_ft2 : R -> State R := along b (ft2_class_get sel) at_viscous.

Definition at_ModVort : R -> State R := along b ModVort_Bsl.get at_ft2.

Definition at_r : R -> State R :=
  along b (fun b' => invert_Shat ;; r_Bsl.get b') at_ModVort.

Definition at_wall_damping : R -> State R :=
  along b (fun _ => wall_damping) at_r.

Definition at_gradient : R -> State R := along b gradient_norm at_wall_damping.

Definition at_exit : R -> State R :=
  along b (fun b' => SourceTerms_Bsl.get b' ;; scale_by_Volume b') at_gradient.
End BaselineStages.

(** * The evaluator object and its accessors *)

(** The data members of [CSourceBase_TurbSA] that its methods touch, lines
    48-55: the two transition members and the members that
    [ComputeResidual] assigns. *)
Record Object (su2double : Type) : Type := mkObject {
  Gamma_BC : su2double;
  intermittency : su2double;
  evaluator : Members su2double
}.

Arguments mkObject {su2double}.
Arguments Gamma_BC {su2double}.
Arguments intermittency {su2double}.
Arguments evaluator {su2double}.

Section Accessors.
Context {su2double : Type} `{Arith su2double}.
Local Open Scope su2_scope.

(** The constructor, lines 78-79: its body is empty, so [Gamma_BC] and
    [roughwall] get their default member initialisers and the other members
    start with what their storage holds. *)
Definition CSourceBase_TurbSA (intermittency_storage : su2double)
    (storage : Members su2double) : Object su2double :=
  mkObject (lit 0.0) intermittency_storage (set_roughwall false storage).

(** Line 85. *)
Definition SetIntermittency (intermittency_in : su2double)
    (o : Object su2double) : Object su2double :=
  mkObject (Gamma_BC o) intermittency_in (evaluator o).

(** Line 91. *)
Definition SetProduction (val_production : su2double)
    (o : Object su2double) : Object su2double :=
  mkObject (Gamma_BC o) (intermittency o)
    (set_Production val_production (evaluator o)).

(** Line 97. *)
Definition SetDestruction (val_destruction : su2double)
    (o : Object su2double) : Object su2double :=
  mkObject (Gamma_BC o) (intermittency o)
    (set_Destruction val_destruction (evaluator o)).

(** Line 103. *)
Definition SetCrossProduction (val_crossproduction : su2double)
    (o : Object su2double) : Object su2double :=
  mkObject (Gamma_BC o) (intermittency o)
    (set_CrossProduction val_crossproduction (evaluator o)).

(** Line 108. *)
Definition GetProduction (o : Object su2double) : su2double :=
  Production (evaluator o).

(** Line 114. *)
Definition GetGammaBC (o : Object su2double) : su2double := Gamma_BC o.

(** Line 119. *)
Definition GetDestruction (o : Object su2double) : su2double :=
  Destruction (evaluator o).

(** Line 124. *)
Definition GetCrossProduction (o : Object su2double) : su2double :=
  CrossProduction (evaluator o).

(** [ComputeResidual] as a method: the local [model_var] starts with what
    its storage holds, [scratch]; the call returns the view and leaves the
    members it assigned in the object. *)
Definition call_ComputeResidual (sel : TemplateArgs) (b : Base su2double)
    (scratch : CommonVariables.t su2double) (o : Object su2double)
  : (su2double * su2double) * Object su2double :=
  let s' := final (ComputeResidual sel b) (mkState scratch (evaluator o)) in
  (ResidualType s', mkObject (Gamma_BC o) (intermittency o) (members s')).

(** One call of a method that changes the object. *)
Inductive Call : Type :=
  | Call_SetIntermittency (intermittency_in : su2double)
  | Call_SetProduction (val_production : su2double)
  | Call_SetDestruction (val_destruction : su2double)
  | Call_SetCrossProduction (val_crossproduction : su2double)
  | Call_ComputeResidual (b : Base su2double)
      (scratch : CommonVariables.t su2double).

Definition step (sel : TemplateArgs) (o : Object su2double) (c : Call)
  : Object su2double :=
  match c with
  | Call_SetIntermittency v => SetIntermittency v o
  | Call_SetProduction v => SetProduction v o
  | Call_SetDestruction v => SetDestruction v o
  | Call_SetCrossProduction v => SetCrossProduction v o
  | Call_ComputeResidual b scratch =>
      snd (call_ComputeResidual sel b scratch o)
  end.

(** The object after a sequence of calls. *)
Definition run (sel : TemplateArgs) (cs : list Call) (o : Object su2double)
  : Object su2double :=
  fold_left (step sel) cs o.
End Accessors.

(** * Comparisons of numbers *)

Section Numbers.
Context {su2double : Type} `{Arith su2double}.
Local Open Scope su2_scope.

(** [x <= x] holds for every number and fails for a NaN only. *)
Definition is_number (x : su2double) : bool := x <=? x.
End Numbers.

(** What the proofs use of the order on numbers and of [sqrt].  Every one
    holds for real numbers, where everything is a number, and for IEEE
    doubles, where a comparison with a NaN is false and [sqrt] gives a NaN,
    a zero, plus infinity or a positive number. *)
Class ArithNumbers (su2double : Type) `{Arith su2double} : Prop := {
  fle_numbers : forall a b : su2double,
    fle a b = true -> is_number a = true /\ is_number b = true;
  flt_numbers : forall a b : su2double,
    flt a b = true -> is_number a = true /\ is_number b = true;
  fle_total : forall a b : su2double,
    is_number a = true -> is_number b = true ->
    flt b a = false -> fle a b = true;
  fsqrt_not_negative : forall x : su2double,
    flt (fsqrt x) (lit 0.0) = false;
  fsqrt_number : forall x : su2double,
    is_number (fsqrt x) = true -> fle (lit 0.0) (fsqrt x) = true
}.

(** * More sample inputs in IEEE binary64 *)

Section MoreBinary64Samples.

(** The usual calibration of the model in doubles, every other member 0. *)
Definition binary64_State : State PrimFloat.float :=
  let z := PrimFloat.zero in
  mkState
    (CommonVariables.mk
       (float_of_Q 357.911) (float_of_Q 0.1681) (float_of_Q 0.1355)
       (float_of_Q 0.3) (float_of_Q 1.2) (float_of_Q 0.5)
       (float_of_Q 64) (float_of_Q 0.933) (float_of_Q (2 / 3))
       (float_of_Q 0.622) (float_of_Q 3.2391) (float_of_Q 0.5)
       z z z z z z z z z z z z z z z z z z z z z z z z)
    (mkMembers false z z z z z z z z).

(** The double [2 ^ e]. *)
Definition two_to_the (e : Z) : PrimFloat.float :=
  FloatOps.Z.ldexp PrimFloat.one e.

(** A two-dimensional point whose velocity gradient has the finite entries
    du/dx = du/dy = 2^600 and dv/dx = -3 * 2^600. *)
Definition steep_Base : Base PrimFloat.float :=
  let z := PrimFloat.zero in
  let one := PrimFloat.one in
  mkBase 2 false (float_of_Q 1e-16) z one (float_of_Q 1e-5) one one one
    (float_of_Q 0.1)
    (fun _ => z) (fun _ => z)
    (fun i j =>
       match i, j with
       | 0%nat, 0%nat => two_to_the 600
       | 0%nat, 1%nat => two_to_the 600
       | 1%nat, 0%nat => PrimFloat.mul (float_of_Q (-3)) (two_to_the 600)
       | _, _ => z
       end).
End MoreBinary64Samples.

(** * One more sample input over the reals *)

Section MoreSamples.
Local Open Scope R_scope.

(** The sample point of [sample_Base], in a rotating frame. *)
Definition rotating_Base (nue : R) : Base R :=
  mkBase 3 true 1e-16 0 1 1e-5 1 1 1 nue
    (fun _ => 0) (fun i => match i with 2%nat => 1 | _ => 0 end)
    (fun _ _ => 0).
End MoreSamples.

(** * Whether the modified vorticity is written *)

Section WritesShat.
Context {su2double : Type} `{Arith su2double}.
Local Open Scope su2_scope.

(** [ModVort_Bsl] and [ModVort_Edw] assign [Shat] and [d_Shat] on every
    call, [ModVort_Neg] under its test [nue > 0.0] only. *)
Definition writes_Shat (sel : TemplateArgs) (b : Base su2double) : bool :=
  match ModVort_class sel with
  | Variant.ModVort_Neg => ScalarVar_i b >? lit 0.0
  | _ => true
  end.
End WritesShat.

(** * Properties *)

(** ** Real arithmetic *)

#[export] Instance ArithOrder_R : ArithOrder R.
Proof.
  split; intros a b; cbn; unfold Rleb, Rltb;
    destruct (Rle_dec a b), (Rlt_dec b a), (Rlt_dec a b);
    intros; try reflexivity; try discriminate; lra.
Qed.

Lemma Rltb_true (x y : R) : (x < y)%R -> Rltb x y = true.
Proof.
  intros. unfold Rltb. destruct (Rlt_dec x y); [reflexivity | contradiction].
Qed.

Lemma Rltb_false (x y : R) : (y <= x)%R -> Rltb x y = false.
Proof.
  intros. unfold Rltb. destruct (Rlt_dec x y); [lra | reflexivity].
Qed.

Lemma Rleb_true (x y : R) : (x <= y)%R -> Rleb x y = true.
Proof.
  intros. unfold Rleb. destruct (Rle_dec x y); [reflexivity | contradiction].
Qed.

Lemma Reqb_true (x y : R) : x = y -> Reqb x y = true.
Proof.
  intros. unfold Reqb. destruct (Req_dec_T x y); [reflexivity | contradiction].
Qed.

(** ** The monad *)

Section MonadFacts.
Context {su2double : Type}.

Lemma final_bind {A B : Type} (c : M su2double A) (k : A -> M su2double B) s :
  final (bind c k) s = final (k (val c s)) (final c s).
Proof.
  unfold final, val, bind. destruct (c s) as [[a s1] e1]. cbn.
  destruct (k a s1) as [[b s2] e2]. reflexivity.
Qed.

Lemma trace_bind {A B : Type} (c : M su2double A) (k : A -> M su2double B) s :
  trace (bind c k) s = trace c s ++ trace (k (val c s)) (final c s).
Proof.
  unfold trace, final, val, bind. destruct (c s) as [[a s1] e1]. cbn.
  destruct (k a s1) as [[b s2] e2]. reflexivity.
Qed.

Lemma final_when (c : bool) (k : M su2double unit) s :
  final (when c k) s = if c then final k s else s.
Proof. destruct c; reflexivity. Qed.

Lemma trace_when (c : bool) (k : M su2double unit) s :
  trace (when c k) s = if c then trace k s else [].
Proof. destruct c; reflexivity. Qed.
End MonadFacts.

Section Generic.
Context {su2double : Type} `{ArithOrder su2double}.
Local Open Scope su2_scope.

(** C1: when the wall distance is at most 1e-10 the call returns a zero
    residual and a zero Jacobian, whatever the strategies, the other inputs
    and the state it starts from; the guarded block is skipped, so the
    source terms keep the zeros of the reset as well. *)
Theorem C1_wall_guard (sel : TemplateArgs) (b : Base su2double)
    (s : State su2double) :
  (dist_i b <=? lit 1e-10) = true ->
  evaluate sel b s = (lit 0.0, lit 0.0) /\
  let out := members (final (ComputeResidual sel b) s) in
  Production out = lit 0.0 /\ Destruction out = lit 0.0 /\
  CrossProduction out = lit 0.0 /\ AddSourceTerm out = lit 0.0.
Proof.
  intros Hd. apply fle_not_gt in Hd.
  unfold evaluate, ComputeResidual.
  rewrite !final_bind, final_when, Hd.
  unfold rotational_correction. rewrite final_when.
  destruct sel as [[] ? ? ? ?], (rotating_frame b); repeat split.
Qed.

(** C7: the cross-production step, in the baseline and in the negative
    variant, stores [cb2_sigma * norm2_Grad] in [CrossProduction] and changes
    nothing else; in particular the Jacobian accumulator keeps its value. *)
Theorem C7_cross_production_frame (nue : su2double) (s : State su2double) :
  let m := model_var s in
  let P := CommonVariables.cb2_sigma m * CommonVariables.norm2_Grad m in
  let s_Bsl := final (SourceTerms_Bsl.ComputeCrossProduction nue) s in
  let s_Neg := final (SourceTerms_Neg.ComputeCrossProduction nue) s in
  s_Bsl = mkState m (set_CrossProduction P (members s)) /\
  s_Neg = mkState m (set_CrossProduction P (members s)) /\
  CrossProduction (members s_Bsl) = P /\
  CrossProduction (members s_Neg) = P /\
  Jacobian_i (members s_Bsl) = Jacobian_i (members s) /\
  Jacobian_i (members s_Neg) = Jacobian_i (members s).
Proof.
  intros m P s_Bsl s_Neg.
  assert (E : s_Bsl = mkState m (set_CrossProduction P (members s))).
  { subst s_Bsl. unfold SourceTerms_Bsl.ComputeCrossProduction.
    rewrite !final_bind. reflexivity. }
  assert (E' : s_Neg = s_Bsl) by reflexivity.
  rewrite E', E. cbn [members CrossProduction Jacobian_i set_CrossProduction].
  repeat split.
Qed.

(** C5: for a negative turbulence scalar the negative source assembly
    produces [cb1 (1 - ct3) S nue], [cw1 nue^2 / dist_i_2] and
    [cb2_sigma norm2_Grad], adds [cb1 (1 - ct3) S] to the Jacobian and
    subtracts [2 cw1 nue / dist_i_2] from it; the production is a multiple of
    [nue] by a factor free of it, and overwriting [ft2], [fv1], [fv2] or
    [Shat] changes none of the outputs. *)
Theorem C5_negative_source_terms (b : Base su2double) (s : State su2double) :
  (ScalarVar_i b <? lit 0.0) = true ->
  let nue := ScalarVar_i b in
  let m := model_var s in
  let out := members (final (SourceTerms_Neg.get b) s) in
  Production out
  = CommonVariables.cb1 m * (lit 1.0 - CommonVariables.ct3 m)
    * CommonVariables.S m * nue /\
  Destruction out
  = CommonVariables.cw1 m * nue * nue / CommonVariables.dist_i_2 m /\
  CrossProduction out
  = CommonVariables.cb2_sigma m * CommonVariables.norm2_Grad m /\
  Jacobian_i out
  = Jacobian_i (members s)
    + CommonVariables.cb1 m * (lit 1.0 - CommonVariables.ct3 m)
      * CommonVariables.S m
    - lit 2.0 * CommonVariables.cw1 m * nue / CommonVariables.dist_i_2 m /\
  (forall (f : Field.t) (v : su2double),
     In f [Field.ft2; Field.fv1; Field.fv2; Field.Shat] ->
     members
       (final (SourceTerms_Neg.get b)
          (mkState (CommonVariables.set f v m) (members s)))
     = out).
Proof.
  intros Hn nue m out. apply flt_asym in Hn.
  subst out. unfold SourceTerms_Neg.get. rewrite Hn.
  repeat split.
  intros f v [<- | [<- | [<- | [<- | []]]]]; reflexivity.
Qed.

(** C3, amended: for a positive turbulence scalar the negative modified
    vorticity and the negative source assembly are the baseline ones: they
    return the same value, state and accesses from every state. *)
Theorem C3_negative_delegates_when_positive (b : Base su2double)
    (s : State su2double) :
  (ScalarVar_i b >? lit 0.0) = true ->
  ModVort_Neg.get b s = ModVort_Bsl.get b s /\
  SourceTerms_Neg.get b s = SourceTerms_Bsl.get b s.
Proof.
  intros Hp. unfold ModVort_Neg.get, SourceTerms_Neg.get.
  rewrite Hp. split; reflexivity.
Qed.

(** Away from the clamp the Edwards damping function of the source and the
    one worded by the specification leave the same scratch struct. *)
Lemma r_Edw_as_specified_off_clamp (b : Base su2double) (s : State su2double) :
  let m := model_var s in
  (fmin (ScalarVar_i b * CommonVariables.inv_Shat m
         * CommonVariables.inv_k2_d2 m) (lit 10.0) ==? lit 10.0) = false ->
  model_var (final (r_Edw.get b) s)
  = model_var (final (r_Edw_as_specified.get b) s).
Proof.
  intros m Hc. subst m.
  unfold r_Edw_as_specified.get, r_Edw.get, r_Bsl.get.
  rewrite !final_bind, final_when.
  cbn -[fmin lit]. rewrite Hc. reflexivity.
Qed.
End Generic.

(** ** Results in real arithmetic *)

Section Real.
Local Open Scope R_scope.

Lemma fmin_R (a b : R) : fmin a b = Rmin a b.
Proof.
  unfold fmin, Rmin. cbn. unfold Rltb.
  destruct (Rlt_dec b a), (Rle_dec a b); try reflexivity; lra.
Qed.

Lemma fmax_R (a b : R) : fmax a b = Rmax a b.
Proof.
  unfold fmax, Rmax. cbn. unfold Rltb.
  destruct (Rlt_dec a b), (Rle_dec a b); try reflexivity; lra.
Qed.

Lemma lit_10 : lit 10.0 = 10.
Proof. cbn. unfold Q2R. cbn. lra. Qed.

Lemma lit_0 : lit 0.0 = 0.
Proof. cbn. unfold Q2R. cbn. lra. Qed.

Lemma lit_1e_10 : lit 1e-10 = 1e-10.
Proof. cbn. unfold Q2R. cbn. lra. Qed.

End Real.

(** ** Clamps and square roots in every arithmetic *)

Section GenericNumbers.
Context {su2double : Type} {A : Arith su2double}.
Context {HO : ArithOrder su2double} {HN : ArithNumbers su2double}.
Local Open Scope su2_scope.

Lemma flt_irrefl (a : su2double) : (a <? a) = false.
Proof.
  destruct (a <? a) eqn:E; [| reflexivity].
  pose proof (flt_asym a a E). congruence.
Qed.

(** [std::min(x, c)] is never above [c]; it is at most [c] exactly when [x]
    is a number. *)
Lemma fmin_cap (x c : su2double) :
  (fmin x c >? c) = false /\
  (is_number c = true -> (fmin x c <=? c) = is_number x).
Proof.
  unfold fmin. destruct (c <? x) eqn:E.
  - split; [apply flt_irrefl |]. intros Hc.
    destruct (flt_numbers c x E) as (_ & Hx). rewrite Hx. exact Hc.
  - split; [exact E |]. intros Hc.
    destruct (is_number x) eqn:Hx.
    + apply fle_total; assumption.
    + destruct (x <=? c) eqn:L; [| reflexivity].
      destruct (fle_numbers x c L). congruence.
Qed.

(** C6, amended: the baseline damping function is never above 10; it is at
    most 10 exactly when [nue * inv_Shat * inv_k2_d2] is a number (a NaN
    there passes through [std::min]); and its derivative is 0 whenever it
    equals 10. *)
Theorem C6_r_Bsl_clamp (b : Base su2double) (s : State su2double) :
  let x :=
    ScalarVar_i b * CommonVariables.inv_Shat (model_var s)
    * CommonVariables.inv_k2_d2 (model_var s) in
  let m' := model_var (final (r_Bsl.get b) s) in
  CommonVariables.r m' = fmin x (lit 10.0) /\
  (CommonVariables.r m' >? lit 10.0) = false /\
  (is_number (lit 10.0) = true ->
   (CommonVariables.r m' <=? lit 10.0) = is_number x) /\
  ((CommonVariables.r m' ==? lit 10.0) = true ->
   CommonVariables.d_r m' = lit 0.0).
Proof.
  intros x m'.
  assert (Er : CommonVariables.r m' = fmin x (lit 10.0)).
  { subst m' x. unfold r_Bsl.get. rewrite !final_bind, final_when.
    destruct (_ ==? _); reflexivity. }
  split; [exact Er |]. rewrite Er.
  split; [apply fmin_cap |]. split; [apply fmin_cap |].
  rewrite <- Er. subst m'. unfold r_Bsl.get.
  rewrite !final_bind.
  match goal with
  | |- context [final (rd Field.r) ?t] => set (s5 := t)
  end.
  change (final (rd Field.r) s5) with s5.
  change (val (rd Field.r) s5) with (CommonVariables.r (model_var s5)).
  rewrite final_when.
  destruct (CommonVariables.r (model_var s5) ==? lit 10.0) eqn:E;
    [reflexivity | congruence].
Qed.

(** C10, amended: both vorticity strategies write a square root, the
    baseline one that of the sum of the squares of the vorticity components,
    the Edwards one that of [Sbar] clamped at zero; so [Omega] is never
    negative, and it is at least 0 exactly when it is a number (the square
    root of a NaN is a NaN). *)
Theorem C10_Omega_nonnegative (b : Base su2double) (s : State su2double) :
  let Omega_of c := CommonVariables.Omega (model_var (final c s)) in
  Omega_of (Omega_Bsl.get b)
  = fsqrt (Vorticity_i b 0 * Vorticity_i b 0 + Vorticity_i b 1 * Vorticity_i b 1
           + Vorticity_i b 2 * Vorticity_i b 2) /\
  Omega_of (Omega_Edw.get b) = fsqrt (fmax (Omega_Edw.Sbar b) (lit 0.0)) /\
  forall sel : TemplateArgs,
    (Omega_of (Omega_class_get sel b) <? lit 0.0) = false /\
    (lit 0.0 <=? Omega_of (Omega_class_get sel b))
    = is_number (Omega_of (Omega_class_get sel b)).
Proof.
  cbv zeta. split; [reflexivity |]. split; [reflexivity |].
  assert (Hsqrt : forall y : su2double,
             (fsqrt y <? lit 0.0) = false /\
             (lit 0.0 <=? fsqrt y) = is_number (fsqrt y)).
  { intros y. split; [apply fsqrt_not_negative |].
    destruct (is_number (fsqrt y)) eqn:N; [apply fsqrt_number, N |].
    destruct (lit 0.0 <=? fsqrt y) eqn:L; [| reflexivity].
    destruct (fle_numbers _ _ L). congruence. }
  intros [[] ? ? ? ?]; unfold Omega_class_get; cbn [Omega_class]; apply Hsqrt.
Qed.
End GenericNumbers.

Section RealHyperbolic.
Local Open Scope R_scope.

Lemma tanh_exp (y : R) :
  tanh y = (exp y - exp (- y)) / (exp y + exp (- y)).
Proof.
  unfold tanh, sinh, cosh.
  pose proof (exp_pos y). pose proof (exp_pos (- y)). field. lra.
Qed.

Lemma one_minus_tanh_sqr_pos (y : R) : 0 < 1 - tanh y * tanh y.
Proof.
  rewrite tanh_exp.
  pose proof (exp_pos y) as Ha. pose proof (exp_pos (- y)) as Hc.
  set (a := exp y) in *. set (c := exp (- y)) in *.
  replace (1 - (a - c) / (a + c) * ((a - c) / (a + c)))
    with (4 * a * c / ((a + c) * (a + c))) by (field; lra).
  apply Rdiv_lt_0_compat; nra.
Qed.

Lemma tanh_1_pos : 0 < tanh 1.
Proof.
  rewrite tanh_exp.
  pose proof (exp_pos 1). pose proof (exp_pos (Ropp 1)).
  assert (exp (Ropp 1) < exp 1) by (apply exp_increasing; lra).
  apply Rdiv_lt_0_compat; lra.
Qed.

Lemma lit_2 : lit 2.0 = 2.
Proof. cbn. unfold Q2R. cbn. lra. Qed.

Lemma lit_1 : lit 1.0 = 1.
Proof. cbn. unfold Q2R. cbn. lra. Qed.

Lemma lit_int_1 : lit 1 = 1.
Proof. cbn. unfold Q2R. cbn. lra. Qed.

Lemma Rpow_2 (x : R) : Rpow x 2 = x * x.
Proof.
  unfold Rpow.
  assert (E : Int_part 2 = 2%Z) by (symmetry; apply Int_part_spec; lra).
  rewrite E. destruct (Req_dec_T 2 2) as [_ | N]; [| now contradiction N].
  unfold powerRZ. simpl. ring.
Qed.

(** C2: at a point where the argument of the clamp is 100, the Edwards
    damping function of the source keeps a non-zero derivative, while
    "computed as Baseline (derivative forced to 0 at the clamp), then
    transformed" gives the derivative 0; both give the same [r]. *)
Theorem C2_r_Edw_keeps_derivative_at_clamp :
  let code := model_var (final (r_Edw.get (sample_Base 1)) clamped_State) in
  let spec :=
    model_var (final (r_Edw_as_specified.get (sample_Base 1)) clamped_State) in
  CommonVariables.r code = tanh 10 / tanh 1 /\
  CommonVariables.r spec = tanh 10 / tanh 1 /\
  CommonVariables.d_r code
  = (1 - tanh (tanh 10 / tanh 1) * tanh (tanh 10 / tanh 1)) * 100 / tanh 1 /\
  CommonVariables.d_r code <> 0 /\
  CommonVariables.d_r spec = 0.
Proof.
  assert (Hmin : fmin (1 * 100 * 1) (lit 10.0) = 10).
  { rewrite fmin_R, lit_10. unfold Rmin. destruct (Rle_dec _ _); lra. }
  assert (Hcode : CommonVariables.d_r
            (model_var (final (r_Edw.get (sample_Base 1)) clamped_State))
          = (1 - tanh (tanh 10 / tanh 1) * tanh (tanh 10 / tanh 1)) * 100
            / tanh 1).
  { unfold r_Edw.get. rewrite !final_bind.
    cbn -[lit fmin tanh Rpow Rmult Rminus Rdiv].
    rewrite Hmin, lit_1, lit_2, lit_int_1, Rpow_2. f_equal. f_equal. lra. }
  cbv zeta. rewrite Hcode. repeat split.
  - unfold r_Edw.get. rewrite !final_bind.
    cbn -[lit fmin tanh Rpow Rmult Rminus Rdiv].
    rewrite Hmin, lit_1. reflexivity.
  - unfold r_Edw_as_specified.get, r_Bsl.get.
    rewrite !final_bind, final_when.
    cbn -[lit fmin tanh Rpow Rmult Rminus Rdiv].
    rewrite Hmin, lit_10, (Reqb_true 10 10 eq_refl).
    cbn -[lit fmin tanh Rpow Rmult Rminus Rdiv].
    rewrite lit_1. reflexivity.
  - pose proof (one_minus_tanh_sqr_pos (tanh 10 / tanh 1)).
    pose proof tanh_1_pos.
    apply Rgt_not_eq, Rdiv_lt_0_compat; [nra | assumption].
  - unfold r_Edw_as_specified.get, r_Bsl.get.
    rewrite !final_bind, final_when.
    cbn -[lit fmin tanh Rpow Rmult Rminus Rdiv].
    rewrite Hmin, lit_10, (Reqb_true 10 10 eq_refl).
    cbn -[lit fmin tanh Rpow Rmult Rminus Rdiv].
    rewrite lit_0. unfold Rdiv. ring.
Qed.
End RealHyperbolic.

(** ** Independence from the modified vorticity *)

Section ShatChain.
Context {su2double : Type} `{ArithOrder su2double}.
Local Open Scope su2_scope.
Local Abbreviation respects := (@respects su2double _).
Local Abbreviation chain_only := (@chain_only su2double _).
Local Abbreviation preserves := (@preserves su2double _).

Lemma const_set (c : Const.t) (f : Field.t) (v : su2double) m :
  CommonVariables.const c (CommonVariables.set f v m) = CommonVariables.const c m.
Proof. destruct c; reflexivity. Qed.

Lemma get_set (g f : Field.t) (v : su2double) m :
  CommonVariables.get g (CommonVariables.set f v m)
  = if Field.eqb f g then v else CommonVariables.get g m.
Proof. destruct g; reflexivity. Qed.

Lemma chain_separates (f g : Field.t) :
  mem f Shat_chain = true -> mem g Shat_chain = false -> Field.eqb f g = false.
Proof. destruct f, g; cbn; intros; try reflexivity; discriminate. Qed.

Lemma agree_refl (s : State su2double) : agree_off_Shat_chain s s.
Proof. repeat split. Qed.

Lemma agree_sym (s1 s2 : State su2double) :
  agree_off_Shat_chain s1 s2 -> agree_off_Shat_chain s2 s1.
Proof.
  intros (Hm & Hc & Hf). repeat split; intros; symmetry; auto.
Qed.

Lemma agree_trans (s1 s2 s3 : State su2double) :
  agree_off_Shat_chain s1 s2 -> agree_off_Shat_chain s2 s3 ->
  agree_off_Shat_chain s1 s3.
Proof.
  intros (Hm & Hc & Hf) (Hm' & Hc' & Hf'). repeat split; intros.
  - congruence.
  - rewrite Hc. apply Hc'.
  - rewrite Hf by assumption. apply Hf'. assumption.
Qed.

Lemma respects_ret {A : Type} (a : A) : respects (ret a).
Proof. intros s1 s2 Hs. split; [reflexivity | exact Hs]. Qed.

Lemma respects_rd (f : Field.t) : mem f Shat_chain = false -> respects (rd f).
Proof. intros Hf s1 s2 Hs. split; [apply Hs, Hf | exact Hs]. Qed.

Lemma respects_cst (c : Const.t) : respects (cst c).
Proof. intros s1 s2 Hs. split; [apply Hs | exact Hs]. Qed.

Lemma respects_mrd {A : Type} (p : Members su2double -> A) : respects (mrd p).
Proof.
  intros s1 s2 Hs. split; [| exact Hs].
  unfold val, mrd. cbn. destruct Hs as (-> & _). reflexivity.
Qed.

Lemma respects_mwr (u : Members su2double -> Members su2double) :
  respects (mwr u).
Proof.
  intros s1 s2 (Hm & Hc & Hf). split; [reflexivity |].
  split; [| split]; cbn; [now rewrite Hm | exact Hc | exact Hf].
Qed.

Lemma respects_wr (f : Field.t) (v : su2double) : respects (wr f v).
Proof.
  intros s1 s2 (Hm & Hc & Hf). split; [reflexivity |].
  split; [| split]; cbn.
  - exact Hm.
  - intros c. rewrite !const_set. apply Hc.
  - intros g Hg. rewrite !get_set. destruct (Field.eqb f g); auto.
Qed.

Lemma respects_bind {A B : Type} (c : M su2double A) (k : A -> M su2double B) :
  respects c -> (forall a, respects (k a)) -> respects (bind c k).
Proof.
  intros Hc Hk s1 s2 Hs. destruct (Hc s1 s2 Hs) as (Hv & Hs').
  unfold val at 1 2. fold (val (bind c k) s1) (val (bind c k) s2).
  assert (Ev : forall s, val (bind c k) s = val (k (val c s)) (final c s)).
  { intros s. unfold val, final, bind. destruct (c s) as [[a s'] e]. cbn.
    destruct (k a s') as [[b0 s''] e']. reflexivity. }
  rewrite !Ev, !final_bind, Hv. apply Hk, Hs'.
Qed.

Lemma respects_when (c : bool) (k : M su2double unit) :
  respects k -> respects (when c k).
Proof. destruct c; [trivial | intros _; apply respects_ret]. Qed.

Lemma respects_for_iDim (body : nat -> M su2double unit) (n : nat) :
  (forall i, respects (body i)) -> forall first, respects (for_iDim first n body).
Proof.
  intros Hb. induction n; intros first; cbn [for_iDim].
  - apply respects_ret.
  - apply respects_bind; [apply Hb | intros _; apply IHn].
Qed.

Lemma chain_only_ret {A : Type} (a : A) : chain_only (ret a).
Proof. intros s. apply agree_refl. Qed.

Lemma chain_only_rd (f : Field.t) : chain_only (rd f).
Proof. intros s. apply agree_refl. Qed.

Lemma chain_only_cst (c : Const.t) : chain_only (cst c).
Proof. intros s. apply agree_refl. Qed.

Lemma chain_only_mrd {A : Type} (p : Members su2double -> A) :
  chain_only (mrd p).
Proof. intros s. apply agree_refl. Qed.

Lemma chain_only_wr (f : Field.t) (v : su2double) :
  mem f Shat_chain = true -> chain_only (wr f v).
Proof.
  intros Hf s. split; [| split]; cbn.
  - reflexivity.
  - intros c. now rewrite const_set.
  - intros g Hg. now rewrite get_set, (chain_separates f g Hf Hg).
Qed.

Lemma chain_only_bind {A B : Type} (c : M su2double A) (k : A -> M su2double B) :
  chain_only c -> (forall a, chain_only (k a)) -> chain_only (bind c k).
Proof.
  intros Hc Hk s. rewrite final_bind.
  eapply agree_trans; [apply Hc | apply Hk].
Qed.

Lemma chain_only_when (c : bool) (k : M su2double unit) :
  chain_only k -> chain_only (when c k).
Proof. destruct c; [trivial | intros _; apply chain_only_ret]. Qed.

Lemma respects_preserves {A : Type} (c : M su2double A) :
  respects c -> preserves c.
Proof. intros Hc s1 s2 Hs. apply Hc, Hs. Qed.

Lemma chain_only_preserves {A : Type} (c : M su2double A) :
  chain_only c -> preserves c.
Proof.
  intros Hc s1 s2 Hs.
  eapply agree_trans; [apply agree_sym, Hc |].
  eapply agree_trans; [exact Hs | apply Hc].
Qed.

Lemma preserves_seq {A B : Type} (c : M su2double A) (k : M su2double B) :
  preserves c -> preserves k -> preserves (c ;; k).
Proof.
  intros Hc Hk s1 s2 Hs. rewrite !final_bind. apply Hk, Hc, Hs.
Qed.

Lemma preserves_when (c : bool) (k : M su2double unit) :
  preserves k -> preserves (when c k).
Proof. destruct c; [trivial | intros _ s1 s2 Hs; exact Hs]. Qed.

Ltac respects_solve :=
  lazymatch goal with
  | |- respects (bind _ _) =>
      apply respects_bind; [respects_solve | intros ?; respects_solve]
  | |- respects (rd _) => apply respects_rd; reflexivity
  | |- respects (wr _ _) => apply respects_wr
  | |- respects (cst _) => apply respects_cst
  | |- respects (mrd _) => apply respects_mrd
  | |- respects (mwr _) => apply respects_mwr
  | |- respects (ret _) => apply respects_ret
  | |- respects (when _ _) => apply respects_when; respects_solve
  | |- respects (for_iDim _ _ _) =>
      apply respects_for_iDim; intros ?; respects_solve
  end.

Ltac chain_only_solve :=
  lazymatch goal with
  | |- chain_only (bind _ _) =>
      apply chain_only_bind; [chain_only_solve | intros ?; chain_only_solve]
  | |- chain_only (rd _) => apply chain_only_rd
  | |- chain_only (wr _ _) => apply chain_only_wr; reflexivity
  | |- chain_only (cst _) => apply chain_only_cst
  | |- chain_only (mrd _) => apply chain_only_mrd
  | |- chain_only (ret _) => apply chain_only_ret
  | |- chain_only (when _ _) => apply chain_only_when; chain_only_solve
  end.

Lemma respects_read_primitives b : respects (read_primitives b).
Proof. unfold read_primitives. respects_solve. Qed.

Lemma respects_reset_accumulators : respects reset_accumulators.
Proof. unfold reset_accumulators. respects_solve. Qed.

Lemma respects_Omega_class_get sel b : respects (Omega_class_get sel b).
Proof.
  unfold Omega_class_get, Omega_Bsl.get, Omega_Edw.get.
  destruct (Omega_class sel); respects_solve.
Qed.

Lemma respects_rotational_correction b : respects (rotational_correction b).
Proof. unfold rotational_correction. respects_solve. Qed.

Lemma respects_viscous_functions b : respects (viscous_functions b).
Proof. unfold viscous_functions. cbv zeta. respects_solve. Qed.

Lemma respects_ft2_class_get sel b : respects (ft2_class_get sel b).
Proof.
  unfold ft2_class_get, ft2_Bsl.get, ft2_nonzero.get.
  destruct (ft2_class sel); cbv zeta; respects_solve.
Qed.

Lemma chain_only_invert_Shat : chain_only invert_Shat.
Proof. unfold invert_Shat. chain_only_solve. Qed.

Lemma chain_only_r_class_get sel b : chain_only (r_class_get sel b).
Proof.
  unfold r_class_get, r_Bsl.get, r_Edw.get.
  destruct (r_class sel); cbv zeta; chain_only_solve.
Qed.

Lemma chain_only_wall_damping : chain_only wall_damping.
Proof. unfold wall_damping. chain_only_solve. Qed.

Lemma respects_gradient_norm b : respects (gradient_norm b).
Proof. unfold gradient_norm. respects_solve. Qed.

Lemma respects_scale_by_Volume b : respects (scale_by_Volume b).
Proof. unfold scale_by_Volume. respects_solve. Qed.

Lemma respects_SourceTerms_Neg_nonpositive b :
  (ScalarVar_i b >? lit 0.0) = false -> respects (SourceTerms_Neg.get b).
Proof.
  intros Hn. unfold SourceTerms_Neg.get. rewrite Hn.
  unfold SourceTerms_Neg.ComputeProduction, SourceTerms_Neg.ComputeDestruction,
    SourceTerms_Neg.ComputeCrossProduction, SourceTerms_Bsl.ComputeCrossProduction.
  cbv zeta. respects_solve.
Qed.

Lemma preserves_ComputeResidual_Neg sel b :
  ModVort_class sel = Variant.ModVort_Neg ->
  SourceTerms_class sel = Variant.SourceTerms_Neg ->
  (ScalarVar_i b >? lit 0.0) = false ->
  preserves (ComputeResidual sel b).
Proof.
  intros HM HS Hn.
  unfold ComputeResidual, away_from_wall, source_terms.
  unfold ModVort_class_get, SourceTerms_class_get. rewrite HM, HS.
  unfold ModVort_Neg.get. rewrite Hn. cbv zeta.
  apply preserves_seq;
    [apply respects_preserves, respects_read_primitives |].
  apply preserves_seq;
    [apply respects_preserves, respects_reset_accumulators |].
  apply preserves_seq;
    [apply respects_preserves, respects_Omega_class_get |].
  apply preserves_seq;
    [apply respects_preserves, respects_rotational_correction |].
  apply preserves_when.
  apply preserves_seq;
    [| apply respects_preserves, respects_scale_by_Volume].
  apply preserves_seq;
    [apply respects_preserves, respects_viscous_functions |].
  apply preserves_seq;
    [apply respects_preserves, respects_ft2_class_get |].
  apply preserves_seq;
    [apply respects_preserves, respects_ret |].
  apply preserves_seq;
    [apply chain_only_preserves, chain_only_invert_Shat |].
  apply preserves_seq;
    [apply chain_only_preserves, chain_only_r_class_get |].
  apply preserves_seq;
    [apply chain_only_preserves, chain_only_wall_damping |].
  apply preserves_seq;
    [apply respects_preserves, respects_gradient_norm |].
  apply respects_preserves, respects_SourceTerms_Neg_nonpositive, Hn.
Qed.

(** C9: with the negative modified vorticity and the negative source
    assembly, at a point whose turbulence scalar is not positive, the
    members the call leaves behind (production, destruction, cross
    production, residual, Jacobian and the rest) do not depend on the values
    [Shat] and [d_Shat] hold on entry. *)
Theorem C9_unset_Shat_is_not_observed (sel : TemplateArgs) (b : Base su2double)
    (s : State su2double) (x y : su2double) :
  ModVort_class sel = Variant.ModVort_Neg ->
  SourceTerms_class sel = Variant.SourceTerms_Neg ->
  (ScalarVar_i b <=? lit 0.0) = true ->
  let s' :=
    mkState
      (CommonVariables.set Field.Shat x
         (CommonVariables.set Field.d_Shat y (model_var s)))
      (members s) in
  members (final (ComputeResidual sel b) s')
  = members (final (ComputeResidual sel b) s) /\
  evaluate sel b s' = evaluate sel b s.
Proof.
  intros HM HS Hn s'. apply fle_not_gt in Hn.
  assert (Hs : agree_off_Shat_chain s' s).
  { subst s'. split; [| split]; cbn.
    - reflexivity.
    - intros c. now rewrite !const_set.
    - intros g Hg. rewrite !get_set.
      rewrite (chain_separates Field.Shat g), (chain_separates Field.d_Shat g);
        auto. }
  destruct (preserves_ComputeResidual_Neg sel b HM HS Hn _ _ Hs) as (Hm & _).
  split; [exact Hm |]. unfold evaluate, ResidualType. now rewrite Hm.
Qed.
End ShatChain.

(** ** Scaling by the cell volume in every arithmetic *)

Section VolumeGeneric.
Context {su2double : Type} `{Arith su2double}.
Local Open Scope su2_scope.

(** The state on entry to the guarded block: nothing before it reads the
    volume. *)
Let before_guard (sel : TemplateArgs) (b : Base su2double)
    (s : State su2double) : State su2double :=
  final (rotational_correction b)
    (final (Omega_class_get sel b)
       (final reset_accumulators (final (read_primitives b) s))).

Lemma final_ComputeResidual_Volume (sel : TemplateArgs) (b : Base su2double)
    (s : State su2double) (V : su2double) :
  final (ComputeResidual sel (with_Volume V b)) s
  = if dist_i b >? lit 1e-10
    then final (scale_by_Volume (with_Volume V b))
           (final (source_terms sel b) (before_guard sel b s))
    else before_guard sel b s.
Proof.
  unfold ComputeResidual, away_from_wall, before_guard.
  rewrite !final_bind, final_when, final_bind. reflexivity.
Qed.

Lemma before_guard_zero (sel : TemplateArgs) (b : Base su2double)
    (s : State su2double) :
  ResidualType (before_guard sel b s) = (lit 0.0, lit 0.0).
Proof.
  unfold before_guard, rotational_correction. rewrite final_when.
  destruct sel as [[] ? ? ? ?], (rotating_frame b); reflexivity.
Qed.

Lemma scale_by_Volume_result (b : Base su2double) (s1 : State su2double) :
  let out := members (final (scale_by_Volume b) s1) in
  Production out = Production (members s1) /\
  Destruction out = Destruction (members s1) /\
  CrossProduction out = CrossProduction (members s1) /\
  AddSourceTerm out = AddSourceTerm (members s1) /\
  Residual out
  = (Production (members s1) - Destruction (members s1)
     + CrossProduction (members s1) + AddSourceTerm (members s1)) * Volume b /\
  Jacobian_i out = Jacobian_i (members s1) * Volume b.
Proof. repeat apply conj; reflexivity. Qed.

(** In every arithmetic the pair a call returns past the guard is a pair
    of factors free of the volume, each multiplied by the volume once. *)
Lemma volume_factors (sel : TemplateArgs) (b : Base su2double)
    (s : State su2double) :
  exists R0 J0 : su2double,
    forall V : su2double,
      let out := members (final (ComputeResidual sel (with_Volume V b)) s) in
      if dist_i b >? lit 1e-10
      then R0 = Production out - Destruction out + CrossProduction out
                + AddSourceTerm out /\
           evaluate sel (with_Volume V b) s = (R0 * V, J0 * V)
      else evaluate sel (with_Volume V b) s = (lit 0.0, lit 0.0).
Proof.
  pose (s1 := final (source_terms sel b) (before_guard sel b s)).
  exists (Production (members s1) - Destruction (members s1)
          + CrossProduction (members s1) + AddSourceTerm (members s1)),
    (Jacobian_i (members s1)).
  intros V. cbv zeta. unfold evaluate, ResidualType.
  rewrite final_ComputeResidual_Volume.
  destruct (dist_i b >? lit 1e-10).
  - fold s1.
    destruct (scale_by_Volume_result (with_Volume V b) s1)
      as (EP & ED & EC & EA & ER & EJ).
    cbv zeta in EP, ED, EC, EA, ER, EJ.
    rewrite EP, ED, EC, EA, ER, EJ. split; reflexivity.
  - exact (before_guard_zero sel b s).
Qed.
End VolumeGeneric.


(** ** Ordering of writes and reads *)

Section TraceFacts.

Lemma reads_defined_app (e1 e2 : list event) : forall W,
  reads_defined W (e1 ++ e2)
  = reads_defined W e1 && reads_defined (written W e1) e2.
Proof.
  induction e1 as [| [f | f] e1 IH]; intros W; cbn.
  - reflexivity.
  - rewrite IH. apply andb_assoc.
  - apply IH.
Qed.

Lemma written_app (e1 e2 : list event) : forall W,
  written W (e1 ++ e2) = written (written W e1) e2.
Proof.
  induction e1 as [| [f | f] e1 IH]; intros W; cbn; auto.
Qed.

Lemma mem_written (f : Field.t) (es : list event) : forall W,
  mem f W = true -> mem f (written W es) = true.
Proof.
  induction es as [| [g | g] es IH]; intros W HW; cbn [written].
  - exact HW.
  - apply IH, HW.
  - apply IH. unfold mem in *. cbn [existsb]. rewrite HW. apply orb_true_r.
Qed.

Lemma count_writes_app (f : Field.t) (e1 e2 : list event) :
  count_writes f (e1 ++ e2) = (count_writes f e1 + count_writes f e2)%nat.
Proof. unfold count_writes. now rewrite filter_app, length_app. Qed.

Lemma mem_written_count (f : Field.t) (es : list event) : forall W,
  mem f (written W es) = true ->
  mem f W = true \/ (1 <= count_writes f es)%nat.
Proof.
  induction es as [| [g | g] es IH]; intros W HW; cbn in *.
  - now left.
  - apply IH, HW.
  - unfold count_writes. cbn. destruct (IH _ HW) as [Hm | Hc].
    + cbn in Hm. destruct (Field.eqb f g); cbn; [right; lia | now left].
    + right. unfold count_writes in Hc.
      destruct (Field.eqb f g); cbn; lia.
Qed.

(** A read of a member that no earlier event writes is not defined. *)
Lemma read_of_unwritten (f : Field.t) (pre rest : list event) :
  count_writes f pre = 0%nat ->
  reads_defined [] (pre ++ Rd f :: rest) = false.
Proof.
  intros Hc. rewrite reads_defined_app. cbn [reads_defined].
  assert (Hm : mem f (written [] pre) = false).
  { destruct (mem f (written [] pre)) eqn:E; [| reflexivity].
    apply mem_written_count in E. destruct E as [E | E]; [discriminate | lia]. }
  rewrite Hm. cbn. apply andb_false_r.
Qed.
End TraceFacts.

Section Defines.
Context {su2double : Type} `{ArithOrder su2double}.
Local Open Scope su2_scope.
Local Abbreviation defines := (@defines su2double _).

Lemma defines_ret {A : Type} (a : A) W : defines W (ret a) W.
Proof. intros V s HV. split; [reflexivity | exact HV]. Qed.

Lemma defines_rd (f : Field.t) W : mem f W = true -> defines W (rd f) W.
Proof.
  intros Hf V s HV. split; [| exact HV]. cbn. now rewrite (HV f Hf).
Qed.

Lemma defines_wr (f : Field.t) (v : su2double) W : defines W (wr f v) (f :: W).
Proof.
  intros V s HV. split; [reflexivity |].
  cbn [trace wr snd written]. intros g Hg.
  unfold mem in *. cbn [existsb] in *.
  apply orb_true_iff in Hg. apply orb_true_iff.
  destruct Hg as [Hg | Hg]; [left; exact Hg | right; apply HV, Hg].
Qed.

Lemma defines_cst (c : Const.t) W : defines W (cst c) W.
Proof. intros V s HV. split; [reflexivity | exact HV]. Qed.

Lemma defines_mrd {A : Type} (p : Members su2double -> A) W :
  defines W (mrd p) W.
Proof. intros V s HV. split; [reflexivity | exact HV]. Qed.

Lemma defines_mwr (u : Members su2double -> Members su2double) W :
  defines W (mwr u) W.
Proof. intros V s HV. split; [reflexivity | exact HV]. Qed.

Lemma defines_bind {A B : Type} (c : M su2double A) (k : A -> M su2double B)
    W W1 W2 :
  defines W c W1 -> (forall a, defines W1 (k a) W2) -> defines W (bind c k) W2.
Proof.
  intros Hc Hk V s HV. rewrite trace_bind, reads_defined_app, written_app.
  destruct (Hc V s HV) as (Hr & Hw).
  destruct (Hk (val c s) _ (final c s) Hw) as (Hr' & Hw').
  rewrite Hr, Hr'. split; [reflexivity | exact Hw'].
Qed.

Lemma defines_when (c : bool) (k : M su2double unit) W W1 :
  defines W k W1 -> defines W (when c k) W.
Proof.
  intros Hk V s HV. destruct c; cbn.
  - destruct (Hk V s HV) as (Hr & _). split; [exact Hr |].
    intros f Hf. apply mem_written, HV, Hf.
  - split; [reflexivity | exact HV].
Qed.

Lemma defines_for_iDim (body : nat -> M su2double unit) W W1 (n : nat) :
  (forall i, defines W (body i) W1) ->
  forall first, defines W (for_iDim first n body) W.
Proof.
  intros Hb. induction n; intros first; cbn [for_iDim].
  - apply defines_ret.
  - intros V s HV. rewrite trace_bind, reads_defined_app, written_app.
    destruct (Hb first V s HV) as (Hr & _).
    assert (HV' : forall f, mem f W = true ->
                    mem f (written V (trace (body first) s)) = true).
    { intros f Hf. apply mem_written, HV, Hf. }
    destruct (IHn (Datatypes.S first) _ (final (body first) s) HV')
      as (Hr' & Hw').
    rewrite Hr, Hr'. split; [reflexivity | exact Hw'].
Qed.

Lemma defines_weaken {A : Type} (c : M su2double A) W W1 W2 :
  defines W c W1 -> (forall f, mem f W2 = true -> mem f W1 = true) ->
  defines W c W2.
Proof.
  intros Hc Hw V s HV. destruct (Hc V s HV) as (Hr & Hw').
  split; [exact Hr | intros f Hf; apply Hw', Hw, Hf].
Qed.

Ltac defines_solve :=
  lazymatch goal with
  | |- defines _ (bind _ _) _ =>
      eapply defines_bind; [defines_solve | intros ?; defines_solve]
  | |- defines _ (rd _) _ => apply defines_rd; reflexivity
  | |- defines _ (wr _ _) _ => apply defines_wr
  | |- defines _ (cst _) _ => apply defines_cst
  | |- defines _ (mrd _) _ => apply defines_mrd
  | |- defines _ (mwr _) _ => apply defines_mwr
  | |- defines _ (ret _) _ => apply defines_ret
  | |- defines _ (when _ _) _ => eapply defines_when; defines_solve
  | |- defines _ (for_iDim _ _ _) _ =>
      eapply defines_for_iDim; intros ?; defines_solve
  | |- defines _ (if _ then _ else _) _ =>
      match goal with |- defines _ (if ?c then _ else _) _ => destruct c end;
      defines_solve
  end.

Ltac defines_block :=
  eapply defines_weaken;
  [ cbv beta zeta; defines_solve
  | let E := fresh "E" in
    intros [] E; cbn in E; first [reflexivity | discriminate E] ].

Lemma defines_read_primitives b : defines [] (read_primitives b) [].
Proof. unfold read_primitives. defines_block. Qed.

Lemma defines_reset_accumulators : defines [] reset_accumulators [].
Proof. unfold reset_accumulators. defines_block. Qed.

Lemma defines_Omega_class_get sel b :
  defines [] (Omega_class_get sel b) after_Omega.
Proof.
  unfold Omega_class_get, Omega_Bsl.get, Omega_Edw.get.
  destruct (Omega_class sel); defines_block.
Qed.

Lemma defines_rotational_correction b :
  defines after_Omega (rotational_correction b) after_Omega.
Proof. unfold rotational_correction. defines_block. Qed.

Lemma defines_viscous_functions b :
  defines after_Omega (viscous_functions b) after_viscous_functions.
Proof. unfold viscous_functions. defines_block. Qed.

Lemma defines_ft2_class_get sel b :
  defines after_viscous_functions (ft2_class_get sel b) after_ft2.
Proof.
  unfold ft2_class_get, ft2_Bsl.get, ft2_nonzero.get.
  destruct (ft2_class sel); defines_block.
Qed.

Lemma defines_ModVort_class_get sel b :
  (ModVort_class sel = Variant.ModVort_Neg -> (ScalarVar_i b >? lit 0.0) = true) ->
  defines after_ft2 (ModVort_class_get sel b) after_ModVort.
Proof.
  intros HNeg.
  unfold ModVort_class_get, ModVort_Neg.get, ModVort_Bsl.get, ModVort_Edw.get.
  destruct (ModVort_class sel); [| | rewrite (HNeg eq_refl)]; defines_block.
Qed.

Lemma defines_invert_Shat : defines after_ModVort invert_Shat after_invert_Shat.
Proof. unfold invert_Shat. defines_block. Qed.

Lemma defines_r_class_get sel b :
  defines after_invert_Shat (r_class_get sel b) after_r.
Proof.
  unfold r_class_get, r_Bsl.get, r_Edw.get.
  destruct (r_class sel); defines_block.
Qed.

Lemma defines_wall_damping : defines after_r wall_damping after_wall_damping.
Proof. unfold wall_damping. defines_block. Qed.

Lemma defines_gradient_norm b :
  defines after_wall_damping (gradient_norm b) after_gradient_norm.
Proof. unfold gradient_norm. defines_block. Qed.

Lemma defines_SourceTerms_class_get sel b :
  defines after_gradient_norm (SourceTerms_class_get sel b) after_gradient_norm.
Proof.
  unfold SourceTerms_class_get, SourceTerms_Neg.get, SourceTerms_Bsl.get,
    SourceTerms_Neg.ComputeProduction, SourceTerms_Neg.ComputeDestruction,
    SourceTerms_Neg.ComputeCrossProduction,
    SourceTerms_Bsl.ComputeProduction, SourceTerms_Bsl.ComputeDestruction,
    SourceTerms_Bsl.ComputeCrossProduction.
  destruct (SourceTerms_class sel); defines_block.
Qed.

Lemma defines_scale_by_Volume b :
  defines after_gradient_norm (scale_by_Volume b) after_gradient_norm.
Proof. unfold scale_by_Volume. defines_block. Qed.

Lemma defines_away_from_wall sel b :
  (ModVort_class sel = Variant.ModVort_Neg -> (ScalarVar_i b >? lit 0.0) = true) ->
  defines after_Omega (away_from_wall sel b) after_gradient_norm.
Proof.
  intros HNeg. unfold away_from_wall, source_terms.
  eapply defines_bind; [| intros _; apply defines_scale_by_Volume].
  eapply defines_bind; [apply defines_viscous_functions | intros _].
  eapply defines_bind; [apply defines_ft2_class_get | intros _].
  eapply defines_bind; [apply defines_ModVort_class_get, HNeg | intros _].
  eapply defines_bind; [apply defines_invert_Shat | intros _].
  eapply defines_bind; [apply defines_r_class_get | intros _].
  eapply defines_bind; [apply defines_wall_damping | intros _].
  eapply defines_bind; [apply defines_gradient_norm | intros _].
  apply defines_SourceTerms_class_get.
Qed.

(** Unless the modified vorticity is the negative variant and the turbulence
    scalar is not positive, no member of the scratch struct is read before it
    has been written; and on a call that passes the wall-distance guard every
    member is written at least once. *)
Lemma reads_follow_writes (sel : TemplateArgs) (b : Base su2double)
    (s : State su2double) :
  (ModVort_class sel = Variant.ModVort_Neg -> (ScalarVar_i b >? lit 0.0) = true) ->
  let es := trace (ComputeResidual sel b) s in
  reads_defined [] es = true /\
  ((dist_i b >? lit 1e-10) = true ->
   forall f : Field.t, (1 <= count_writes f es)%nat).
Proof.
  intros HNeg es.
  assert (HW : exists W' : list Field.t,
             defines [] (ComputeResidual sel b) W' /\
             ((dist_i b >? lit 1e-10) = true -> forall f, mem f W' = true)).
  { unfold ComputeResidual. destruct (dist_i b >? lit 1e-10); cbn [when].
    - exists after_gradient_norm. split; [| intros _ []; reflexivity].
      eapply defines_bind; [apply defines_read_primitives | intros _].
      eapply defines_bind; [apply defines_reset_accumulators | intros _].
      eapply defines_bind; [apply defines_Omega_class_get | intros _].
      eapply defines_bind; [apply defines_rotational_correction | intros _].
      apply defines_away_from_wall, HNeg.
    - exists after_Omega. split; [| discriminate].
      eapply defines_bind; [apply defines_read_primitives | intros _].
      eapply defines_bind; [apply defines_reset_accumulators | intros _].
      eapply defines_bind; [apply defines_Omega_class_get | intros _].
      eapply defines_bind; [apply defines_rotational_correction | intros _].
      apply defines_ret. }
  destruct HW as (W' & HW & Hall).
  destruct (HW [] s (fun f Hf => Hf)) as (Hr & Hw).
  split; [exact Hr |].
  intros G f.
  destruct (mem_written_count f es [] (Hw f (Hall G f))) as [E | E];
    [discriminate E | exact E].
Qed.

(** ** How often each member is written *)


Lemma writes_read_primitives b s f :
  count_writes f (trace (read_primitives b) s) = 0%nat.
Proof. reflexivity. Qed.

Lemma writes_reset_accumulators s f :
  count_writes f (trace reset_accumulators s) = 0%nat.
Proof. reflexivity. Qed.

Lemma writes_Omega_class_get sel b s f :
  count_writes f (trace (Omega_class_get sel b) s)
  = if Field.eqb f Field.Omega then 1%nat else 0%nat.
Proof.
  unfold Omega_class_get. destruct (Omega_class sel), f; reflexivity.
Qed.

Lemma writes_rotational_correction b s f :
  count_writes f (trace (rotational_correction b) s)
  = if Field.eqb f Field.Omega
    then if rotating_frame b then 1%nat else 0%nat
    else 0%nat.
Proof.
  unfold rotational_correction. rewrite trace_when.
  destruct (rotating_frame b), f; reflexivity.
Qed.

Lemma writes_viscous_functions b s f :
  count_writes f (trace (viscous_functions b) s)
  = if mem f [Field.S; Field.dist_i_2; Field.inv_k2_d2; Field.Ji; Field.d_Ji;
              Field.fv1; Field.d_fv1; Field.fv2; Field.d_fv2]
    then 1%nat else 0%nat.
Proof. destruct f; reflexivity. Qed.

Lemma writes_ft2_class_get sel b s f :
  count_writes f (trace (ft2_class_get sel b) s)
  = if mem f [Field.ft2; Field.d_ft2] then 1%nat else 0%nat.
Proof.
  unfold ft2_class_get. destruct (ft2_class sel), f; reflexivity.
Qed.

Lemma writes_ModVort_class_get sel b s f :
  count_writes f (trace (ModVort_class_get sel b) s)
  = if Field.eqb f Field.Shat
    then if writes_Shat sel b then 2%nat else 0%nat
    else if Field.eqb f Field.d_Shat
         then if writes_Shat sel b then 1%nat else 0%nat
         else 0%nat.
Proof.
  unfold ModVort_class_get, writes_Shat, ModVort_Neg.get.
  destruct (ModVort_class sel); try (destruct f; reflexivity).
  destruct (ScalarVar_i b >? lit 0.0); destruct f; reflexivity.
Qed.

Lemma writes_invert_Shat s f :
  count_writes f (trace invert_Shat s)
  = if Field.eqb f Field.inv_Shat then 1%nat else 0%nat.
Proof. destruct f; reflexivity. Qed.

Lemma writes_wall_damping s f :
  count_writes f (trace wall_damping s)
  = if mem f [Field.g; Field.g_6; Field.glim; Field.fw; Field.d_g; Field.d_fw]
    then 1%nat else 0%nat.
Proof. destruct f; reflexivity. Qed.

Lemma writes_for_iDim (body : nat -> M su2double unit) (g : Field.t) f :
  (forall i s, count_writes f (trace (body i) s)
               = if Field.eqb f g then 1%nat else 0%nat) ->
  forall n first s,
    count_writes f (trace (for_iDim first n body) s)
    = if Field.eqb f g then n else 0%nat.
Proof.
  intros Hb. induction n; intros first s; cbn [for_iDim].
  - destruct (Field.eqb f g); reflexivity.
  - rewrite trace_bind, count_writes_app, Hb, IHn.
    destruct (Field.eqb f g); reflexivity.
Qed.

Lemma writes_gradient_norm b s f :
  count_writes f (trace (gradient_norm b) s)
  = if Field.eqb f Field.norm2_Grad then Datatypes.S (nDim b) else 0%nat.
Proof.
  unfold gradient_norm. rewrite trace_bind, count_writes_app.
  rewrite (writes_for_iDim _ Field.norm2_Grad f).
  - destruct f; reflexivity.
  - intros i s'. destruct f; reflexivity.
Qed.

Lemma writes_SourceTerms_class_get sel b s f :
  count_writes f (trace (SourceTerms_class_get sel b) s) = 0%nat.
Proof.
  unfold SourceTerms_class_get, SourceTerms_Neg.get.
  destruct (SourceTerms_class sel); [reflexivity |].
  destruct (ScalarVar_i b >? lit 0.0); reflexivity.
Qed.

Lemma writes_scale_by_Volume b s f :
  count_writes f (trace (scale_by_Volume b) s) = 0%nat.
Proof. reflexivity. Qed.

Lemma writes_r_class_get sel b s f :
  count_writes f (trace (r_class_get sel b) s)
  = if Field.eqb f Field.r
    then match r_class sel with
         | Variant.r_Bsl => 1%nat
         | Variant.r_Edw => 2%nat
         end
    else if Field.eqb f Field.d_r
         then match r_class sel with
              | Variant.r_Bsl =>
                  if CommonVariables.r
                       (model_var (final (r_class_get sel b) s)) ==? lit 10.0
                  then 2%nat else 1%nat
              | Variant.r_Edw => 2%nat
              end
         else 0%nat.
Proof.
  unfold r_class_get. destruct (r_class sel); [| destruct f; reflexivity].
  unfold r_Bsl.get. rewrite !trace_bind, !final_bind, trace_when, final_when.
  match goal with
  | |- context [if ?c then trace _ _ else _] => destruct c eqn:E
  end.
  - destruct f; try reflexivity.
    match goal with
    | |- context [if ?d then 2%nat else 1%nat] =>
        replace d with true by (symmetry; exact E)
    end.
    reflexivity.
  - destruct f; try reflexivity.
    match goal with
    | |- context [if ?d then 2%nat else 1%nat] =>
        replace d with false by (symmetry; exact E)
    end.
    reflexivity.
Qed.

(** The steps after the damping function leave [r] alone. *)
Lemma r_after_wall_damping s :
  CommonVariables.r (model_var (final wall_damping s))
  = CommonVariables.r (model_var s).
Proof. reflexivity. Qed.

Lemma r_after_for_iDim (body : nat -> M su2double unit) :
  (forall i s, CommonVariables.r (model_var (final (body i) s))
               = CommonVariables.r (model_var s)) ->
  forall n first s,
    CommonVariables.r (model_var (final (for_iDim first n body) s))
    = CommonVariables.r (model_var s).
Proof.
  intros Hb. induction n; intros first s; cbn [for_iDim]; [reflexivity |].
  rewrite final_bind, IHn. apply Hb.
Qed.

Lemma r_after_gradient_norm b s :
  CommonVariables.r (model_var (final (gradient_norm b) s))
  = CommonVariables.r (model_var s).
Proof.
  unfold gradient_norm. rewrite final_bind, r_after_for_iDim; [reflexivity |].
  intros i s'. reflexivity.
Qed.

Lemma r_after_SourceTerms_class_get sel b s :
  CommonVariables.r (model_var (final (SourceTerms_class_get sel b) s))
  = CommonVariables.r (model_var s).
Proof.
  unfold SourceTerms_class_get, SourceTerms_Neg.get.
  destruct (SourceTerms_class sel); [reflexivity |].
  destruct (ScalarVar_i b >? lit 0.0); reflexivity.
Qed.

Lemma r_after_scale_by_Volume b s :
  CommonVariables.r (model_var (final (scale_by_Volume b) s))
  = CommonVariables.r (model_var s).
Proof. reflexivity. Qed.

(** *** Reads when [Shat] and [d_Shat] are taken as set beforehand *)

Lemma mem_app (f : Field.t) (U W : list Field.t) :
  mem f (U ++ W) = mem f U || mem f W.
Proof. apply existsb_app. Qed.

Lemma defines_frame {A : Type} (U : list Field.t) (c : M su2double A) W W' :
  defines W c W' -> defines (U ++ W) c (U ++ W').
Proof.
  intros Hc V s HV.
  assert (HW : forall f, mem f W = true -> mem f V = true).
  { intros f Hf. apply HV. rewrite mem_app, Hf. apply orb_true_r. }
  destruct (Hc V s HW) as (Hr & Hw). split; [exact Hr |].
  intros f Hf. rewrite mem_app in Hf. apply orb_true_iff in Hf.
  destruct Hf as [Hf | Hf]; [| apply Hw, Hf].
  apply mem_written, HV. rewrite mem_app, Hf. reflexivity.
Qed.

Lemma defines_ModVort_class_get_preset sel b :
  defines ([Field.Shat; Field.d_Shat] ++ after_ft2) (ModVort_class_get sel b)
    ([Field.Shat; Field.d_Shat] ++ after_ModVort).
Proof.
  unfold ModVort_class_get, ModVort_Neg.get, ModVort_Bsl.get, ModVort_Edw.get.
  destruct (ModVort_class sel); [defines_block | defines_block |].
  destruct (ScalarVar_i b >? lit 0.0); defines_block.
Qed.

Lemma defines_away_from_wall_preset sel b :
  defines ([Field.Shat; Field.d_Shat] ++ after_Omega) (away_from_wall sel b)
    ([Field.Shat; Field.d_Shat] ++ after_gradient_norm).
Proof.
  unfold away_from_wall, source_terms.
  eapply defines_bind;
    [| intros _; apply defines_frame, defines_scale_by_Volume].
  eapply defines_bind;
    [apply defines_frame, defines_viscous_functions | intros _].
  eapply defines_bind; [apply defines_frame, defines_ft2_class_get | intros _].
  eapply defines_bind; [apply defines_ModVort_class_get_preset | intros _].
  eapply defines_bind; [apply defines_frame, defines_invert_Shat | intros _].
  eapply defines_bind; [apply defines_frame, defines_r_class_get | intros _].
  eapply defines_bind; [apply defines_frame, defines_wall_damping | intros _].
  eapply defines_bind; [apply defines_frame, defines_gradient_norm | intros _].
  apply defines_frame, defines_SourceTerms_class_get.
Qed.

(** Whatever the strategies and the inputs, a call reads no member before it
    has been written, [Shat] and [d_Shat] apart. *)
Lemma reads_with_Shat_preset sel b s :
  reads_defined [Field.Shat; Field.d_Shat] (trace (ComputeResidual sel b) s)
  = true.
Proof.
  assert (HW : exists W' : list Field.t,
             defines ([Field.Shat; Field.d_Shat] ++ [])
               (ComputeResidual sel b) W').
  { unfold ComputeResidual.
    eexists.
    eapply defines_bind;
      [apply defines_frame, defines_read_primitives | intros _].
    eapply defines_bind;
      [apply defines_frame, defines_reset_accumulators | intros _].
    eapply defines_bind;
      [apply defines_frame, defines_Omega_class_get | intros _].
    eapply defines_bind;
      [apply defines_frame, defines_rotational_correction | intros _].
    eapply defines_when. apply defines_away_from_wall_preset. }
  destruct HW as (W' & HW).
  exact (proj1 (HW [Field.Shat; Field.d_Shat] s (fun f Hf => Hf))).
Qed.

(** *** The number of writes of each member in a call *)

Lemma r_at_the_end sel b s :
  (dist_i b >? lit 1e-10) = true ->
  exists s0 : State su2double,
    CommonVariables.r (model_var (final (ComputeResidual sel b) s))
    = CommonVariables.r (model_var (final (r_class_get sel b) s0)) /\
    forall f,
      count_writes f (trace (ComputeResidual sel b) s)
      = ((if Field.eqb f Field.Omega then 1 else 0)
         + (if Field.eqb f Field.Omega
            then if rotating_frame b then 1 else 0 else 0)
         + (if mem f [Field.S; Field.dist_i_2; Field.inv_k2_d2; Field.Ji;
                      Field.d_Ji; Field.fv1; Field.d_fv1; Field.fv2;
                      Field.d_fv2] then 1 else 0)
         + (if mem f [Field.ft2; Field.d_ft2] then 1 else 0)
         + (if Field.eqb f Field.Shat
            then if writes_Shat sel b then 2 else 0
            else if Field.eqb f Field.d_Shat
                 then if writes_Shat sel b then 1 else 0 else 0)
         + (if Field.eqb f Field.inv_Shat then 1 else 0)
         + count_writes f (trace (r_class_get sel b) s0)
         + (if mem f [Field.g; Field.g_6; Field.glim; Field.fw; Field.d_g;
                      Field.d_fw] then 1 else 0)
         + (if Field.eqb f Field.norm2_Grad then Datatypes.S (nDim b) else 0)
        )%nat.
Proof.
  intros G. eexists. split.
  - unfold ComputeResidual, away_from_wall, source_terms.
    rewrite !final_bind, final_when, G, !final_bind.
    rewrite r_after_scale_by_Volume, r_after_SourceTerms_class_get,
      r_after_gradient_norm, r_after_wall_damping.
    reflexivity.
  - intros f. unfold ComputeResidual, away_from_wall, source_terms.
    rewrite !trace_bind, trace_when, G, !trace_bind, !count_writes_app.
    rewrite writes_read_primitives, writes_reset_accumulators,
      writes_Omega_class_get, writes_rotational_correction,
      writes_viscous_functions, writes_ft2_class_get,
      writes_ModVort_class_get, writes_invert_Shat, writes_wall_damping,
      writes_gradient_norm, writes_SourceTerms_class_get,
      writes_scale_by_Volume.
    rewrite !Nat.add_0_r, !Nat.add_assoc. reflexivity.
Qed.

Lemma writes_on_the_wall sel b s f :
  (dist_i b >? lit 1e-10) = false ->
  count_writes f (trace (ComputeResidual sel b) s)
  = if Field.eqb f Field.Omega
    then if rotating_frame b then 2%nat else 1%nat
    else 0%nat.
Proof.
  intros G. unfold ComputeResidual.
  rewrite !trace_bind, trace_when, G, !count_writes_app.
  rewrite writes_read_primitives, writes_reset_accumulators,
    writes_Omega_class_get, writes_rotational_correction.
  destruct f, (rotating_frame b); reflexivity.
Qed.

(** The writes of a call that passes the guard, member by member. *)
Lemma writes_past_the_guard (sel : TemplateArgs) (b : Base su2double)
    (s : State su2double) :
  (dist_i b >? lit 1e-10) = true ->
  let es := trace (ComputeResidual sel b) s in
  let r := CommonVariables.r (model_var (final (ComputeResidual sel b) s)) in
  (forall f : Field.t,
     mem f [Field.Omega; Field.Shat; Field.d_Shat; Field.r; Field.d_r;
            Field.norm2_Grad] = false ->
     count_writes f es = 1%nat) /\
  count_writes Field.Omega es = (if rotating_frame b then 2%nat else 1%nat) /\
  count_writes Field.Shat es = (if writes_Shat sel b then 2%nat else 0%nat) /\
  count_writes Field.d_Shat es
  = (if writes_Shat sel b then 1%nat else 0%nat) /\
  count_writes Field.r es
  = match r_class sel with
    | Variant.r_Bsl => 1%nat
    | Variant.r_Edw => 2%nat
    end /\
  count_writes Field.d_r es
  = match r_class sel with
    | Variant.r_Bsl => if r ==? lit 10.0 then 2%nat else 1%nat
    | Variant.r_Edw => 2%nat
    end /\
  count_writes Field.norm2_Grad es = Datatypes.S (nDim b).
Proof.
  intros G es r.
  destruct (r_at_the_end sel b s G) as (s0 & Er & Hc).
  subst es r. rewrite Er.
  repeat apply conj.
  - intros f Hf. rewrite Hc, writes_r_class_get.
    destruct f; try discriminate Hf; reflexivity.
  - rewrite Hc, writes_r_class_get.
    destruct (rotating_frame b); reflexivity.
  - rewrite Hc, writes_r_class_get.
    destruct (writes_Shat sel b); reflexivity.
  - rewrite Hc, writes_r_class_get.
    destruct (writes_Shat sel b); reflexivity.
  - rewrite Hc, writes_r_class_get.
    destruct (r_class sel); reflexivity.
  - rewrite Hc, writes_r_class_get.
    destruct (r_class sel); [| reflexivity].
    destruct (_ ==? _); reflexivity.
  - rewrite Hc, writes_r_class_get. cbn. lia.
Qed.

(** On a call that fails the guard every read follows a write. *)
Lemma reads_on_the_wall (sel : TemplateArgs) (b : Base su2double)
    (s : State su2double) :
  (dist_i b >? lit 1e-10) = false ->
  reads_defined [] (trace (ComputeResidual sel b) s) = true.
Proof.
  intros G.
  assert (HW : defines [] (ComputeResidual sel b) after_Omega).
  { unfold ComputeResidual. rewrite G. cbn [when].
    eapply defines_bind; [apply defines_read_primitives | intros _].
    eapply defines_bind; [apply defines_reset_accumulators | intros _].
    eapply defines_bind; [apply defines_Omega_class_get | intros _].
    eapply defines_bind; [apply defines_rotational_correction | intros _].
    apply defines_ret. }
  exact (proj1 (HW [] s (fun f Hf => Hf))).
Qed.
End Defines.

(** ** Where the discipline "written once, before any read" breaks *)

Section UndefinedReads.

Lemma fails_here (f : Field.t) (es : list event) : fails_without f (Rd f :: es).
Proof. intros W HW. cbn. now rewrite HW. Qed.

Lemma fails_prefix (f : Field.t) (es es' : list event) :
  fails_without f es -> fails_without f (es ++ es').
Proof. intros Hes W HW. now rewrite reads_defined_app, (Hes W HW). Qed.

Lemma fails_skip (f : Field.t) (pre rest : list event) :
  count_writes f pre = 0%nat -> fails_without f rest ->
  fails_without f (pre ++ rest).
Proof.
  intros Hc Hrest W HW. rewrite reads_defined_app.
  rewrite (Hrest (written W pre)); [apply andb_false_r |].
  destruct (mem f (written W pre)) eqn:E; [| reflexivity].
  apply mem_written_count in E. destruct E as [E | E]; [congruence | lia].
Qed.
End UndefinedReads.

Section Breaks.
Context {su2double : Type} `{ArithOrder su2double}.
Local Open Scope su2_scope.

Lemma no_Shat_write_up_to_ft2 (sel : TemplateArgs) (b : Base su2double) s :
  count_writes Field.Shat (trace (read_primitives b) s) = 0%nat /\
  count_writes Field.Shat (trace reset_accumulators s) = 0%nat /\
  count_writes Field.Shat (trace (Omega_class_get sel b) s) = 0%nat /\
  count_writes Field.Shat (trace (rotational_correction b) s) = 0%nat /\
  count_writes Field.Shat (trace (viscous_functions b) s) = 0%nat /\
  count_writes Field.Shat (trace (ft2_class_get sel b) s) = 0%nat.
Proof.
  repeat apply conj.
  - reflexivity.
  - reflexivity.
  - unfold Omega_class_get. destruct (Omega_class sel); reflexivity.
  - unfold rotational_correction. destruct (rotating_frame b); reflexivity.
  - reflexivity.
  - unfold ft2_class_get. destruct (ft2_class sel); reflexivity.
Qed.

(** With the negative modified vorticity and a turbulence scalar that is
    not positive, a call that passes the guard reads [Shat] although nothing
    has written it. *)
Lemma Neg_reads_Shat_unwritten (sel : TemplateArgs) (b : Base su2double) s :
  ModVort_class sel = Variant.ModVort_Neg ->
  (ScalarVar_i b >? lit 0.0) = false ->
  (dist_i b >? lit 1e-10) = true ->
  reads_defined [] (trace (ComputeResidual sel b) s) = false.
Proof.
  intros HM Hn G.
  assert (F : fails_without Field.Shat (trace (ComputeResidual sel b) s)).
  { unfold ComputeResidual. rewrite !trace_bind, trace_when, G.
    unfold away_from_wall, source_terms. rewrite !trace_bind.
    unfold ModVort_class_get at 1. rewrite HM.
    unfold ModVort_Neg.get at 1. rewrite Hn.
    repeat (apply fails_skip;
            [apply (no_Shat_write_up_to_ft2 sel b) |]).
    apply fails_prefix.
    apply fails_skip; [apply (no_Shat_write_up_to_ft2 sel b) |].
    apply fails_skip; [apply (no_Shat_write_up_to_ft2 sel b) |].
    apply fails_skip; [reflexivity |].
    apply fails_prefix.
    exact (fails_here Field.Shat [Wr Field.inv_Shat]). }
  apply F. reflexivity.
Qed.

(** With the baseline modified vorticity, a call that passes the guard
    writes [Shat] twice: the sum, then the sum floored at 1e-10. *)
Lemma Bsl_writes_Shat_twice (sel : TemplateArgs) (b : Base su2double) s :
  ModVort_class sel = Variant.ModVort_Bsl ->
  (dist_i b >? lit 1e-10) = true ->
  (2 <= count_writes Field.Shat (trace (ComputeResidual sel b) s))%nat.
Proof.
  intros HM G.
  unfold ComputeResidual. rewrite !trace_bind, trace_when, G.
  unfold away_from_wall, source_terms. rewrite !trace_bind.
  unfold ModVort_class_get at 1. rewrite HM.
  rewrite !count_writes_app.
  match goal with
  | |- context [count_writes Field.Shat (trace (ModVort_Bsl.get b) ?s0)] =>
      change (count_writes Field.Shat (trace (ModVort_Bsl.get b) s0)) with 2%nat
  end.
  lia.
Qed.

End Breaks.

Section RealCounterexamples.
Local Open Scope R_scope.

Lemma sample_passes_guard (nue : R) :
  Rltb (lit 1e-10) (dist_i (sample_Base nue)) = true.
Proof. apply Rltb_true. rewrite lit_1e_10. cbn. lra. Qed.

Lemma rotating_passes_guard (nue : R) :
  Rltb (lit 1e-10) (dist_i (rotating_Base nue)) = true.
Proof. apply Rltb_true. rewrite lit_1e_10. cbn. lra. Qed.


(** C3 fails as stated at the scalar 0, which is non-negative: the negative
    modified vorticity leaves [Shat] as it found it (0) where the baseline
    one writes 1, and the negative source assembly leaves another Jacobian
    behind than the baseline one. *)
Lemma C3_counterexample_zero_scalar :
  let b := sample_Base 0 in
  Rleb 0 (ScalarVar_i b) = true /\
  CommonVariables.Shat (model_var (final (ModVort_Neg.get b) sheared_State))
  <> CommonVariables.Shat (model_var (final (ModVort_Bsl.get b) sheared_State))
  /\
  Jacobian_i (members (final (SourceTerms_Neg.get b) assembly_State))
  <> Jacobian_i (members (final (SourceTerms_Bsl.get b) assembly_State)).
Proof.
  cbv zeta.
  assert (Hn : Rltb (lit 0.0) (ScalarVar_i (sample_Base 0)) = false).
  { apply Rltb_false. rewrite lit_0. cbn. lra. }
  split; [apply Rleb_true; cbn; lra |]. split.
  - unfold ModVort_Neg.get. cbn [flt Arith_R]. rewrite Hn.
    unfold ModVort_Bsl.get. rewrite !final_bind.
    cbn -[lit fmax Rmult Rplus]. rewrite fmax_R.
    match goal with
    | |- _ <> Rmax ?x ?y => pose proof (Rmax_l x y)
    end.
    apply Rlt_not_eq. lra.
  - unfold SourceTerms_Neg.get. cbn [flt Arith_R]. rewrite Hn.
    unfold SourceTerms_Bsl.get, SourceTerms_Neg.ComputeProduction,
      SourceTerms_Neg.ComputeDestruction,
      SourceTerms_Neg.ComputeCrossProduction,
      SourceTerms_Bsl.ComputeProduction, SourceTerms_Bsl.ComputeDestruction,
      SourceTerms_Bsl.ComputeCrossProduction.
    rewrite !final_bind.
    cbn -[lit Rmult Rplus Rminus Rdiv Ropp].
    rewrite lit_1, lit_2. apply Rlt_not_eq. lra.
Qed.
End RealCounterexamples.

(** ** The theorems at sample inputs *)

Section Witnesses.
Local Open Scope su2_scope.

Lemma sample_scalar_positive :
  (ScalarVar_i (sample_Base 0.1) >? lit 0.0) = true.
Proof. apply Rltb_true. rewrite lit_0. cbn. lra. Qed.

Lemma sample_scalar_negative :
  (ScalarVar_i (sample_Base (-0.1)) <? lit 0.0) = true.
Proof. apply Rltb_true. rewrite lit_0. cbn. lra. Qed.

Lemma sample_scalar_nonpositive :
  (ScalarVar_i (sample_Base (-0.1)) <=? lit 0.0) = true.
Proof. apply Rleb_true. rewrite lit_0. cbn. lra. Qed.

Lemma wall_Base_on_the_wall : (dist_i wall_Base <=? lit 1e-10) = true.
Proof. apply Rleb_true. rewrite lit_1e_10. cbn. lra. Qed.

Lemma C1_wall_guard_witness :
  (dist_i wall_Base <=? lit 1e-10) = true /\
  evaluate SA_Edw wall_Base (sample_State 0) = (lit 0.0, lit 0.0).
Proof.
  split.
  - exact wall_Base_on_the_wall.
  - exact (proj1 (C1_wall_guard SA_Edw wall_Base (sample_State 0)
                    wall_Base_on_the_wall)).
Defined.

Lemma C3_negative_delegates_when_positive_witness :
  (ScalarVar_i (sample_Base 0.1) >? lit 0.0) = true /\
  ModVort_Neg.get (sample_Base 0.1) sheared_State
  = ModVort_Bsl.get (sample_Base 0.1) sheared_State /\
  SourceTerms_Neg.get (sample_Base 0.1) sheared_State
  = SourceTerms_Bsl.get (sample_Base 0.1) sheared_State.
Proof.
  split.
  - exact sample_scalar_positive.
  - exact (C3_negative_delegates_when_positive (sample_Base 0.1)
             sheared_State sample_scalar_positive).
Defined.


Lemma C5_negative_source_terms_witness :
  (ScalarVar_i (sample_Base (-0.1)) <? lit 0.0) = true /\
  Production
    (members (final (SourceTerms_Neg.get (sample_Base (-0.1))) assembly_State))
  = CommonVariables.cb1 (model_var assembly_State)
    * (lit 1.0 - CommonVariables.ct3 (model_var assembly_State))
    * CommonVariables.S (model_var assembly_State)
    * ScalarVar_i (sample_Base (-0.1)).
Proof.
  split.
  - exact sample_scalar_negative.
  - exact (proj1 (C5_negative_source_terms (sample_Base (-0.1)) assembly_State
                    sample_scalar_negative)).
Defined.

Lemma C9_unset_Shat_is_not_observed_witness :
  (ScalarVar_i (sample_Base (-0.1)) <=? lit 0.0) = true /\
  evaluate SA_Neg (sample_Base (-0.1))
    (mkState
       (CommonVariables.set Field.Shat 1%R
          (CommonVariables.set Field.d_Shat 2%R (model_var (sample_State 0))))
       (members (sample_State 0)))
  = evaluate SA_Neg (sample_Base (-0.1)) (sample_State 0).
Proof.
  split.
  - exact sample_scalar_nonpositive.
  - exact (proj2 (C9_unset_Shat_is_not_observed SA_Neg (sample_Base (-0.1))
                    (sample_State 0) 1%R 2%R eq_refl eq_refl
                    sample_scalar_nonpositive)).
Defined.
End Witnesses.

(** ** IEEE binary64 *)

Section Binary64Facts.
Variable libm_pow : PrimFloat.float -> PrimFloat.float -> PrimFloat.float.
Variables libm_exp libm_tanh : PrimFloat.float -> PrimFloat.float.

Lemma SFcompare_antisym (a b : SpecFloat.spec_float) :
  SpecFloat.SFcompare b a = option_map CompOpp (SpecFloat.SFcompare a b).
Proof.
  destruct a as [sa | sa | | sa ma ea], b as [sb | sb | | sb mb eb];
    cbn; try reflexivity;
    try (destruct sa; reflexivity); try (destruct sb; reflexivity);
    destruct sa, sb; cbn; try reflexivity;
    rewrite (Z.compare_antisym ea eb);
    destruct (ea ?= eb)%Z; cbn; try reflexivity;
    pose proof (Pos.compare_cont_antisym ma mb Eq) as E; cbn in E;
    rewrite <- E; destruct (Pos.compare_cont Eq ma mb); reflexivity.
Qed.

(** Comparisons of doubles satisfy the two order facts, NaN included. *)
Lemma ArithOrder_binary64 :
  @ArithOrder PrimFloat.float (Arith_binary64 libm_pow libm_exp libm_tanh).
Proof.
  split; intros a b; cbn; rewrite ?FloatAxioms.leb_spec, !FloatAxioms.ltb_spec;
    unfold SpecFloat.SFleb, SpecFloat.SFltb;
    rewrite (SFcompare_antisym (FloatOps.Prim2SF a) (FloatOps.Prim2SF b));
    destruct (SpecFloat.SFcompare (FloatOps.Prim2SF a) (FloatOps.Prim2SF b))
      as [[] |]; cbn; congruence.
Qed.
End Binary64Facts.

Section Binary64Runs.
Variable libm_pow : PrimFloat.float -> PrimFloat.float -> PrimFloat.float.
Variables libm_exp libm_tanh : PrimFloat.float -> PrimFloat.float.
Let binary64 := Arith_binary64 libm_pow libm_exp libm_tanh.

(** The baseline vorticity of (0, 0, 5) is 5. *)
Example Omega_Bsl_binary64 :
  CommonVariables.Omega
    (model_var
       (final (Omega_Bsl.get (H := binary64) (binary64_Base (float_of_Q 1)))
          zero_State))
  = float_of_Q 5.
Proof. vm_compute. reflexivity. Qed.

(** On the wall a call returns two zeros, whatever libm computes. *)
Example wall_binary64 :
  evaluate (H := binary64) SA_Edw (binary64_Base (float_of_Q 0)) zero_State
  = (float_of_Q 0, float_of_Q 0).
Proof. vm_compute. reflexivity. Qed.
End Binary64Runs.

(** * Further properties of the code *)


(** Runs straight-line code on a state: reduces the monad, the record
    accesses and the operations of the real instance, and leaves literals,
    [fmin] and [fmax] folded. *)
Ltac run_cbn :=
  cbn [
    CommonVariables.cv1_3 CommonVariables.k2 CommonVariables.cb1
    CommonVariables.cw2 CommonVariables.ct3 CommonVariables.ct4
    CommonVariables.cw3_6 CommonVariables.cb2_sigma CommonVariables.sigma
    CommonVariables.cb2 CommonVariables.cw1 CommonVariables.cr1
    CommonVariables.ft2 CommonVariables.d_ft2 CommonVariables.r
    CommonVariables.d_r CommonVariables.g CommonVariables.d_g
    CommonVariables.glim CommonVariables.fw CommonVariables.d_fw
    CommonVariables.Ji CommonVariables.d_Ji CommonVariables.S
    CommonVariables.Shat CommonVariables.d_Shat CommonVariables.fv1
    CommonVariables.d_fv1 CommonVariables.fv2 CommonVariables.d_fv2
    CommonVariables.Omega CommonVariables.dist_i_2 CommonVariables.inv_k2_d2
    CommonVariables.inv_Shat CommonVariables.g_6 CommonVariables.norm2_Grad
    CommonVariables.get CommonVariables.set CommonVariables.const Field.eqb
    Field.index Nat.eqb roughwall Density_i Laminar_Viscosity_i Residual
    Production Destruction CrossProduction AddSourceTerm Jacobian_i
    set_roughwall set_Density_i set_Laminar_Viscosity_i set_Residual
    set_Production set_Destruction set_CrossProduction set_AddSourceTerm
    set_Jacobian_i model_var members val final trace bind ret rd wr cst mrd
    mwr when fst snd app nDim rotating_frame EPS roughness_i V_i_Density
    V_i_LaminarViscosity dist_i StrainMag_i Volume ScalarVar_i
    ScalarVar_Grad_i Vorticity_i PrimVar_Grad_i_Vel fadd fsub fmul fdiv fneg
    fsqrt fpow fexp ftanh flt fle feq Arith_R
  ].

(** The same after the binds at the head have been split. *)
Ltac run_R := rewrite ?final_bind; run_cbn.

(** Differentiates a function written with the field operations, [exp] and
    functions whose derivative at the point is a hypothesis; the side
    conditions of the quotients are left as goals. *)
Ltac deriv :=
  cbv beta;
  lazymatch goal with
  | |- derivable_pt_lim (fun _ => ?c) ?a _ =>
      exact (derivable_pt_lim_const c a)
  | |- derivable_pt_lim (fun x => x) ?a _ =>
      exact (derivable_pt_lim_id a)
  | |- derivable_pt_lim (fun x => (@?f x + @?g x)%R) ?a _ =>
      refine (derivable_pt_lim_plus f g a _ _ _ _); deriv
  | |- derivable_pt_lim (fun x => (@?f x - @?g x)%R) ?a _ =>
      refine (derivable_pt_lim_minus f g a _ _ _ _); deriv
  | |- derivable_pt_lim (fun x => (@?f x * @?g x)%R) ?a _ =>
      refine (derivable_pt_lim_mult f g a _ _ _ _); deriv
  | |- derivable_pt_lim (fun x => (@?f x / @?g x)%R) ?a _ =>
      refine (derivable_pt_lim_div f g a _ _ _ _ _); [deriv | deriv | cbv beta]
  | |- derivable_pt_lim (fun x => (- @?f x)%R) ?a _ =>
      refine (derivable_pt_lim_opp f a _ _); deriv
  | |- derivable_pt_lim (fun x => exp (@?f x)) ?a _ =>
      refine (derivable_pt_lim_comp f exp a _ _ _
                (derivable_pt_lim_exp (f a))); deriv
  | |- derivable_pt_lim _ _ _ => eassumption
  end.

(** Names the left-hand side, so that rewriting leaves it alone. *)
Ltac hide_lhs L :=
  lazymatch goal with |- ?l = _ => set (L := l) end.

(** Closes [?f z = e] by abstracting [z] in [e]. *)
Ltac ext_refl z :=
  lazymatch goal with
  | |- ?l = ?r => let r' := eval pattern z in r in change (l = r'); reflexivity
  end.


(** ** What a call depends on *)

Section Determined.
Context {su2double : Type} `{ArithOrder su2double}.
Local Open Scope su2_scope.
Local Abbreviation determined := (@determined su2double _).
Local Abbreviation keeps_constants := (@keeps_constants su2double _).

Lemma val_bind {A B : Type} (c : M su2double A) (k : A -> M su2double B) s :
  val (bind c k) s = val (k (val c s)) (final c s).
Proof.
  unfold val, final, bind. destruct (c s) as [[a s'] e]. cbn.
  destruct (k a s') as [[b0 s''] e']. reflexivity.
Qed.

Lemma Field_eqb_sym (f g : Field.t) : Field.eqb f g = Field.eqb g f.
Proof. apply Nat.eqb_sym. Qed.

Lemma determined_ret {A : Type} (a : A) W : determined W (ret a) W.
Proof. intros s1 s2 Hs. split; [reflexivity | exact Hs]. Qed.

Lemma determined_rd (f : Field.t) W :
  mem f W = true -> determined W (rd f) W.
Proof. intros Hf s1 s2 Hs. split; [apply Hs, Hf | exact Hs]. Qed.

Lemma determined_cst (c : Const.t) W : determined W (cst c) W.
Proof. intros s1 s2 Hs. split; [apply Hs | exact Hs]. Qed.

Lemma determined_mrd {A : Type} (p : Members su2double -> A) W :
  determined W (mrd p) W.
Proof.
  intros s1 s2 Hs. split; [| exact Hs].
  unfold val, mrd. cbn. destruct Hs as (-> & _). reflexivity.
Qed.

Lemma determined_mwr (u : Members su2double -> Members su2double) W :
  determined W (mwr u) W.
Proof.
  intros s1 s2 (Hm & Hc & Hf). split; [reflexivity |].
  split; [| split]; cbn; [now rewrite Hm | exact Hc | exact Hf].
Qed.

Lemma determined_wr (f : Field.t) (v : su2double) W :
  determined W (wr f v) (f :: W).
Proof.
  intros s1 s2 (Hm & Hc & Hf). split; [reflexivity |].
  split; [| split]; cbn [final wr fst snd model_var members].
  - exact Hm.
  - intros c. rewrite !const_set. apply Hc.
  - intros g Hg. rewrite !get_set.
    unfold mem in Hg. cbn [existsb] in Hg. rewrite Field_eqb_sym in Hg.
    destruct (Field.eqb f g); [reflexivity | apply Hf, Hg].
Qed.

Lemma determined_bind {A B : Type} (c : M su2double A) (k : A -> M su2double B)
    W W1 W2 :
  determined W c W1 -> (forall a, determined W1 (k a) W2) ->
  determined W (bind c k) W2.
Proof.
  intros Hc Hk s1 s2 Hs. destruct (Hc s1 s2 Hs) as (Hv & Hs').
  rewrite !val_bind, !final_bind, Hv. apply Hk, Hs'.
Qed.

Lemma determined_weaken {A : Type} (c : M su2double A) W W1 W2 :
  determined W c W1 -> (forall f, mem f W2 = true -> mem f W1 = true) ->
  determined W c W2.
Proof.
  intros Hc Hw s1 s2 Hs. destruct (Hc s1 s2 Hs) as (Hv & Hm & Hk & Hf).
  split; [exact Hv |]. split; [exact Hm |]. split; [exact Hk |].
  intros f Hf2. apply Hf, Hw, Hf2.
Qed.

Lemma determined_when (c : bool) (k : M su2double unit) W W1 :
  determined W k W1 -> (forall f, mem f W = true -> mem f W1 = true) ->
  determined W (when c k) W.
Proof.
  intros Hk Hw. destruct c; cbn [when].
  - eapply determined_weaken; [exact Hk | exact Hw].
  - apply determined_ret.
Qed.

Lemma determined_for_iDim (body : nat -> M su2double unit) W (n : nat) :
  (forall i, determined W (body i) W) ->
  forall first, determined W (for_iDim first n body) W.
Proof.
  intros Hb. induction n; intros first; cbn [for_iDim].
  - apply determined_ret.
  - eapply determined_bind; [apply Hb | intros _; apply IHn].
Qed.

Ltac mem_incl :=
  let E := fresh "E" in
  intros [] E; cbn in E; first [reflexivity | discriminate E].

Ltac determined_solve :=
  lazymatch goal with
  | |- determined _ (bind _ _) _ =>
      eapply determined_bind; [determined_solve | intros ?; determined_solve]
  | |- determined _ (rd _) _ => apply determined_rd; reflexivity
  | |- determined _ (wr _ _) _ => apply determined_wr
  | |- determined _ (cst _) _ => apply determined_cst
  | |- determined _ (mrd _) _ => apply determined_mrd
  | |- determined _ (mwr _) _ => apply determined_mwr
  | |- determined _ (ret _) _ => apply determined_ret
  | |- determined _ (when _ _) _ =>
      eapply determined_when; [determined_solve | mem_incl]
  | |- determined _ (for_iDim _ _ _) _ =>
      eapply determined_for_iDim; intros ?;
      eapply determined_weaken; [determined_solve | mem_incl]
  | |- determined _ (if _ then _ else _) _ =>
      match goal with |- determined _ (if ?c then _ else _) _ => destruct c end;
      determined_solve
  end.

Ltac determined_block :=
  eapply determined_weaken; [cbv beta zeta; determined_solve | mem_incl].

Lemma determined_Omega_class_get sel b :
  determined [] (Omega_class_get sel b) after_Omega.
Proof.
  unfold Omega_class_get, Omega_Bsl.get, Omega_Edw.get.
  destruct (Omega_class sel); determined_block.
Qed.

Lemma determined_rotational_correction b :
  determined after_Omega (rotational_correction b) after_Omega.
Proof. unfold rotational_correction. determined_block. Qed.

Lemma determined_viscous_functions b :
  determined after_Omega (viscous_functions b) after_viscous_functions.
Proof. unfold viscous_functions. determined_block. Qed.

Lemma determined_ft2_class_get sel b :
  determined after_viscous_functions (ft2_class_get sel b) after_ft2.
Proof.
  unfold ft2_class_get, ft2_Bsl.get, ft2_nonzero.get.
  destruct (ft2_class sel); determined_block.
Qed.

Lemma determined_ModVort_class_get sel b :
  (ModVort_class sel = Variant.ModVort_Neg -> (ScalarVar_i b >? lit 0.0) = true) ->
  determined after_ft2 (ModVort_class_get sel b) after_ModVort.
Proof.
  intros HNeg.
  unfold ModVort_class_get, ModVort_Neg.get, ModVort_Bsl.get, ModVort_Edw.get.
  destruct (ModVort_class sel); [| | rewrite (HNeg eq_refl)]; determined_block.
Qed.

Lemma determined_invert_Shat :
  determined after_ModVort invert_Shat after_invert_Shat.
Proof. unfold invert_Shat. determined_block. Qed.

Lemma determined_r_class_get sel b :
  determined after_invert_Shat (r_class_get sel b) after_r.
Proof.
  unfold r_class_get, r_Bsl.get, r_Edw.get.
  destruct (r_class sel); determined_block.
Qed.

Lemma determined_wall_damping :
  determined after_r wall_damping after_wall_damping.
Proof. unfold wall_damping. determined_block. Qed.

Lemma determined_gradient_norm b :
  determined after_wall_damping (gradient_norm b) after_gradient_norm.
Proof. unfold gradient_norm. determined_block. Qed.

Lemma determined_SourceTerms_class_get sel b :
  determined after_gradient_norm (SourceTerms_class_get sel b)
    after_gradient_norm.
Proof.
  unfold SourceTerms_class_get, SourceTerms_Neg.get, SourceTerms_Bsl.get,
    SourceTerms_Neg.ComputeProduction, SourceTerms_Neg.ComputeDestruction,
    SourceTerms_Neg.ComputeCrossProduction,
    SourceTerms_Bsl.ComputeProduction, SourceTerms_Bsl.ComputeDestruction,
    SourceTerms_Bsl.ComputeCrossProduction.
  destruct (SourceTerms_class sel); determined_block.
Qed.

Lemma determined_scale_by_Volume b :
  determined after_gradient_norm (scale_by_Volume b) after_gradient_norm.
Proof. unfold scale_by_Volume. determined_block. Qed.

Lemma determined_away_from_wall sel b :
  (ModVort_class sel = Variant.ModVort_Neg -> (ScalarVar_i b >? lit 0.0) = true) ->
  determined after_Omega (away_from_wall sel b) after_gradient_norm.
Proof.
  intros HNeg. unfold away_from_wall, source_terms.
  eapply determined_bind; [| intros _; apply determined_scale_by_Volume].
  eapply determined_bind; [apply determined_viscous_functions | intros _].
  eapply determined_bind; [apply determined_ft2_class_get | intros _].
  eapply determined_bind; [apply determined_ModVort_class_get, HNeg | intros _].
  eapply determined_bind; [apply determined_invert_Shat | intros _].
  eapply determined_bind; [apply determined_r_class_get | intros _].
  eapply determined_bind; [apply determined_wall_damping | intros _].
  eapply determined_bind; [apply determined_gradient_norm | intros _].
  apply determined_SourceTerms_class_get.
Qed.

(** After the primitives are read and the accumulators reset, every member
    of the evaluator holds a value that does not come from the entry state. *)
Lemma members_after_reset (b : Base su2double) (s : State su2double) :
  final reset_accumulators (final (read_primitives b) s)
  = mkState (model_var s)
      (mkMembers (roughness_i b >? lit 0.0) (V_i_Density b)
         (V_i_LaminarViscosity b) (lit 0.0) (lit 0.0) (lit 0.0) (lit 0.0)
         (lit 0.0) (lit 0.0)).
Proof. reflexivity. Qed.

Lemma determined_from_reset sel b :
  (ModVort_class sel = Variant.ModVort_Neg -> (ScalarVar_i b >? lit 0.0) = true) ->
  determined []
    (Omega_class_get sel b ;; rotational_correction b ;;
     when (dist_i b >? lit 1e-10) (away_from_wall sel b)) after_Omega.
Proof.
  intros HNeg.
  eapply determined_bind; [apply determined_Omega_class_get | intros _].
  eapply determined_bind; [apply determined_rotational_correction | intros _].
  eapply determined_when; [apply (determined_away_from_wall sel b HNeg) |].
  mem_incl.
Qed.

Lemma ComputeResidual_determined sel b (s1 s2 : State su2double) :
  (ModVort_class sel = Variant.ModVort_Neg -> (ScalarVar_i b >? lit 0.0) = true) ->
  (forall c : Const.t,
     CommonVariables.const c (model_var s1)
     = CommonVariables.const c (model_var s2)) ->
  agree_on after_Omega (final (ComputeResidual sel b) s1)
    (final (ComputeResidual sel b) s2).
Proof.
  intros HNeg Hc. unfold ComputeResidual.
  rewrite (final_bind (read_primitives b)).
  rewrite (final_bind (read_primitives b) _ s2).
  rewrite (final_bind reset_accumulators).
  rewrite (final_bind reset_accumulators _ (final (read_primitives b) s2)).
  rewrite !members_after_reset.
  apply (determined_from_reset sel b HNeg).
  split; [reflexivity | split; [exact Hc | discriminate]].
Qed.
End Determined.

Section KeepsConstants.
Context {su2double : Type} `{ArithOrder su2double}.
Local Open Scope su2_scope.
Local Abbreviation keeps_constants := (@keeps_constants su2double _).

Lemma keeps_ret {A : Type} (a : A) : keeps_constants (ret a).
Proof. intros s k. reflexivity. Qed.

Lemma keeps_rd (f : Field.t) : keeps_constants (rd f).
Proof. intros s k. reflexivity. Qed.

Lemma keeps_cst (c : Const.t) : keeps_constants (cst c).
Proof. intros s k. reflexivity. Qed.

Lemma keeps_mrd {A : Type} (p : Members su2double -> A) :
  keeps_constants (mrd p).
Proof. intros s k. reflexivity. Qed.

Lemma keeps_mwr (u : Members su2double -> Members su2double) :
  keeps_constants (mwr u).
Proof. intros s k. reflexivity. Qed.

Lemma keeps_wr (f : Field.t) (v : su2double) : keeps_constants (wr f v).
Proof. intros s k. apply const_set. Qed.

Lemma keeps_bind {A B : Type} (c : M su2double A) (k : A -> M su2double B) :
  keeps_constants c -> (forall a, keeps_constants (k a)) ->
  keeps_constants (bind c k).
Proof. intros Hc Hk s q. rewrite final_bind, Hk. apply Hc. Qed.

Lemma keeps_when (c : bool) (k : M su2double unit) :
  keeps_constants k -> keeps_constants (when c k).
Proof. destruct c; [trivial | intros _; apply keeps_ret]. Qed.

Lemma keeps_for_iDim (body : nat -> M su2double unit) (n : nat) :
  (forall i, keeps_constants (body i)) ->
  forall first, keeps_constants (for_iDim first n body).
Proof.
  intros Hb. induction n; intros first; cbn [for_iDim].
  - apply keeps_ret.
  - apply keeps_bind; [apply Hb | intros _; apply IHn].
Qed.

Ltac keeps_solve :=
  lazymatch goal with
  | |- keeps_constants (bind _ _) =>
      apply keeps_bind; [keeps_solve | intros ?; keeps_solve]
  | |- keeps_constants (rd _) => apply keeps_rd
  | |- keeps_constants (wr _ _) => apply keeps_wr
  | |- keeps_constants (cst _) => apply keeps_cst
  | |- keeps_constants (mrd _) => apply keeps_mrd
  | |- keeps_constants (mwr _) => apply keeps_mwr
  | |- keeps_constants (ret _) => apply keeps_ret
  | |- keeps_constants (when _ _) => apply keeps_when; keeps_solve
  | |- keeps_constants (for_iDim _ _ _) =>
      apply keeps_for_iDim; intros ?; keeps_solve
  | |- keeps_constants (if ?c then _ else _) => destruct c; keeps_solve
  end.

Lemma keeps_source_terms sel b : keeps_constants (source_terms sel b).
Proof.
  unfold source_terms, viscous_functions, invert_Shat, wall_damping,
    gradient_norm, ft2_class_get, ModVort_class_get, r_class_get,
    SourceTerms_class_get,
    ft2_Bsl.get, ft2_nonzero.get, ModVort_Neg.get, ModVort_Bsl.get,
    ModVort_Edw.get, r_Bsl.get, r_Edw.get,
    SourceTerms_Neg.get, SourceTerms_Bsl.get,
    SourceTerms_Neg.ComputeProduction, SourceTerms_Neg.ComputeDestruction,
    SourceTerms_Neg.ComputeCrossProduction,
    SourceTerms_Bsl.ComputeProduction, SourceTerms_Bsl.ComputeDestruction,
    SourceTerms_Bsl.ComputeCrossProduction.
  destruct (ft2_class sel), (ModVort_class sel), (r_class sel),
    (SourceTerms_class sel); cbv beta zeta; keeps_solve.
Qed.

Lemma keeps_ComputeResidual sel b : keeps_constants (ComputeResidual sel b).
Proof.
  unfold ComputeResidual, away_from_wall.
  apply keeps_bind; [unfold read_primitives; keeps_solve | intros _].
  apply keeps_bind; [unfold reset_accumulators; keeps_solve | intros _].
  apply keeps_bind;
    [unfold Omega_class_get, Omega_Bsl.get, Omega_Edw.get;
     destruct (Omega_class sel); keeps_solve | intros _].
  apply keeps_bind; [unfold rotational_correction; keeps_solve | intros _].
  apply keeps_when.
  apply keeps_bind; [apply keeps_source_terms | intros _].
  unfold scale_by_Volume. keeps_solve.
Qed.
End KeepsConstants.

Section DependsOn.
Context {su2double : Type} `{ArithOrder su2double}.
Local Open Scope su2_scope.

(** X1: unless the modified vorticity is the negative variant at a scalar
    that is not positive, what a call leaves in the evaluator members, and
    so the pair it returns, depends on the point and on the model constants
    only: not on what the members or the scratch struct held before. *)
Theorem X1_result_independent_of_entry_state (sel : TemplateArgs)
    (b : Base su2double) (s1 s2 : State su2double) :
  (ModVort_class sel = Variant.ModVort_Neg -> (ScalarVar_i b >? lit 0.0) = true) ->
  (forall c : Const.t,
     CommonVariables.const c (model_var s1)
     = CommonVariables.const c (model_var s2)) ->
  members (final (ComputeResidual sel b) s1)
  = members (final (ComputeResidual sel b) s2) /\
  evaluate sel b s1 = evaluate sel b s2.
Proof.
  intros HNeg Hc.
  destruct (ComputeResidual_determined sel b s1 s2 HNeg Hc) as (Hm & _).
  split; [exact Hm |]. unfold evaluate, ResidualType. now rewrite Hm.
Qed.

(** X2: a call never changes a model constant, and (unless the modified
    vorticity is the negative variant at a scalar that is not positive) a
    second call at the same point, started from the state the first one
    left, ends with the same members and returns the same pair. *)
Theorem X2_second_call_repeats_the_first (sel : TemplateArgs)
    (b : Base su2double) (s : State su2double) :
  (ModVort_class sel = Variant.ModVort_Neg -> (ScalarVar_i b >? lit 0.0) = true) ->
  let s' := final (ComputeResidual sel b) s in
  (forall c : Const.t,
     CommonVariables.const c (model_var s') = CommonVariables.const c (model_var s))
  /\ members (final (ComputeResidual sel b) s') = members s'
  /\ evaluate sel b s' = evaluate sel b s.
Proof.
  intros HNeg s'.
  assert (Hk : forall c : Const.t,
             CommonVariables.const c (model_var s')
             = CommonVariables.const c (model_var s)).
  { intros c. apply keeps_ComputeResidual. }
  destruct (ComputeResidual_determined sel b s' s HNeg Hk) as (Hm & _).
  split; [exact Hk |]. split; [exact Hm |].
  unfold evaluate, ResidualType. now rewrite Hm.
Qed.
End DependsOn.

(** ** What each step leaves alone *)

Section Frames.
Context {su2double : Type} `{ArithOrder su2double}.
Local Open Scope su2_scope.
Local Abbreviation touches_only := (@touches_only su2double _).

Lemma touches_ret {A : Type} (a : A) F : touches_only F (ret a).
Proof. intros s. repeat split. Qed.

Lemma touches_rd (f : Field.t) F : touches_only F (rd f).
Proof. intros s. repeat split. Qed.

Lemma touches_cst (c : Const.t) F : touches_only F (cst c).
Proof. intros s. repeat split. Qed.

Lemma touches_mrd {A : Type} (p : Members su2double -> A) F :
  touches_only F (mrd p).
Proof. intros s. repeat split. Qed.

Lemma touches_wr (f : Field.t) (v : su2double) F :
  mem f F = true -> touches_only F (wr f v).
Proof.
  intros Hf s. split; [reflexivity |]. split.
  - intros k. apply const_set.
  - intros g Hg. cbn [final wr fst snd model_var]. rewrite get_set.
    destruct (Field.eqb f g) eqn:E; [| reflexivity].
    apply Nat.eqb_eq in E.
    assert (f = g) by (destruct f, g; cbn in E; congruence).
    subst g. congruence.
Qed.

Lemma touches_bind {A B : Type} (c : M su2double A) (k : A -> M su2double B) F :
  touches_only F c -> (forall a, touches_only F (k a)) ->
  touches_only F (bind c k).
Proof.
  intros Hc Hk s. rewrite final_bind.
  destruct (Hc s) as (Hm & Hq & Hf).
  destruct (Hk (val c s) (final c s)) as (Hm' & Hq' & Hf').
  split; [congruence |]. split.
  - intros q. rewrite Hq'. apply Hq.
  - intros f Hn. rewrite Hf' by exact Hn. apply Hf, Hn.
Qed.

Lemma touches_when (c : bool) (k : M su2double unit) F :
  touches_only F k -> touches_only F (when c k).
Proof. destruct c; [trivial | intros _; apply touches_ret]. Qed.

Ltac touches_solve :=
  lazymatch goal with
  | |- touches_only _ (bind _ _) =>
      apply touches_bind; [touches_solve | intros ?; touches_solve]
  | |- touches_only _ (rd _) => apply touches_rd
  | |- touches_only _ (wr _ _) => apply touches_wr; reflexivity
  | |- touches_only _ (cst _) => apply touches_cst
  | |- touches_only _ (mrd _) => apply touches_mrd
  | |- touches_only _ (ret _) => apply touches_ret
  | |- touches_only _ (when _ _) => apply touches_when; touches_solve
  | |- touches_only _ (if ?c then _ else _) => destruct c; touches_solve
  end.

Lemma touches_for_iDim (body : nat -> M su2double unit) F :
  (forall i, touches_only F (body i)) ->
  forall n first, touches_only F (for_iDim first n body).
Proof.
  intros Hb. induction n; intros first; cbn [for_iDim].
  - apply touches_ret.
  - apply touches_bind; [apply Hb | intros _; apply IHn].
Qed.

Lemma touches_viscous_functions (b : Base su2double) :
  touches_only
    [Field.S; Field.dist_i_2; Field.inv_k2_d2; Field.Ji; Field.d_Ji;
     Field.fv1; Field.d_fv1; Field.fv2; Field.d_fv2]
    (viscous_functions b).
Proof. unfold viscous_functions. cbv beta zeta. touches_solve. Qed.

Lemma touches_ft2_class_get (sel : TemplateArgs) (b : Base su2double) :
  touches_only [Field.ft2; Field.d_ft2] (ft2_class_get sel b).
Proof.
  unfold ft2_class_get, ft2_Bsl.get, ft2_nonzero.get.
  destruct (ft2_class sel); cbv beta zeta; touches_solve.
Qed.

Lemma touches_ModVort_class_get (sel : TemplateArgs) (b : Base su2double) :
  touches_only [Field.Shat; Field.d_Shat] (ModVort_class_get sel b).
Proof.
  unfold ModVort_class_get, ModVort_Neg.get, ModVort_Bsl.get, ModVort_Edw.get.
  destruct (ModVort_class sel); cbv beta zeta; touches_solve.
Qed.

Lemma touches_invert_Shat : touches_only [Field.inv_Shat] invert_Shat.
Proof. unfold invert_Shat. touches_solve. Qed.

Lemma touches_r_class_get (sel : TemplateArgs) (b : Base su2double) :
  touches_only [Field.r; Field.d_r] (r_class_get sel b).
Proof.
  unfold r_class_get, r_Bsl.get, r_Edw.get.
  destruct (r_class sel); cbv beta zeta; touches_solve.
Qed.

Lemma touches_wall_damping :
  touches_only
    [Field.g; Field.g_6; Field.glim; Field.fw; Field.d_g; Field.d_fw]
    wall_damping.
Proof. unfold wall_damping. touches_solve. Qed.

Lemma touches_gradient_norm (b : Base su2double) :
  touches_only [Field.norm2_Grad] (gradient_norm b).
Proof.
  unfold gradient_norm. apply touches_bind; [touches_solve | intros _].
  apply touches_for_iDim. intros i. touches_solve.
Qed.

Lemma SourceTerms_class_get_model_var (sel : TemplateArgs)
    (b : Base su2double) (s : State su2double) :
  model_var (final (SourceTerms_class_get sel b) s) = model_var s.
Proof.
  unfold SourceTerms_class_get, SourceTerms_Neg.get, SourceTerms_Bsl.get.
  destruct (SourceTerms_class sel); cbv beta zeta;
    try destruct (ScalarVar_i b >? lit 0.0); reflexivity.
Qed.

(** X3: every strategy of the four upstream families writes the members of
    the scratch struct it owns and nothing else: the vorticity strategies
    [Omega]; the trip-term strategies [ft2] and [d_ft2]; the modified
    vorticity strategies [Shat] and [d_Shat]; the damping-function strategies
    [r] and [d_r].  None changes an evaluator member or a model constant. *)
Theorem X3_strategies_write_their_own_members (sel : TemplateArgs)
    (b : Base su2double) :
  touches_only [Field.Omega] (Omega_class_get sel b) /\
  touches_only [Field.ft2; Field.d_ft2] (ft2_class_get sel b) /\
  touches_only [Field.Shat; Field.d_Shat] (ModVort_class_get sel b) /\
  touches_only [Field.r; Field.d_r] (r_class_get sel b).
Proof.
  repeat apply conj.
  - unfold Omega_class_get, Omega_Bsl.get, Omega_Edw.get.
    destruct (Omega_class sel); touches_solve.
  - unfold ft2_class_get, ft2_Bsl.get, ft2_nonzero.get.
    destruct (ft2_class sel); cbv beta zeta; touches_solve.
  - unfold ModVort_class_get, ModVort_Neg.get, ModVort_Bsl.get, ModVort_Edw.get.
    destruct (ModVort_class sel); cbv beta zeta; touches_solve.
  - unfold r_class_get, r_Bsl.get, r_Edw.get.
    destruct (r_class sel); cbv beta zeta; touches_solve.
Qed.

(** X4: the source assembly, in both variants and both branches, reads the
    scratch struct without writing it (its [model_var] is a reference to
    const): the whole struct is as before, no access it logs is a write, and
    of the evaluator members only [Production], [Destruction],
    [CrossProduction] and the Jacobian cell can change. *)
Theorem X4_source_assembly_reads_only (sel : TemplateArgs)
    (b : Base su2double) (s : State su2double) :
  let s' := final (SourceTerms_class_get sel b) s in
  model_var s' = model_var s /\
  (forall f : Field.t,
     count_writes f (trace (SourceTerms_class_get sel b) s) = 0%nat) /\
  roughwall (members s') = roughwall (members s) /\
  Density_i (members s') = Density_i (members s) /\
  Laminar_Viscosity_i (members s') = Laminar_Viscosity_i (members s) /\
  Residual (members s') = Residual (members s) /\
  AddSourceTerm (members s') = AddSourceTerm (members s).
Proof.
  unfold SourceTerms_class_get, SourceTerms_Neg.get, SourceTerms_Bsl.get.
  destruct (SourceTerms_class sel); cbv beta zeta;
    try destruct (ScalarVar_i b >? lit 0.0);
    (repeat apply conj; [reflexivity | intros []; reflexivity | ..];
     reflexivity).
Qed.
End Frames.

(** ** Floors, clamps and guards in real arithmetic *)

Section RealBounds.
Local Open Scope R_scope.

Lemma lit_1e_16 : lit 1.0e-16 = 1e-16.
Proof. cbn. unfold Q2R. cbn. lra. Qed.

Lemma lit_1e_10' : lit 1.0e-10 = 1e-10.
Proof. cbn. unfold Q2R. cbn. lra. Qed.

Lemma lit_int_2 : lit 2 = 2.
Proof. cbn. unfold Q2R. cbn. lra. Qed.

Lemma lit_3 : lit 3.0 = 3.
Proof. cbn. unfold Q2R. cbn. lra. Qed.

Lemma lit_5 : lit 5.0 = 5.
Proof. cbn. unfold Q2R. cbn. lra. Qed.

Lemma lit_6 : lit 6.0 = 6.
Proof. cbn. unfold Q2R. cbn. lra. Qed.

Lemma Rleb_false (x y : R) : y < x -> Rleb x y = false.
Proof. intros. unfold Rleb. destruct (Rle_dec x y); [lra | reflexivity]. Qed.

Lemma Rpow_neg_2 (x : R) : Rpow x (- 2) = / (x * x).
Proof.
  unfold Rpow.
  assert (E : Int_part (- 2) = (- 2)%Z) by (symmetry; apply Int_part_spec; lra).
  rewrite E. destruct (Req_dec_T (- 2) (-2)) as [_ | N]; [| now contradiction N].
  unfold powerRZ. simpl. f_equal. ring.
Qed.

(** X5: the baseline modified vorticity is the sum floored at 1e-10: it is
    never below 1e-10 (so never zero), its derivative is 0 exactly when the
    floor is active and the derivative of the sum otherwise. *)
Theorem X5_ModVort_Bsl_floor (b : Base R) (s : State R) :
  let m := model_var s in
  let m' := model_var (final (ModVort_Bsl.get b) s) in
  let nue := ScalarVar_i b in
  let d_Sbar :=
    (CommonVariables.fv2 m + nue * CommonVariables.d_fv2 m)
    * CommonVariables.inv_k2_d2 m in
  CommonVariables.Shat m'
  = Rmax (CommonVariables.S m
          + nue * CommonVariables.fv2 m * CommonVariables.inv_k2_d2 m) 1e-10 /\
  1e-10 <= CommonVariables.Shat m' /\
  (CommonVariables.Shat m' = 1e-10 -> CommonVariables.d_Shat m' = 0) /\
  (1e-10 < CommonVariables.Shat m' -> CommonVariables.d_Shat m' = d_Sbar).
Proof.
  intros m m' nue d_Sbar. subst m' d_Sbar m nue.
  unfold ModVort_Bsl.get. run_R.
  rewrite fmax_R, lit_1e_10', lit_0.
  set (x := Rmax _ _).
  assert (Hx : 1e-10 <= x) by apply Rmax_r.
  repeat apply conj.
  - reflexivity.
  - exact Hx.
  - intros E. rewrite (Rleb_true x 1e-10) by lra. reflexivity.
  - intros L. rewrite (Rleb_false x 1e-10 L). reflexivity.
Qed.

(** X6: the Edwards modified vorticity is floored at 1e-10 as well; the
    inner floor at 1e-16 never shows, since the outer one is higher.  Its
    derivative is 0 exactly when the floor is active. *)
Theorem X6_ModVort_Edw_floor (b : Base R) (s : State R) :
  let m := model_var s in
  let m' := model_var (final (ModVort_Edw.get b) s) in
  let nu := Laminar_Viscosity_i (members s) / Density_i (members s) in
  CommonVariables.Shat m'
  = Rmax (CommonVariables.S m
          * (1 / Rmax (CommonVariables.Ji m) 1e-16 + CommonVariables.fv1 m))
      1e-10 /\
  1e-10 <= CommonVariables.Shat m' /\
  (CommonVariables.Shat m' = 1e-10 -> CommonVariables.d_Shat m' = 0) /\
  (1e-10 < CommonVariables.Shat m' ->
   CommonVariables.d_Shat m'
   = - CommonVariables.S m / (CommonVariables.Ji m * CommonVariables.Ji m) / nu
     + CommonVariables.S m * CommonVariables.d_fv1 m).
Proof.
  intros m m' nu. subst m' nu m.
  unfold ModVort_Edw.get. run_R.
  rewrite !fmax_R, lit_1e_10', lit_1e_16, lit_0, lit_1, lit_2, Rpow_neg_2.
  set (y := CommonVariables.S (model_var s) * _).
  assert (E : Rmax (Rmax y 1e-16) 1e-10 = Rmax y 1e-10).
  { unfold Rmax. repeat destruct (Rle_dec _ _); lra. }
  rewrite E. set (x := Rmax y 1e-10).
  assert (Hx : 1e-10 <= x) by apply Rmax_r.
  repeat apply conj.
  - reflexivity.
  - exact Hx.
  - intros Ex. rewrite (Rleb_true x 1e-10) by lra. reflexivity.
  - intros L. rewrite (Rleb_false x 1e-10 L). unfold Rdiv. ring.
Qed.

Lemma Shat_after_ModVort (sel : TemplateArgs) (b : Base R) (s : State R) :
  (ModVort_class sel = Variant.ModVort_Neg -> 0 < ScalarVar_i b) ->
  1e-10
  <= CommonVariables.Shat (model_var (final (ModVort_class_get sel b) s)).
Proof.
  intros HNeg. unfold ModVort_class_get, ModVort_Neg.get.
  destruct (ModVort_class sel);
    [| | cbn [flt Arith_R];
         rewrite (Rltb_true (lit 0.0) (ScalarVar_i b))
           by (rewrite lit_0; apply HNeg; reflexivity)];
    unfold ModVort_Bsl.get, ModVort_Edw.get; run_R;
    rewrite ?fmax_R, ?lit_1e_10'; apply Rmax_r.
Qed.

(** X7: over the reals, whenever the modified vorticity strategy writes
    [Shat] (the baseline and Edwards variants always, the negative one at a
    positive scalar), the inversion that follows divides by a number that is
    at least 1e-10: the inverse lies in (0, 1e10] and is a true inverse.
    (In doubles the inverse is rounded and a NaN passes the floor.) *)
Theorem X7_inv_Shat_is_bounded (sel : TemplateArgs) (b : Base R) (s : State R) :
  (ModVort_class sel = Variant.ModVort_Neg -> 0 < ScalarVar_i b) ->
  let m' := model_var (final (ModVort_class_get sel b ;; invert_Shat) s) in
  1e-10 <= CommonVariables.Shat m' /\
  0 < CommonVariables.inv_Shat m' <= 1e10 /\
  CommonVariables.Shat m' * CommonVariables.inv_Shat m' = 1.
Proof.
  intros HNeg m'.
  assert (HS : 1e-10 <= CommonVariables.Shat m' /\
               CommonVariables.inv_Shat m' = 1 / CommonVariables.Shat m').
  { subst m'. rewrite final_bind. unfold invert_Shat. run_R.
    rewrite lit_1. split; [| reflexivity].
    apply Shat_after_ModVort, HNeg. }
  destruct HS as (HS & ->).
  set (x := CommonVariables.Shat m') in *.
  assert (0 < / x) by (apply Rinv_0_lt_compat; lra).
  assert (x * / x = 1) by (apply Rinv_r; lra).
  repeat apply conj.
  - exact HS.
  - lra.
  - unfold Rdiv. nra.
  - unfold Rdiv. lra.
Qed.
End RealBounds.

Section RealGuards.
Local Open Scope R_scope.

(** X8: over the reals, on a call that passes the wall-distance guard, the
    squared distance is above 1e-20, and for a positive [k2] the factor
    [inv_k2_d2] is a positive true inverse of [k2 * dist_i_2]: the divisions
    by the distance are divisions by a non-zero number.  (In doubles the
    square and the inverse are rounded.) *)
Theorem X8_guard_keeps_distance_divisions_safe (b : Base R) (s : State R) :
  1e-10 < dist_i b ->
  0 < CommonVariables.k2 (model_var s) ->
  let m' := model_var (final (viscous_functions b) s) in
  CommonVariables.dist_i_2 m' = dist_i b * dist_i b /\
  1e-20 < CommonVariables.dist_i_2 m' /\
  0 < CommonVariables.inv_k2_d2 m' /\
  CommonVariables.inv_k2_d2 m'
  * (CommonVariables.k2 (model_var s) * CommonVariables.dist_i_2 m') = 1.
Proof.
  intros Hd Hk m'. subst m'. unfold viscous_functions. run_cbn.
  rewrite lit_1.
  set (k := CommonVariables.k2 (model_var s)) in *.
  set (d := dist_i b) in *.
  assert (Hdd : 1e-20 < d * d) by nra.
  assert (Hkd : 0 < k * (d * d)) by nra.
  repeat apply conj.
  - reflexivity.
  - exact Hdd.
  - unfold Rdiv. rewrite Rmult_1_l. apply Rinv_0_lt_compat, Hkd.
  - unfold Rdiv. rewrite Rmult_1_l. apply Rinv_l. lra.
Qed.

(** X9: over the reals, the rotating-frame correction never raises [Omega]:
    it leaves it alone when the flag is off or the strain magnitude is at
    least [Omega], and replaces it by [2 StrainMag_i - Omega] otherwise.
    (In doubles a NaN compares false with everything.) *)
Theorem X9_rotational_correction_lowers_Omega (b : Base R) (s : State R) :
  let Omega := CommonVariables.Omega (model_var s) in
  let Omega' :=
    CommonVariables.Omega (model_var (final (rotational_correction b) s)) in
  Omega' <= Omega /\
  (rotating_frame b = false -> Omega' = Omega) /\
  (Omega <= StrainMag_i b -> Omega' = Omega) /\
  (rotating_frame b = true -> StrainMag_i b < Omega ->
   Omega' = 2 * StrainMag_i b - Omega).
Proof.
  intros Omega Omega'. subst Omega' Omega.
  unfold rotational_correction. rewrite final_when.
  destruct (rotating_frame b).
  - run_cbn. rewrite fmin_R, lit_0, lit_2.
    set (w := CommonVariables.Omega (model_var s)).
    unfold Rmin. destruct (Rle_dec 0 (StrainMag_i b - w));
      repeat apply conj; intros; try discriminate; lra.
  - repeat apply conj; intros; try discriminate; lra.
Qed.
End RealGuards.

Section RealEdwards.
Local Open Scope R_scope.

Lemma tanh_bounds (y : R) : -1 < tanh y < 1.
Proof. pose proof (one_minus_tanh_sqr_pos y). nra. Qed.

Lemma tanh_increasing (x y : R) : x <= y -> tanh x <= tanh y.
Proof.
  intros [L | ->]; [| lra]. left. rewrite !tanh_exp.
  pose proof (exp_pos x). pose proof (exp_pos (- x)).
  pose proof (exp_pos y). pose proof (exp_pos (- y)).
  assert (exp x < exp y) by (apply exp_increasing; lra).
  assert (exp (- y) < exp (- x)) by (apply exp_increasing; lra).
  set (a := exp x) in *. set (c := exp (- x)) in *.
  set (a' := exp y) in *. set (c' := exp (- y)) in *.
  enough (0 < (a' - c') / (a' + c') - (a - c) / (a + c)) by lra.
  replace ((a' - c') / (a' + c') - (a - c) / (a + c))
    with (2 * (a' * c - a * c') / ((a' + c') * (a + c))) by (field; lra).
  apply Rdiv_lt_0_compat; nra.
Qed.

(** X10: over the reals, with the real [tanh], the Edwards damping function
    is bounded for every input: it lies above [-1 / tanh 1] and is at most
    [tanh 10 / tanh 1]. *)
Theorem X10_r_Edw_is_bounded (b : Base R) (s : State R) :
  let r := CommonVariables.r (model_var (final (r_Edw.get b) s)) in
  - (1 / tanh 1) < r <= tanh 10 / tanh 1.
Proof.
  intros r. subst r. unfold r_Edw.get. run_cbn.
  rewrite fmin_R, lit_10, lit_1.
  set (x := Rmin _ 10).
  assert (Hx : x <= 10) by apply Rmin_r.
  pose proof (tanh_bounds x) as [Hl _].
  pose proof (tanh_increasing x 10 Hx) as Hm.
  pose proof tanh_1_pos as HT.
  assert (HI : 0 < / tanh 1) by (apply Rinv_0_lt_compat, HT).
  unfold Rdiv. split; nra.
Qed.
End RealEdwards.

Section RealSums.
Local Open Scope R_scope.

(** X11: in two and in three dimensions the radicand of the Edwards
    vorticity is a sum of squares, so in exact arithmetic it is never
    negative, the clamp at zero is idle and [Omega] squared is [Sbar]. *)
Theorem X11_Omega_Edw_radicand_is_nonnegative (b : Base R) (s : State R) :
  nDim b = 2%nat \/ nDim b = 3%nat ->
  let Omega := CommonVariables.Omega (model_var (final (Omega_Edw.get b) s)) in
  0 <= Omega_Edw.Sbar b /\ Omega * Omega = Omega_Edw.Sbar b.
Proof.
  intros Hn Omega.
  assert (HS : 0 <= Omega_Edw.Sbar b).
  { unfold Omega_Edw.Sbar, Omega_Edw.Sbar_sym.
    destruct Hn as [-> | ->];
      cbn [fold_left seq fadd fsub fmul fdiv fpow Arith_R];
      rewrite lit_0, lit_2, lit_3, lit_int_2, !Rpow_2.
    - set (a := PrimVar_Grad_i_Vel b 0 0). set (c := PrimVar_Grad_i_Vel b 0 1).
      set (d := PrimVar_Grad_i_Vel b 1 0). set (e := PrimVar_Grad_i_Vel b 1 1).
      replace (_ - _ - _)
        with ((c + d) * (c + d) + 4 / 3 * (a * a) + 4 / 3 * (e * e))
        by field.
      pose proof (Rle_0_sqr (c + d)). pose proof (Rle_0_sqr a).
      pose proof (Rle_0_sqr e). unfold Rsqr in *. lra.
    - set (g00 := PrimVar_Grad_i_Vel b 0 0).
      set (g01 := PrimVar_Grad_i_Vel b 0 1).
      set (g02 := PrimVar_Grad_i_Vel b 0 2).
      set (g10 := PrimVar_Grad_i_Vel b 1 0).
      set (g11 := PrimVar_Grad_i_Vel b 1 1).
      set (g12 := PrimVar_Grad_i_Vel b 1 2).
      set (g20 := PrimVar_Grad_i_Vel b 2 0).
      set (g21 := PrimVar_Grad_i_Vel b 2 1).
      set (g22 := PrimVar_Grad_i_Vel b 2 2).
      replace (_ - _ - _ - _)
        with ((g01 + g10) * (g01 + g10) + (g02 + g20) * (g02 + g20)
              + (g12 + g21) * (g12 + g21)
              + 4 / 3 * (g00 * g00) + 4 / 3 * (g11 * g11)
              + 4 / 3 * (g22 * g22))
        by field.
      pose proof (Rle_0_sqr (g01 + g10)). pose proof (Rle_0_sqr (g02 + g20)).
      pose proof (Rle_0_sqr (g12 + g21)). pose proof (Rle_0_sqr g00).
      pose proof (Rle_0_sqr g11). pose proof (Rle_0_sqr g22).
      unfold Rsqr in *. lra. }
  split; [exact HS |].
  subst Omega. unfold Omega_Edw.get. run_R.
  rewrite fmax_R, lit_0, Rmax_left by lra.
  apply sqrt_sqrt, HS.
Qed.

Lemma norm2_Grad_loop (b : Base R) (n : nat) : forall first (s : State R),
  CommonVariables.norm2_Grad
    (model_var
       (final
          (for_iDim first n
             (fun iDim =>
                bind (rd Field.norm2_Grad)
                  (fun norm2_Grad =>
                     wr Field.norm2_Grad
                       (fadd norm2_Grad
                          (fmul (ScalarVar_Grad_i b iDim)
                             (ScalarVar_Grad_i b iDim)))))) s))
  = sum_of_squares (ScalarVar_Grad_i b) first n
      (CommonVariables.norm2_Grad (model_var s)).
Proof.
  induction n; intros first s; cbn [for_iDim].
  - reflexivity.
  - rewrite final_bind, IHn. run_R. reflexivity.
Qed.

Lemma sum_of_squares_ge (g : nat -> R) (n : nat) : forall first init,
  init <= sum_of_squares g first n init.
Proof.
  unfold sum_of_squares.
  induction n; intros first init; cbn [seq fold_left]; [lra |].
  eapply Rle_trans; [| apply IHn]. nra.
Qed.

Lemma sum_of_squares_zero (g : nat -> R) (n : nat) : forall first init,
  0 <= init ->
  (sum_of_squares g first n init = 0
   <-> init = 0 /\ forall i, (first <= i < first + n)%nat -> g i = 0).
Proof.
  unfold sum_of_squares.
  induction n; intros first init Hi; cbn [seq fold_left].
  - split; [intros ->; split; [reflexivity | intros; lia] | tauto].
  - assert (H0 : 0 <= init + g first * g first) by nra.
    rewrite (IHn (Datatypes.S first) _ H0). split.
    + intros (E & Hg). assert (g first = 0) by nra. split; [nra |].
      intros i Hr. destruct (Nat.eq_dec i first) as [-> | N];
        [assumption | apply Hg; lia].
    + intros (-> & Hg). split.
      * rewrite (Hg first) by lia. ring.
      * intros i Hr. apply Hg. lia.
Qed.

(** X12: what the gradient loop leaves in [norm2_Grad] does not depend on
    what the member held before; in exact arithmetic it is never negative,
    and it is zero exactly when the first [nDim] components of the gradient
    all vanish. *)
Theorem X12_gradient_norm_is_a_sum_of_squares (b : Base R) (s : State R) :
  let n2 s :=
    CommonVariables.norm2_Grad (model_var (final (gradient_norm b) s)) in
  (forall s' : State R, n2 s' = n2 s) /\
  0 <= n2 s /\
  (n2 s = 0 <-> forall i, (i < nDim b)%nat -> ScalarVar_Grad_i b i = 0).
Proof.
  intros n2.
  assert (E : forall s, n2 s = sum_of_squares (ScalarVar_Grad_i b) 0 (nDim b) 0).
  { intros s0. subst n2. unfold gradient_norm.
    rewrite final_bind, norm2_Grad_loop. run_R. now rewrite lit_0. }
  split; [intros s'; now rewrite !E |]. rewrite E. split.
  - apply sum_of_squares_ge.
  - rewrite sum_of_squares_zero by lra. split.
    + intros (_ & Hg) i Hi. apply Hg. lia.
    + intros Hg. split; [reflexivity | intros i Hi; apply Hg; lia].
Qed.
End RealSums.

(** ** The derivatives the code carries are the derivatives *)

Section Derivatives.
Local Open Scope R_scope.

Lemma derivable_pt_lim_value (f : R -> R) (x l l' : R) :
  derivable_pt_lim f x l -> l = l' -> derivable_pt_lim f x l'.
Proof. intros Hf <-. exact Hf. Qed.

(** X13: [d_Ji] and [d_fv1] are the derivatives of [Ji] and [fv1] with
    respect to the turbulence scalar, wherever the divisions are by
    non-zero numbers. *)
Theorem X13_d_fv1_is_the_derivative (b : Base R) (s : State R) :
  let nu := Laminar_Viscosity_i (members s) / Density_i (members s) in
  let after nue := model_var (final (viscous_functions (with_ScalarVar nue b)) s) in
  let m' := model_var (final (viscous_functions b) s) in
  let Ji := CommonVariables.Ji m' in
  nu <> 0 ->
  Ji * Ji * Ji + CommonVariables.cv1_3 (model_var s) <> 0 ->
  derivable_pt_lim (fun nue => CommonVariables.Ji (after nue)) (ScalarVar_i b)
    (CommonVariables.d_Ji m') /\
  derivable_pt_lim (fun nue => CommonVariables.fv1 (after nue)) (ScalarVar_i b)
    (CommonVariables.d_fv1 m').
Proof.
  intros nu after m' Ji Hnu Hden. subst after m' Ji.
  revert Hden. unfold viscous_functions. run_cbn.
  rewrite ?lit_1, ?lit_2, ?lit_3, ?Rpow_2. fold nu. intros Hden.
  split.
  - eapply derivable_pt_lim_ext.
    { intros z. unfold with_ScalarVar. run_cbn. reflexivity. }
    eapply derivable_pt_lim_value; [deriv; exact Hnu |].
    cbv beta. unfold Rsqr. field. exact Hnu.
  - eapply derivable_pt_lim_ext.
    { intros z. unfold with_ScalarVar. run_cbn. reflexivity. }
    eapply derivable_pt_lim_value; [deriv; try exact Hnu |].
    + exact Hden.
    + cbv beta. unfold Rsqr.
      set (J := ScalarVar_i b / nu + _) in *.
      field. split; assumption.
Qed.


(** X14: for a smooth wall ([roughness_i = 0]) [d_fv2] is the derivative of
    [fv2] with respect to the turbulence scalar, wherever the divisions are
    by non-zero numbers. *)
Theorem X14_d_fv2_is_the_derivative_on_smooth_walls (b : Base R) (s : State R) :
  let nu := Laminar_Viscosity_i (members s) / Density_i (members s) in
  let nue := ScalarVar_i b in
  let J := nue / nu in
  let cv1_3 := CommonVariables.cv1_3 (model_var s) in
  let after nue := model_var (final (viscous_functions (with_ScalarVar nue b)) s) in
  roughness_i b = 0 ->
  nu <> 0 ->
  J * J * J + cv1_3 <> 0 ->
  nu + nue * (J * J * J / (J * J * J + cv1_3)) <> 0 ->
  derivable_pt_lim (fun nue => CommonVariables.fv2 (after nue)) nue
    (CommonVariables.d_fv2 (model_var (final (viscous_functions b) s))).
Proof.
  intros nu nue J cv1_3 after Hr Hnu HD HU. subst after.
  unfold viscous_functions. run_cbn.
  rewrite ?lit_1, ?lit_2, ?lit_3, ?Rpow_2, Hr. fold nu nue cv1_3.
  replace (nue / nu
           + CommonVariables.cr1 (model_var s) * (0 / (dist_i b + EPS b)))
    with J by (subst J; unfold Rdiv; ring).
  eapply derivable_pt_lim_ext.
  { intros z. unfold with_ScalarVar. run_cbn. rewrite Hr.
    replace (z / nu
             + CommonVariables.cr1 (model_var s) * (0 / (dist_i b + EPS b)))
      with (z / nu) by (unfold Rdiv; ring).
    fold cv1_3. reflexivity. }
  eapply derivable_pt_lim_value; [deriv; try exact Hnu |].
  - exact HD.
  - exact HU.
  - cbv beta. unfold Rsqr. subst J.
    assert (H2 : nue * nue * nue + cv1_3 * (nu * nu * nu) <> 0).
    { intros E. apply HD.
      transitivity ((nue * nue * nue + cv1_3 * (nu * nu * nu))
                    / (nu * nu * nu)); [field; exact Hnu |].
      rewrite E. field. exact Hnu. }
    assert (H3 : nu * (nue * nue * nue + cv1_3 * (nu * nu * nu))
                 + nue * (nue * nue * nue) <> 0).
    { intros E. apply HU.
      transitivity ((nu * (nue * nue * nue + cv1_3 * (nu * nu * nu))
                     + nue * (nue * nue * nue))
                    / (nue * nue * nue + cv1_3 * (nu * nu * nu)));
        [field; split; assumption |].
      rewrite E. field. exact H2. }
    field. repeat apply conj; assumption.
Qed.

(** X15: with the trip term of the literature, [d_ft2] is the derivative of
    [ft2] with respect to the turbulence scalar. *)
Theorem X15_d_ft2_is_the_derivative (b : Base R) (s : State R) :
  let nu := Laminar_Viscosity_i (members s) / Density_i (members s) in
  let after nue :=
    model_var
      (final (viscous_functions (with_ScalarVar nue b) ;;
              ft2_nonzero.get (with_ScalarVar nue b)) s) in
  nu <> 0 ->
  derivable_pt_lim (fun nue => CommonVariables.ft2 (after nue))
    (ScalarVar_i b) (CommonVariables.d_ft2 (after (ScalarVar_i b))).
Proof.
  intros nu after Hnu. subst after. cbv beta.
  unfold viscous_functions, ft2_nonzero.get.
  eapply derivable_pt_lim_ext.
  { intros z. hide_lhs L. unfold with_ScalarVar. run_cbn.
    rewrite ?lit_int_2, ?Rpow_2. fold nu. subst L. ext_refl z. }
  unfold with_ScalarVar. run_cbn.
  rewrite ?lit_1, ?lit_2, ?lit_int_2, ?Rpow_2. fold nu.
  eapply derivable_pt_lim_value; [deriv; exact Hnu |].
  cbv beta. unfold Rsqr.
  set (rough := CommonVariables.cr1 (model_var s)
                * (roughness_i b / (dist_i b + EPS b))).
  field. exact Hnu.
Qed.

(** X16: for a negative turbulence scalar the negative model adds to the
    Jacobian the derivative of production minus destruction plus cross
    production with respect to the turbulence scalar ([dist_i_2] being
    non-zero). *)
Theorem X16_negative_model_Jacobian_is_the_derivative
    (b : Base R) (s : State R) :
  let out nue :=
    members (final (SourceTerms_Neg.get (with_ScalarVar nue b)) s) in
  ScalarVar_i b < 0 ->
  CommonVariables.dist_i_2 (model_var s) <> 0 ->
  derivable_pt_lim
    (fun nue => Production (out nue) - Destruction (out nue)
                + CrossProduction (out nue))
    (ScalarVar_i b)
    (Jacobian_i (out (ScalarVar_i b)) - Jacobian_i (members s)).
Proof.
  intros out Hneg Hd. subst out. cbv beta.
  assert (Hhere : with_ScalarVar (ScalarVar_i b) b = b) by (destruct b; reflexivity).
  rewrite Hhere.
  eapply (derivable_pt_lim_locally_ext _ _ _ (ScalarVar_i b - 1) 0);
    [lra | |].
  { intros z Hz. hide_lhs L. unfold SourceTerms_Neg.get, with_ScalarVar.
    cbn [ScalarVar_i].
    assert (Hb : (z >? lit 0.0)%su2 = false).
    { rewrite lit_0. apply Rltb_false. lra. }
    rewrite Hb.
    unfold SourceTerms_Neg.ComputeProduction,
      SourceTerms_Neg.ComputeDestruction,
      SourceTerms_Neg.ComputeCrossProduction,
      SourceTerms_Bsl.ComputeCrossProduction.
    run_cbn. rewrite ?lit_1, ?lit_2. subst L. ext_refl z. }
  unfold SourceTerms_Neg.get.
  assert (Hb : (ScalarVar_i b >? lit 0.0)%su2 = false).
  { rewrite lit_0. apply Rltb_false. lra. }
  rewrite Hb.
  unfold SourceTerms_Neg.ComputeProduction,
    SourceTerms_Neg.ComputeDestruction,
    SourceTerms_Neg.ComputeCrossProduction,
    SourceTerms_Bsl.ComputeCrossProduction.
  run_cbn. rewrite ?lit_1, ?lit_2.
  eapply derivable_pt_lim_value; [deriv; exact Hd |].
  cbv beta. unfold Rsqr. field. exact Hd.
Qed.

End Derivatives.

(** ** The Jacobian of the baseline model *)

Section Jacobian.
Local Open Scope R_scope.

Lemma with_ScalarVar_here (b : Base R) : with_ScalarVar (ScalarVar_i b) b = b.
Proof. destruct b; reflexivity. Qed.

(** A strict bound at a point of continuity holds around it. *)
Lemma locally_above (f : R -> R) (x c : R) :
  continuity_pt f x -> c < f x ->
  exists a b, a < x < b /\ forall z, a < z < b -> c < f z.
Proof.
  intros Hc Hlt.
  destruct (Hc (f x - c)) as (d & Hd & Hnear); [lra |].
  exists (x - d), (x + d). split; [lra |].
  intros z Hz.
  destruct (Req_dec x z) as [<- | Hne]; [exact Hlt |].
  assert (H : Rabs (f z - f x) < f x - c).
  { apply (Hnear z). split.
    - split; [exact I | exact Hne].
    - unfold Rdist. apply Rabs_def1; lra. }
  apply Rabs_def2 in H. lra.
Qed.

Lemma derivable_continuity_pt (f : R -> R) (x l : R) :
  derivable_pt_lim f x l -> continuity_pt f x.
Proof.
  intros H. apply derivable_continuous_pt. exists l. exact H.
Qed.

(** A floor that is not active at the point can be dropped. *)
Lemma derivable_pt_lim_fmax (f : R -> R) (x l c : R) :
  derivable_pt_lim f x l -> c < f x ->
  derivable_pt_lim (fun z => fmax (f z) c) x l.
Proof.
  intros Hf Hlt.
  destruct (locally_above f x c (derivable_continuity_pt f x l Hf) Hlt)
    as (a & b & Hab & Hin).
  apply (derivable_pt_lim_locally_ext f _ x a b l Hab); [| exact Hf].
  intros z Hz. rewrite fmax_R, Rmax_left; [reflexivity |].
  apply Rlt_le, Hin, Hz.
Qed.

(** A cap that is not active at the point can be dropped. *)
Lemma derivable_pt_lim_fmin (f : R -> R) (x l c : R) :
  derivable_pt_lim f x l -> f x < c ->
  derivable_pt_lim (fun z => fmin (f z) c) x l.
Proof.
  intros Hf Hlt.
  assert (Hopp : continuity_pt (fun z => - f z) x).
  { apply continuity_pt_opp, (derivable_continuity_pt f x l Hf). }
  destruct (locally_above (fun z => - f z) x (- c) Hopp ltac:(lra))
    as (a & b & Hab & Hin).
  apply (derivable_pt_lim_locally_ext f _ x a b l Hab); [| exact Hf].
  intros z Hz. rewrite fmin_R, Rmin_left; [reflexivity |].
  specialize (Hin z Hz). cbv beta in Hin. lra.
Qed.

(** *** Members a step leaves alone keep their derivatives *)

Lemma tracks_along (b : Base R) (c : Base R -> M R unit) (sf : R -> State R)
    (x : R) (F : list Field.t) (f df : Field.t) :
  (forall b', touches_only F (c b')) ->
  mem f F = false -> mem df F = false ->
  tracks sf x f df -> tracks (along b c sf) x f df.
Proof.
  intros Hc Hf Hdf H. unfold tracks, along in *.
  rewrite (proj2 (proj2 (Hc _ (sf x))) df Hdf).
  eapply derivable_pt_lim_ext; [| exact H].
  intros z. cbv beta. symmetry. apply (Hc _ (sf z)), Hf.
Qed.

Lemma still_along (b : Base R) (c : Base R -> M R unit) (sf : R -> State R)
    (x : R) (F : list Field.t) (f : Field.t) :
  (forall b', touches_only F (c b')) ->
  mem f F = false ->
  still sf x f -> still (along b c sf) x f.
Proof.
  intros Hc Hf H. unfold still, along in *.
  eapply derivable_pt_lim_ext; [| exact H].
  intros z. cbv beta. symmetry. apply (Hc _ (sf z)), Hf.
Qed.

Lemma fixed_frame_along (b : Base R) (c : Base R -> M R unit)
    (sf : R -> State R) (F : list Field.t) :
  (forall b', touches_only F (c b')) ->
  fixed_frame sf -> fixed_frame (along b c sf).
Proof.
  intros Hc H z z'. unfold along.
  destruct (Hc (with_ScalarVar z b) (sf z)) as (Hm & Hk & _).
  destruct (Hc (with_ScalarVar z' b) (sf z')) as (Hm' & Hk' & _).
  destruct (H z z') as (Em & Ek).
  split; [congruence |].
  intros k. rewrite Hk, Hk'. apply Ek.
Qed.

Lemma value_along (b : Base R) (c : Base R -> M R unit) (sf : R -> State R)
    (z : R) (F : list Field.t) (f : Field.t) :
  (forall b', touches_only F (c b')) ->
  mem f F = false ->
  CommonVariables.get f (model_var (along b c sf z))
  = CommonVariables.get f (model_var (sf z)).
Proof. intros Hc Hf. unfold along. apply (Hc _ (sf z)), Hf. Qed.

Lemma constant_still (sf : R -> State R) (x : R) (k : Const.t) :
  fixed_frame sf ->
  derivable_pt_lim (fun z => CommonVariables.const k (model_var (sf z))) x 0.
Proof.
  intros H.
  apply (derivable_pt_lim_ext
           (fun _ => CommonVariables.const k (model_var (sf x)))).
  - intros z. apply (H x z).
  - apply derivable_pt_lim_const.
Qed.

(** Brings the derivatives of the model constants into the context. *)
Ltac constants sf x H :=
  pose proof (constant_still sf x Const.cv1_3 H);
  pose proof (constant_still sf x Const.k2 H);
  pose proof (constant_still sf x Const.cb1 H);
  pose proof (constant_still sf x Const.cw2 H);
  pose proof (constant_still sf x Const.ct3 H);
  pose proof (constant_still sf x Const.ct4 H);
  pose proof (constant_still sf x Const.cw3_6 H);
  pose proof (constant_still sf x Const.cb2_sigma H);
  pose proof (constant_still sf x Const.cw1 H);
  pose proof (constant_still sf x Const.cr1 H);
  cbn [CommonVariables.const] in *.

(** *** The trip term *)

Lemma link_ft2 (sel : TemplateArgs) (b : Base R) (sf : R -> State R) :
  let x := ScalarVar_i b in
  fixed_frame sf ->
  tracks sf x Field.Ji Field.d_Ji ->
  tracks (along b (ft2_class_get sel) sf) x Field.ft2 Field.d_ft2.
Proof.
  intros x Hfix HJ. constants sf x Hfix.
  unfold tracks, along in *. cbn [CommonVariables.get] in *.
  unfold ft2_class_get. destruct (ft2_class sel).
  - unfold ft2_Bsl.get. run_cbn. rewrite lit_0. apply derivable_pt_lim_const.
  - eapply derivable_pt_lim_ext.
    { intros z. hide_lhs L. unfold ft2_nonzero.get. run_cbn.
      rewrite ?lit_int_2, ?Rpow_2. subst L. ext_refl z. }
    eapply derivable_pt_lim_value; [deriv |].
    unfold ft2_nonzero.get. run_cbn.
    rewrite ?lit_2, ?lit_int_2, ?Rpow_2. ring.
Qed.

(** *** The modified vorticity *)

Lemma link_ModVort_Bsl (b : Base R) (sf : R -> State R) :
  let x := ScalarVar_i b in
  still sf x Field.S -> still sf x Field.inv_k2_d2 ->
  tracks sf x Field.fv2 Field.d_fv2 ->
  1e-10 < CommonVariables.Shat (model_var (along b ModVort_Bsl.get sf x)) ->
  tracks (along b ModVort_Bsl.get sf) x Field.Shat Field.d_Shat.
Proof.
  intros x HS Hk Hfv2.
  unfold tracks, still, along in *. cbn [CommonVariables.get] in *.
  unfold ModVort_Bsl.get. unfold with_ScalarVar. run_cbn. fold x.
  rewrite lit_1e_10', fmax_R. intros Hfloor.
  assert (Hsum : 1e-10 < CommonVariables.S (model_var (sf x))
                         + x * CommonVariables.fv2 (model_var (sf x))
                           * CommonVariables.inv_k2_d2 (model_var (sf x))).
  { unfold Rmax in Hfloor. destruct (Rle_dec _ _) in Hfloor; lra. }
  rewrite Rmax_left by lra.
  rewrite Rleb_false by exact Hsum.
  eapply (derivable_pt_lim_ext
            (fun z => fmax (CommonVariables.S (model_var (sf z))
                            + z * CommonVariables.fv2 (model_var (sf z))
                              * CommonVariables.inv_k2_d2 (model_var (sf z)))
                        1e-10)).
  { intros z. rewrite !fmax_R. reflexivity. }
  apply derivable_pt_lim_fmax; [| exact Hsum].
  eapply derivable_pt_lim_value; [deriv |].
  cbv beta. ring.
Qed.

(** *** The damping function *)

Lemma Reqb_false (x y : R) : x <> y -> Reqb x y = false.
Proof.
  intros. unfold Reqb. destruct (Req_dec_T x y); [contradiction | reflexivity].
Qed.

Lemma link_r_Bsl (b : Base R) (sf : R -> State R) :
  let x := ScalarVar_i b in
  let c := fun b' => invert_Shat ;; r_Bsl.get b' in
  still sf x Field.inv_k2_d2 ->
  tracks sf x Field.Shat Field.d_Shat ->
  CommonVariables.Shat (model_var (sf x)) <> 0 ->
  CommonVariables.r (model_var (along b c sf x)) < 10 ->
  tracks (along b c sf) x Field.r Field.d_r.
Proof.
  intros x c Hk HShat Hnz. subst c.
  unfold tracks, still, along in *. cbn [CommonVariables.get] in *.
  intros Hcap.
  assert (Hr : x * (1 / CommonVariables.Shat (model_var (sf x)))
               * CommonVariables.inv_k2_d2 (model_var (sf x)) < 10).
  { revert Hcap. unfold invert_Shat, r_Bsl.get, with_ScalarVar.
    rewrite !final_bind, final_when. run_cbn. fold x.
    rewrite lit_10, lit_1, fmin_R.
    destruct (Reqb _ _); run_cbn; intros Hcap;
      unfold Rmin in Hcap; destruct (Rle_dec _ _) in Hcap; lra. }
  eapply (derivable_pt_lim_ext
            (fun z => fmin (z * (1 / CommonVariables.Shat (model_var (sf z)))
                            * CommonVariables.inv_k2_d2 (model_var (sf z)))
                        10)).
  { intros z. unfold invert_Shat, r_Bsl.get, with_ScalarVar.
    rewrite !final_bind, final_when. run_cbn. rewrite lit_10, lit_1.
    destruct (Reqb _ _); reflexivity. }
  eapply derivable_pt_lim_value.
  { apply derivable_pt_lim_fmin; [deriv; exact Hnz | exact Hr]. }
  unfold invert_Shat, r_Bsl.get, with_ScalarVar.
  rewrite !final_bind, final_when. run_cbn. fold x.
  rewrite lit_10, lit_1, lit_0, fmin_R, Rmin_left by lra.
  rewrite Reqb_false by lra. run_cbn.
  unfold Rsqr. field. exact Hnz.
Qed.

(** *** The wall-damping function *)

Lemma Rpow_6 (x : R) : Rpow x 6 = x * x * x * x * x * x.
Proof.
  unfold Rpow.
  assert (E : Int_part 6 = 6%Z) by (symmetry; apply Int_part_spec; lra).
  rewrite E. destruct (Req_dec_T 6 6) as [_ | N]; [| now contradiction N].
  unfold powerRZ. simpl. ring.
Qed.

Lemma Rpow_5 (x : R) : Rpow x 5 = x * x * x * x * x.
Proof.
  unfold Rpow.
  assert (E : Int_part 5 = 5%Z) by (symmetry; apply Int_part_spec; lra).
  rewrite E. destruct (Req_dec_T 5 5) as [_ | N]; [| now contradiction N].
  unfold powerRZ. simpl. ring.
Qed.

Lemma Rpow_sixth (x : R) : Rpow x (1 / 6) = Rpower x (1 / 6).
Proof.
  unfold Rpow.
  assert (E : Int_part (1 / 6) = 0%Z) by (symmetry; apply Int_part_spec; lra).
  rewrite E. destruct (Req_dec_T (1 / 6) 0) as [N | _]; [lra | reflexivity].
Qed.

Lemma derivable_pt_lim_Rpower (u : R -> R) (x l y : R) :
  0 < u x -> derivable_pt_lim u x l ->
  derivable_pt_lim (fun z => Rpower (u z) y) x (y * Rpower (u x) (y - 1) * l).
Proof.
  intros Hpos Hu.
  exact (derivable_pt_lim_comp u (fun t => Rpower t y) x l _ Hu
           (derivable_pt_lim_power (u x) y Hpos)).
Qed.

Lemma Rpower_pred (u y : R) : 0 < u -> Rpower u (y - 1) = Rpower u y / u.
Proof.
  intros Hu. unfold Rminus, Rdiv.
  now rewrite Rpower_plus, Rpower_Ropp, Rpower_1.
Qed.

Lemma link_wall_damping (b : Base R) (sf : R -> State R) :
  let x := ScalarVar_i b in
  let c := fun _ : Base R => wall_damping in
  fixed_frame sf ->
  tracks sf x Field.r Field.d_r ->
  0 < 1 + CommonVariables.cw3_6 (model_var (sf x)) ->
  0 < CommonVariables.g_6 (model_var (along b c sf x))
      + CommonVariables.cw3_6 (model_var (sf x)) ->
  tracks (along b c sf) x Field.fw Field.d_fw.
Proof.
  intros x c Hfix Hr Hone. subst c. constants sf x Hfix.
  unfold tracks, along in *. cbn [CommonVariables.get] in *.
  unfold wall_damping. run_cbn.
  rewrite ?lit_1, ?lit_5, ?lit_6, ?Rpow_6, ?Rpow_5, ?Rpow_sixth.
  set (r := CommonVariables.r (model_var (sf x))) in *.
  set (cw2 := CommonVariables.cw2 (model_var (sf x))) in *.
  set (cw3_6 := CommonVariables.cw3_6 (model_var (sf x))) in *.
  set (g := r + cw2 * (r * r * r * r * r * r - r)).
  intros Hg6.
  eapply derivable_pt_lim_ext.
  { intros z. hide_lhs L.
    rewrite ?lit_1, ?lit_5, ?lit_6, ?Rpow_6, ?Rpow_5, ?Rpow_sixth.
    subst L. ext_refl z. }
  assert (HU : 0 < (1 + cw3_6) / (g * g * g * g * g * g + cw3_6)).
  { apply Rdiv_lt_0_compat; assumption. }
  eapply derivable_pt_lim_value.
  { apply derivable_pt_lim_mult; [deriv |].
    apply derivable_pt_lim_Rpower; [exact HU | deriv].
    apply Rgt_not_eq, Hg6. }
  cbv beta. fold r cw2 cw3_6 g.
  rewrite (Rpower_pred _ _ HU).
  set (glim := Rpower _ _).
  unfold Rsqr. field. lra.
Qed.

(** *** The gradient norm *)

Lemma link_gradient_norm (b : Base R) (sf : R -> State R) (x : R) :
  still (along b gradient_norm sf) x Field.norm2_Grad.
Proof.
  unfold still, along. cbn [CommonVariables.get].
  apply (derivable_pt_lim_ext
           (fun _ => sum_of_squares (ScalarVar_Grad_i b) 0 (nDim b) 0));
    [| apply derivable_pt_lim_const].
  intros z. unfold gradient_norm. rewrite final_bind, norm2_Grad_loop.
  unfold with_ScalarVar. run_cbn. now rewrite lit_0.
Qed.

(** *** The assembly of the residual *)

Lemma link_assembly (b : Base R) (sf : R -> State R) :
  let x := ScalarVar_i b in
  let c := fun b' => SourceTerms_Bsl.get b' ;; scale_by_Volume b' in
  fixed_frame sf ->
  tracks sf x Field.ft2 Field.d_ft2 ->
  tracks sf x Field.Shat Field.d_Shat ->
  tracks sf x Field.fw Field.d_fw ->
  still sf x Field.dist_i_2 ->
  still sf x Field.norm2_Grad ->
  CommonVariables.k2 (model_var (sf x)) <> 0 ->
  CommonVariables.dist_i_2 (model_var (sf x)) <> 0 ->
  Jacobian_i (members (sf x)) = 0 ->
  derivable_pt_lim (fun z => Residual (members (along b c sf z))) x
    (Jacobian_i (members (along b c sf x))).
Proof.
  intros x c Hfix Hft2 HShat Hfw Hd Hn Hk2 Hd2 HJ0. subst c.
  constants sf x Hfix.
  assert (HAdd : derivable_pt_lim
                   (fun z => AddSourceTerm (members (sf z))) x 0).
  { apply (derivable_pt_lim_ext (fun _ => AddSourceTerm (members (sf x)))).
    - intros z. now rewrite (proj1 (Hfix x z)).
    - apply derivable_pt_lim_const. }
  unfold tracks, still, along in *. cbn [CommonVariables.get] in *.
  eapply derivable_pt_lim_ext.
  { intros z. hide_lhs L.
    unfold SourceTerms_Bsl.get, SourceTerms_Bsl.ComputeProduction,
      SourceTerms_Bsl.ComputeDestruction,
      SourceTerms_Bsl.ComputeCrossProduction, scale_by_Volume, with_ScalarVar.
    run_cbn. rewrite ?lit_1, ?lit_2. subst L. ext_refl z. }
  eapply derivable_pt_lim_value; [deriv; assumption |].
  unfold SourceTerms_Bsl.get, SourceTerms_Bsl.ComputeProduction,
    SourceTerms_Bsl.ComputeDestruction,
    SourceTerms_Bsl.ComputeCrossProduction, scale_by_Volume, with_ScalarVar.
  run_cbn. fold x. rewrite ?lit_1, ?lit_2, HJ0.
  cbv beta. unfold Rsqr. field. split; assumption.
Qed.

(** *** The viscous functions *)

Lemma link_viscous_functions (b : Base R) (s : State R) :
  let x := ScalarVar_i b in
  let nu := Laminar_Viscosity_i (members s) / Density_i (members s) in
  let sf := along b viscous_functions (fun _ => s) in
  roughness_i b = 0 ->
  nu <> 0 ->
  (let Ji := CommonVariables.Ji (model_var (sf x)) in
   Ji * Ji * Ji + CommonVariables.cv1_3 (model_var s) <> 0) ->
  nu + x * CommonVariables.fv1 (model_var (sf x)) <> 0 ->
  still sf x Field.S /\ still sf x Field.dist_i_2 /\
  still sf x Field.inv_k2_d2 /\
  tracks sf x Field.Ji Field.d_Ji /\
  tracks sf x Field.fv2 Field.d_fv2.
Proof.
  intros x nu sf Hr Hnu. subst sf.
  unfold tracks, still, along. cbn [CommonVariables.get].
  unfold viscous_functions, with_ScalarVar. run_cbn.
  rewrite ?lit_1, ?lit_2, ?lit_3, ?Rpow_2, Hr. fold x nu.
  set (cv1_3 := CommonVariables.cv1_3 (model_var s)).
  replace (x / nu
           + CommonVariables.cr1 (model_var s) * (0 / (dist_i b + EPS b)))
    with (x / nu) by (unfold Rdiv; ring).
  intros HD HU.
  assert (H2 : x * x * x + cv1_3 * (nu * nu * nu) <> 0).
  { intros E. apply HD.
    transitivity ((x * x * x + cv1_3 * (nu * nu * nu)) / (nu * nu * nu));
      [field; exact Hnu |].
    rewrite E. field. exact Hnu. }
  assert (H3 : nu * (x * x * x + cv1_3 * (nu * nu * nu)) + x * (x * x * x)
               <> 0).
  { intros E. apply HU.
    transitivity ((nu * (x * x * x + cv1_3 * (nu * nu * nu))
                   + x * (x * x * x))
                  / (x * x * x + cv1_3 * (nu * nu * nu)));
      [field; split; assumption |].
    rewrite E. field. exact H2. }
  repeat apply conj.
  - apply derivable_pt_lim_const.
  - apply derivable_pt_lim_const.
  - apply derivable_pt_lim_const.
  - eapply derivable_pt_lim_ext.
    { intros z. hide_lhs L.
      replace (z / nu
               + CommonVariables.cr1 (model_var s) * (0 / (dist_i b + EPS b)))
        with (z / nu) by (unfold Rdiv; ring).
      subst L. ext_refl z. }
    eapply derivable_pt_lim_value; [deriv; exact Hnu |].
    cbv beta. unfold Rsqr. field. exact Hnu.
  - eapply derivable_pt_lim_ext.
    { intros z. hide_lhs L.
      replace (z / nu
               + CommonVariables.cr1 (model_var s) * (0 / (dist_i b + EPS b)))
        with (z / nu) by (unfold Rdiv; ring).
      subst L. ext_refl z. }
    eapply derivable_pt_lim_value; [deriv; try exact Hnu |].
    + exact HD.
    + exact HU.
    + cbv beta. unfold Rsqr. field. repeat apply conj; assumption.
Qed.

(** *** The stages of a call *)

Lemma touches_weaken {A : Type} (F F' : list Field.t) (c : M R A) :
  (forall f, mem f F' = false -> mem f F = false) ->
  touches_only F c -> touches_only F' c.
Proof.
  intros Hsub Hc s. destruct (Hc s) as (Hm & Hk & Hf).
  repeat apply conj; [exact Hm | exact Hk |].
  intros f Hn. apply Hf, Hsub, Hn.
Qed.

Lemma touches_ModVort_Bsl (b : Base R) :
  touches_only [Field.Shat; Field.d_Shat] (ModVort_Bsl.get b).
Proof. exact (touches_ModVort_class_get SA_Bsl b). Qed.

Lemma touches_r_stage (b : Base R) :
  touches_only [Field.inv_Shat; Field.r; Field.d_r]
    (invert_Shat ;; r_Bsl.get b).
Proof.
  apply touches_bind; [| intros _].
  - eapply touches_weaken; [| apply touches_invert_Shat].
    intros []; cbn; congruence.
  - eapply touches_weaken; [| exact (touches_r_class_get SA_Bsl b)].
    intros []; cbn; congruence.
Qed.

Lemma members_along (b : Base R) (c : Base R -> M R unit) (sf : R -> State R)
    (z : R) (F : list Field.t) :
  (forall b', touches_only F (c b')) ->
  members (along b c sf z) = members (sf z).
Proof. intros Hc. unfold along. apply (Hc _ (sf z)). Qed.

Lemma const_along (b : Base R) (c : Base R -> M R unit) (sf : R -> State R)
    (z : R) (F : list Field.t) (k : Const.t) :
  (forall b', touches_only F (c b')) ->
  CommonVariables.const k (model_var (along b c sf z))
  = CommonVariables.const k (model_var (sf z)).
Proof. intros Hc. unfold along. apply (Hc _ (sf z)). Qed.

Lemma entry_state_constants (sel : TemplateArgs) (b : Base R) (s : State R)
    (k : Const.t) :
  CommonVariables.const k (model_var (entry_state sel b s))
  = CommonVariables.const k (model_var s).
Proof.
  unfold entry_state, rotational_correction, Omega_class_get.
  rewrite final_when.
  destruct (rotating_frame b), (Omega_class sel), k; reflexivity.
Qed.

Lemma entry_state_members (sel : TemplateArgs) (b : Base R) (s : State R) :
  members (entry_state sel b s)
  = mkMembers (roughness_i b >? lit 0.0)%su2 (V_i_Density b)
      (V_i_LaminarViscosity b) (lit 0.0) (lit 0.0) (lit 0.0) (lit 0.0)
      (lit 0.0) (lit 0.0).
Proof.
  unfold entry_state, rotational_correction, Omega_class_get.
  rewrite final_when.
  destruct (rotating_frame b), (Omega_class sel); reflexivity.
Qed.

(** With the baseline strategies, past the guard, a call is the sequence of
    its stages, whatever the turbulence scalar. *)
Lemma ComputeResidual_at_exit (sel : TemplateArgs) (b : Base R) (s : State R)
    (z : R) :
  ModVort_class sel = Variant.ModVort_Bsl ->
  r_class sel = Variant.r_Bsl ->
  SourceTerms_class sel = Variant.SourceTerms_Bsl ->
  1e-10 < dist_i b ->
  final (ComputeResidual sel (with_ScalarVar z b)) s = at_exit sel b s z.
Proof.
  intros HM Hr HS Hd.
  unfold ComputeResidual, away_from_wall, source_terms.
  rewrite !final_bind, final_when.
  assert (Hg : (dist_i (with_ScalarVar z b) >? lit 1e-10)%su2 = true).
  { apply Rltb_true. rewrite lit_1e_10. exact Hd. }
  rewrite Hg, !final_bind.
  unfold ModVort_class_get, r_class_get, SourceTerms_class_get.
  rewrite HM, Hr, HS.
  unfold at_exit, at_gradient, at_wall_damping, at_r, at_ModVort, at_ft2,
    at_viscous, along.
  rewrite !final_bind. reflexivity.
Qed.

Section Stages.
Variable sel : TemplateArgs.
Variable b : Base R.
Variable s : State R.

Lemma at_exit_model_var (z : R) :
  model_var (at_exit sel b s z) = model_var (at_gradient sel b s z).
Proof.
  unfold at_exit, along. generalize (at_gradient sel b s z). intros S.
  reflexivity.
Qed.

Lemma at_gradient_back (z : R) (f : Field.t) :
  mem f [Field.norm2_Grad] = false ->
  CommonVariables.get f (model_var (at_gradient sel b s z))
  = CommonVariables.get f (model_var (at_wall_damping sel b s z)).
Proof. apply value_along. exact touches_gradient_norm. Qed.

Lemma at_wall_damping_back (z : R) (f : Field.t) :
  mem f [Field.g; Field.g_6; Field.glim; Field.fw; Field.d_g; Field.d_fw]
  = false ->
  CommonVariables.get f (model_var (at_wall_damping sel b s z))
  = CommonVariables.get f (model_var (at_r sel b s z)).
Proof. apply value_along. intros _. exact touches_wall_damping. Qed.

Lemma at_r_back (z : R) (f : Field.t) :
  mem f [Field.inv_Shat; Field.r; Field.d_r] = false ->
  CommonVariables.get f (model_var (at_r sel b s z))
  = CommonVariables.get f (model_var (at_ModVort sel b s z)).
Proof. apply value_along. exact touches_r_stage. Qed.

Lemma at_ModVort_back (z : R) (f : Field.t) :
  mem f [Field.Shat; Field.d_Shat] = false ->
  CommonVariables.get f (model_var (at_ModVort sel b s z))
  = CommonVariables.get f (model_var (at_ft2 sel b s z)).
Proof. apply value_along. exact touches_ModVort_Bsl. Qed.

Lemma at_ft2_back (z : R) (f : Field.t) :
  mem f [Field.ft2; Field.d_ft2] = false ->
  CommonVariables.get f (model_var (at_ft2 sel b s z))
  = CommonVariables.get f (model_var (at_viscous sel b s z)).
Proof. apply value_along. exact (touches_ft2_class_get sel). Qed.

Lemma at_r_constants (z : R) (k : Const.t) :
  CommonVariables.const k (model_var (at_r sel b s z))
  = CommonVariables.const k (model_var s).
Proof.
  unfold at_r. rewrite (const_along _ _ _ _ _ _ touches_r_stage).
  unfold at_ModVort. rewrite (const_along _ _ _ _ _ _ touches_ModVort_Bsl).
  unfold at_ft2.
  rewrite (const_along _ _ _ _ _ _ (touches_ft2_class_get sel)).
  unfold at_viscous.
  rewrite (const_along _ _ _ _ _ _ touches_viscous_functions).
  apply entry_state_constants.
Qed.

Lemma at_gradient_constants (z : R) (k : Const.t) :
  CommonVariables.const k (model_var (at_gradient sel b s z))
  = CommonVariables.const k (model_var s).
Proof.
  unfold at_gradient. rewrite (const_along _ _ _ _ _ _ touches_gradient_norm).
  unfold at_wall_damping.
  rewrite (const_along _ _ _ _ _ _ (fun _ => touches_wall_damping)).
  apply at_r_constants.
Qed.

Lemma at_gradient_members (z : R) :
  members (at_gradient sel b s z) = members (entry_state sel b s).
Proof.
  unfold at_gradient. rewrite (members_along _ _ _ _ _ touches_gradient_norm).
  unfold at_wall_damping.
  rewrite (members_along _ _ _ _ _ (fun _ => touches_wall_damping)).
  unfold at_r. rewrite (members_along _ _ _ _ _ touches_r_stage).
  unfold at_ModVort. rewrite (members_along _ _ _ _ _ touches_ModVort_Bsl).
  unfold at_ft2.
  rewrite (members_along _ _ _ _ _ (touches_ft2_class_get sel)).
  unfold at_viscous.
  rewrite (members_along _ _ _ _ _ touches_viscous_functions).
  reflexivity.
Qed.

Lemma at_viscous_dist_i_2 (z : R) :
  CommonVariables.dist_i_2 (model_var (at_viscous sel b s z))
  = dist_i b * dist_i b.
Proof.
  unfold at_viscous, along, viscous_functions, with_ScalarVar.
  generalize (entry_state sel b s). intros S. reflexivity.
Qed.
End Stages.

(** Carries a derivative across a stage that leaves the member alone; [T]
    is the frame of the stage. *)
Ltac thru T :=
  first [ eapply (tracks_along _ _ _ _ _ _ _ T)
        | eapply (still_along _ _ _ _ _ _ T) ];
  [reflexivity .. | ]; try assumption.

(** The derivatives on entry to the source assembly. *)
Lemma baseline_chain (sel : TemplateArgs) (b : Base R) (s : State R) :
  let x := ScalarVar_i b in
  let nu := V_i_LaminarViscosity b / V_i_Density b in
  roughness_i b = 0 ->
  nu <> 0 ->
  (let Ji := CommonVariables.Ji (model_var (at_viscous sel b s x)) in
   Ji * Ji * Ji + CommonVariables.cv1_3 (model_var s) <> 0) ->
  nu + x * CommonVariables.fv1 (model_var (at_viscous sel b s x)) <> 0 ->
  1e-10 < CommonVariables.Shat (model_var (at_ModVort sel b s x)) ->
  CommonVariables.r (model_var (at_r sel b s x)) < 10 ->
  0 < 1 + CommonVariables.cw3_6 (model_var s) ->
  0 < CommonVariables.g_6 (model_var (at_wall_damping sel b s x))
      + CommonVariables.cw3_6 (model_var s) ->
  let sf := at_gradient sel b s in
  fixed_frame sf /\
  tracks sf x Field.ft2 Field.d_ft2 /\
  tracks sf x Field.Shat Field.d_Shat /\
  tracks sf x Field.fw Field.d_fw /\
  still sf x Field.dist_i_2 /\
  still sf x Field.norm2_Grad.
Proof.
  intros x nu Hsmooth Hnu HD HU Hfloor Hcap Hone Hg6 sf. subst sf x.
  pose proof (entry_state_constants sel b s Const.cv1_3) as Ecv.
  cbn [CommonVariables.const] in Ecv.
  pose proof (entry_state_members sel b s) as Em.
  (* the viscous functions *)
  destruct (link_viscous_functions b (entry_state sel b s)) as
    (HS1 & Hd1 & Hk1 & HJ1 & Hfv1).
  { exact Hsmooth. }
  { rewrite Em. exact Hnu. }
  { rewrite Ecv. exact HD. }
  { rewrite Em. exact HU. }
  fold (at_viscous sel b s) in HS1, Hd1, Hk1, HJ1, Hfv1.
  assert (F1 : fixed_frame (at_viscous sel b s)).
  { apply (fixed_frame_along _ _ _ _ touches_viscous_functions).
    intros z z'. split; reflexivity. }
  (* the trip term *)
  pose proof (link_ft2 sel b _ F1 HJ1) as Hft2.
  fold (at_ft2 sel b s) in Hft2.
  assert (F2 : fixed_frame (at_ft2 sel b s))
    by exact (fixed_frame_along _ _ _ _ (touches_ft2_class_get sel) F1).
  assert (HS2 : still (at_ft2 sel b s) (ScalarVar_i b) Field.S)
    by (unfold at_ft2; thru (touches_ft2_class_get sel)).
  assert (Hk2 : still (at_ft2 sel b s) (ScalarVar_i b) Field.inv_k2_d2)
    by (unfold at_ft2; thru (touches_ft2_class_get sel)).
  assert (Hd2 : still (at_ft2 sel b s) (ScalarVar_i b) Field.dist_i_2)
    by (unfold at_ft2; thru (touches_ft2_class_get sel)).
  assert (Hfv2 : tracks (at_ft2 sel b s) (ScalarVar_i b) Field.fv2 Field.d_fv2)
    by (unfold at_ft2; thru (touches_ft2_class_get sel)).
  (* the modified vorticity *)
  pose proof (link_ModVort_Bsl b _ HS2 Hk2 Hfv2 Hfloor) as HShat.
  fold (at_ModVort sel b s) in HShat.
  assert (F3 : fixed_frame (at_ModVort sel b s))
    by exact (fixed_frame_along _ _ _ _ touches_ModVort_Bsl F2).
  assert (Hk3 : still (at_ModVort sel b s) (ScalarVar_i b) Field.inv_k2_d2)
    by (unfold at_ModVort; thru touches_ModVort_Bsl).
  assert (Hd3 : still (at_ModVort sel b s) (ScalarVar_i b) Field.dist_i_2)
    by (unfold at_ModVort; thru touches_ModVort_Bsl).
  assert (Hft3 : tracks (at_ModVort sel b s) (ScalarVar_i b) Field.ft2 Field.d_ft2)
    by (unfold at_ModVort; thru touches_ModVort_Bsl).
  (* the damping function *)
  assert (Hnz : CommonVariables.Shat (model_var (at_ModVort sel b s (ScalarVar_i b))) <> 0)
    by lra.
  pose proof (link_r_Bsl b _ Hk3 HShat Hnz Hcap) as Hr.
  fold (at_r sel b s) in Hr.
  assert (F4 : fixed_frame (at_r sel b s))
    by exact (fixed_frame_along _ _ _ _ touches_r_stage F3).
  assert (Hd4 : still (at_r sel b s) (ScalarVar_i b) Field.dist_i_2)
    by (unfold at_r; thru touches_r_stage).
  assert (Hft4 : tracks (at_r sel b s) (ScalarVar_i b) Field.ft2 Field.d_ft2)
    by (unfold at_r; thru touches_r_stage).
  assert (HSh4 : tracks (at_r sel b s) (ScalarVar_i b) Field.Shat Field.d_Shat)
    by (unfold at_r; thru touches_r_stage).
  (* the wall damping *)
  pose proof (at_r_constants sel b s (ScalarVar_i b) Const.cw3_6) as Ecw.
  cbn [CommonVariables.const] in Ecw.
  assert (Hfw : tracks (at_wall_damping sel b s) (ScalarVar_i b) Field.fw Field.d_fw).
  { apply (link_wall_damping b _ F4 Hr); rewrite Ecw; assumption. }
  assert (F5 : fixed_frame (at_wall_damping sel b s))
    by exact (fixed_frame_along _ _ _ _ (fun _ => touches_wall_damping) F4).
  assert (Hd5 : still (at_wall_damping sel b s) (ScalarVar_i b) Field.dist_i_2)
    by (unfold at_wall_damping; thru (fun _ : Base R => touches_wall_damping)).
  assert (Hft5 : tracks (at_wall_damping sel b s) (ScalarVar_i b) Field.ft2 Field.d_ft2)
    by (unfold at_wall_damping; thru (fun _ : Base R => touches_wall_damping)).
  assert (HSh5 : tracks (at_wall_damping sel b s) (ScalarVar_i b) Field.Shat Field.d_Shat)
    by (unfold at_wall_damping; thru (fun _ : Base R => touches_wall_damping)).
  (* the gradient norm *)
  repeat apply conj.
  - exact (fixed_frame_along _ _ _ _ touches_gradient_norm F5).
  - unfold at_gradient; thru touches_gradient_norm.
  - unfold at_gradient; thru touches_gradient_norm.
  - unfold at_gradient; thru touches_gradient_norm.
  - unfold at_gradient; thru touches_gradient_norm.
  - apply link_gradient_norm.
Qed.

(** X17: with the baseline modified vorticity, damping function and source
    terms, at a point past the wall-distance guard on a smooth wall where
    neither the floor of [Shat] nor the cap of [r] is active, the Jacobian a
    call returns is the derivative, with respect to the turbulence scalar,
    of the residual it returns (the divisors being non-zero and the base of
    the sixth root positive). *)
Theorem X17_baseline_Jacobian_is_the_derivative (sel : TemplateArgs)
    (b : Base R) (s : State R) :
  let nue := ScalarVar_i b in
  let nu := V_i_LaminarViscosity b / V_i_Density b in
  let m' := model_var (final (ComputeResidual sel b) s) in
  let cv1_3 := CommonVariables.cv1_3 (model_var s) in
  let cw3_6 := CommonVariables.cw3_6 (model_var s) in
  ModVort_class sel = Variant.ModVort_Bsl ->
  r_class sel = Variant.r_Bsl ->
  SourceTerms_class sel = Variant.SourceTerms_Bsl ->
  roughness_i b = 0 ->
  1e-10 < dist_i b ->
  nu <> 0 ->
  CommonVariables.k2 (model_var s) <> 0 ->
  CommonVariables.Ji m' * CommonVariables.Ji m' * CommonVariables.Ji m'
  + cv1_3 <> 0 ->
  nu + nue * CommonVariables.fv1 m' <> 0 ->
  1e-10 < CommonVariables.Shat m' ->
  CommonVariables.r m' < 10 ->
  0 < 1 + cw3_6 ->
  0 < CommonVariables.g_6 m' + cw3_6 ->
  derivable_pt_lim (fun z => fst (evaluate sel (with_ScalarVar z b) s)) nue
    (snd (evaluate sel b s)).
Proof.
  intros nue nu m' cv1_3 cw3_6 HM Hr HS Hsmooth Hd Hnu Hk2 HD HU Hfloor Hcap
    Hone Hg6.
  subst nue m' cv1_3 cw3_6.
  assert (Ex : forall z,
             final (ComputeResidual sel (with_ScalarVar z b)) s
             = at_exit sel b s z)
    by (intros z; apply ComputeResidual_at_exit; assumption).
  assert (E0 : final (ComputeResidual sel b) s
               = at_exit sel b s (ScalarVar_i b)).
  { rewrite <- Ex, with_ScalarVar_here. reflexivity. }
  rewrite E0, at_exit_model_var in HD, HU, Hfloor, Hcap, Hg6.
  set (x := ScalarVar_i b) in *.
  assert (EJi : CommonVariables.Ji (model_var (at_gradient sel b s x))
                = CommonVariables.Ji (model_var (at_viscous sel b s x))).
  { change (CommonVariables.get Field.Ji (model_var (at_gradient sel b s x))
            = CommonVariables.get Field.Ji (model_var (at_viscous sel b s x))).
    rewrite at_gradient_back, at_wall_damping_back, at_r_back,
      at_ModVort_back, at_ft2_back by reflexivity. reflexivity. }
  assert (Efv1 : CommonVariables.fv1 (model_var (at_gradient sel b s x))
                 = CommonVariables.fv1 (model_var (at_viscous sel b s x))).
  { change (CommonVariables.get Field.fv1 (model_var (at_gradient sel b s x))
            = CommonVariables.get Field.fv1 (model_var (at_viscous sel b s x))).
    rewrite at_gradient_back, at_wall_damping_back, at_r_back,
      at_ModVort_back, at_ft2_back by reflexivity. reflexivity. }
  assert (EShat : CommonVariables.Shat (model_var (at_gradient sel b s x))
                  = CommonVariables.Shat (model_var (at_ModVort sel b s x))).
  { change (CommonVariables.get Field.Shat
              (model_var (at_gradient sel b s x))
            = CommonVariables.get Field.Shat
                (model_var (at_ModVort sel b s x))).
    rewrite at_gradient_back, at_wall_damping_back, at_r_back by reflexivity.
    reflexivity. }
  assert (Er : CommonVariables.r (model_var (at_gradient sel b s x))
               = CommonVariables.r (model_var (at_r sel b s x))).
  { change (CommonVariables.get Field.r (model_var (at_gradient sel b s x))
            = CommonVariables.get Field.r (model_var (at_r sel b s x))).
    rewrite at_gradient_back, at_wall_damping_back by reflexivity.
    reflexivity. }
  assert (Eg6 : CommonVariables.g_6 (model_var (at_gradient sel b s x))
                = CommonVariables.g_6
                    (model_var (at_wall_damping sel b s x))).
  { change (CommonVariables.get Field.g_6
              (model_var (at_gradient sel b s x))
            = CommonVariables.get Field.g_6
                (model_var (at_wall_damping sel b s x))).
    rewrite at_gradient_back by reflexivity. reflexivity. }
  assert (Ed2 : CommonVariables.dist_i_2 (model_var (at_gradient sel b s x))
                = dist_i b * dist_i b).
  { change (CommonVariables.get Field.dist_i_2
              (model_var (at_gradient sel b s x)) = dist_i b * dist_i b).
    rewrite at_gradient_back, at_wall_damping_back, at_r_back,
      at_ModVort_back, at_ft2_back by reflexivity.
    apply at_viscous_dist_i_2. }
  rewrite EJi in HD. rewrite Efv1 in HU. rewrite EShat in Hfloor.
  rewrite Er in Hcap. rewrite Eg6 in Hg6.
  destruct (baseline_chain sel b s Hsmooth Hnu HD HU Hfloor Hcap Hone Hg6)
    as (F & Hft2 & HShat & Hfw & Hdist & Hnorm).
  unfold evaluate, ResidualType. cbn [fst snd].
  apply (derivable_pt_lim_ext
           (fun z => Residual (members (at_exit sel b s z))));
    [intros z; now rewrite Ex |].
  rewrite E0. unfold at_exit.
  apply (link_assembly b (at_gradient sel b s) F Hft2 HShat Hfw Hdist Hnorm).
  - pose proof (at_gradient_constants sel b s x Const.k2) as Ek.
    cbn [CommonVariables.const] in Ek. fold x. rewrite Ek. exact Hk2.
  - fold x. rewrite Ed2. nra.
  - fold x. rewrite at_gradient_members, entry_state_members.
    cbn [Jacobian_i]. apply lit_0.
Qed.
End Jacobian.

(** ** A wall distance that is not a number *)

Section GuardFalse.
Context {su2double : Type} `{Arith su2double}.
Local Open Scope su2_scope.

(** Whenever the test [dist_i > 1e-10] fails the guarded block is skipped. *)
Lemma guard_false_zero (sel : TemplateArgs) (b : Base su2double)
    (s : State su2double) :
  (dist_i b >? lit 1e-10) = false ->
  evaluate sel b s = (lit 0.0, lit 0.0).
Proof.
  intros Hd. unfold evaluate, ComputeResidual.
  rewrite !final_bind, final_when, Hd.
  unfold rotational_correction. rewrite final_when.
  destruct sel as [[] ? ? ? ?], (rotating_frame b); reflexivity.
Qed.
End GuardFalse.

Section Binary64NaN.
Variable libm_pow : PrimFloat.float -> PrimFloat.float -> PrimFloat.float.
Variables libm_exp libm_tanh : PrimFloat.float -> PrimFloat.float.
Let binary64 := Arith_binary64 libm_pow libm_exp libm_tanh.

Lemma SFcompare_refl (a : SpecFloat.spec_float) :
  a <> SpecFloat.S754_nan -> SpecFloat.SFcompare a a = Some Eq.
Proof.
  destruct a as [sa | sa | | sa ma ea]; cbn; intros Hn.
  - reflexivity.
  - destruct sa; reflexivity.
  - now contradiction Hn.
  - destruct sa; rewrite Z.compare_refl; unfold Pos.compare;
      rewrite Pos.compare_cont_refl; reflexivity.
Qed.

Lemma is_nan_Prim2SF (x : PrimFloat.float) :
  PrimFloat.is_nan x = true -> FloatOps.Prim2SF x = SpecFloat.S754_nan.
Proof.
  unfold PrimFloat.is_nan. rewrite FloatAxioms.eqb_spec.
  unfold SpecFloat.SFeqb. intros Hn.
  destruct (FloatOps.Prim2SF x) as [sa | sa | | sa ma ea] eqn:E;
    [| | reflexivity |];
    rewrite SFcompare_refl in Hn by discriminate; discriminate.
Qed.

(** X18: in IEEE binary64 a wall distance that is NaN fails the test
    [dist_i > 1e-10] like a distance on the wall does: the call returns a
    zero residual and a zero Jacobian, whatever the strategies, the other
    inputs and libm. *)
Theorem X18_NaN_distance_counts_as_on_the_wall (sel : TemplateArgs)
    (b : Base PrimFloat.float) (s : State PrimFloat.float) :
  PrimFloat.is_nan (dist_i b) = true ->
  evaluate (H := binary64) sel b s = (float_of_Q 0, float_of_Q 0).
Proof.
  intros Hn. apply (guard_false_zero (H := binary64)).
  cbn [flt binary64 Arith_binary64]. rewrite FloatAxioms.ltb_spec.
  rewrite (is_nan_Prim2SF _ Hn). unfold SpecFloat.SFltb.
  destruct (FloatOps.Prim2SF _); reflexivity.
Qed.
End Binary64NaN.

(** ** The accessors *)

Section AccessorFacts.
Context {su2double : Type} `{Arith su2double}.
Local Open Scope su2_scope.

Lemma step_Gamma_BC (sel : TemplateArgs) (o : Object su2double) (c : Call) :
  Gamma_BC (step sel o c) = Gamma_BC o.
Proof. destruct c; reflexivity. Qed.

Lemma run_Gamma_BC (sel : TemplateArgs) (cs : list Call) :
  forall o : Object su2double, Gamma_BC (run sel cs o) = Gamma_BC o.
Proof.
  unfold run. induction cs as [| c cs IH]; intros o; cbn [fold_left];
    [reflexivity |].
  rewrite IH. apply step_Gamma_BC.
Qed.

(** X19: no method assigns [Gamma_BC]: after any sequence of calls on a
    constructed object [GetGammaBC] still returns the 0.0 of the default
    member initialiser. *)
Theorem X19_GetGammaBC_is_always_zero (sel : TemplateArgs) (cs : list Call)
    (intermittency_storage : su2double) (storage : Members su2double) :
  GetGammaBC (run sel cs (CSourceBase_TurbSA intermittency_storage storage))
  = lit 0.0.
Proof.
  unfold GetGammaBC. rewrite run_Gamma_BC. reflexivity.
Qed.

Lemma ComputeResidual_forgets_members (sel : TemplateArgs)
    (b : Base su2double) (scratch : CommonVariables.t su2double)
    (m1 m2 : Members su2double) :
  final (ComputeResidual sel b) (mkState scratch m1)
  = final (ComputeResidual sel b) (mkState scratch m2).
Proof.
  unfold ComputeResidual. rewrite !final_bind.
  reflexivity.
Qed.

(** X20: a call of [ComputeResidual] assigns every member it uses before it
    reads it, so nothing the object held before reaches the result: from
    any two objects (whatever the setters stored in them) the call returns
    the same pair and leaves the same members, and the getters return what
    the call computed.  The intermittency is never read and is kept. *)
Theorem X20_a_call_overwrites_what_the_setters_stored (sel : TemplateArgs)
    (b : Base su2double) (scratch : CommonVariables.t su2double)
    (o o' : Object su2double) :
  let r := call_ComputeResidual sel b scratch o in
  let r' := call_ComputeResidual sel b scratch o' in
  fst r = fst r' /\
  evaluator (snd r) = evaluator (snd r') /\
  GetProduction (snd r) = GetProduction (snd r') /\
  GetDestruction (snd r) = GetDestruction (snd r') /\
  GetCrossProduction (snd r) = GetCrossProduction (snd r') /\
  intermittency (snd r) = intermittency o.
Proof.
  unfold call_ComputeResidual, GetProduction, GetDestruction,
    GetCrossProduction.
  cbn [fst snd evaluator intermittency].
  rewrite (ComputeResidual_forgets_members sel b scratch (evaluator o)
             (evaluator o')).
  repeat apply conj; reflexivity.
Qed.
End AccessorFacts.

(** ** The Edwards modified vorticity *)

Section EdwardsDerivative.
Local Open Scope R_scope.

(** X21: where neither floor is active, the [d_Shat] of the Edwards
    modified vorticity is the derivative of its [Shat] with respect to the
    turbulence scalar, on smooth and on rough walls (the divisors being
    non-zero). *)
Theorem X21_Edwards_d_Shat_is_the_derivative (b : Base R) (s : State R) :
  let nu := Laminar_Viscosity_i (members s) / Density_i (members s) in
  let after nue :=
    model_var
      (final (viscous_functions (with_ScalarVar nue b) ;;
              ModVort_Edw.get (with_ScalarVar nue b)) s) in
  let m' := after (ScalarVar_i b) in
  let Ji := CommonVariables.Ji m' in
  nu <> 0 ->
  Ji * Ji * Ji + CommonVariables.cv1_3 (model_var s) <> 0 ->
  1e-16 < Ji ->
  1e-10 < CommonVariables.Shat m' ->
  derivable_pt_lim (fun nue => CommonVariables.Shat (after nue))
    (ScalarVar_i b) (CommonVariables.d_Shat m').
Proof.
  intros nu after m' Ji Hnu. subst Ji m' after. cbv beta.
  unfold viscous_functions, ModVort_Edw.get, with_ScalarVar. run_cbn.
  rewrite ?lit_1, ?lit_2, ?lit_3, ?lit_1e_16, ?lit_1e_10', ?lit_0, ?Rpow_2,
    ?Rpow_neg_2, !fmax_R.
  fold nu.
  set (x := ScalarVar_i b).
  set (rough := CommonVariables.cr1 (model_var s)
                * (roughness_i b / (dist_i b + EPS b))).
  set (cv1_3 := CommonVariables.cv1_3 (model_var s)).
  set (S := CommonVariables.Omega (model_var s)).
  set (J := x / nu + rough).
  intros HD HJ.
  rewrite (Rmax_left J 1e-16) by lra.
  set (A := S * (1 / J + J * J * J / (J * J * J + cv1_3))).
  intros HShat.
  assert (HA : 1e-10 < A).
  { unfold Rmax in HShat.
    repeat destruct (Rle_dec _ _) in HShat; lra. }
  rewrite (Rmax_left A 1e-16) in * by lra.
  rewrite (Rmax_left A 1e-10) in * by lra.
  rewrite Rleb_false by exact HA.
  assert (HJd : derivable_pt_lim (fun z => fmax (z / nu + rough) 1e-16) x
                  (1 / nu)).
  { apply derivable_pt_lim_fmax; [| exact HJ].
    eapply derivable_pt_lim_value; [deriv; exact Hnu |].
    cbv beta. unfold Rsqr. field. exact Hnu. }
  eapply (derivable_pt_lim_ext
            (fun z => fmax (fmax (S * (1 / fmax (z / nu + rough) 1e-16
                                       + (z / nu + rough) * (z / nu + rough)
                                         * (z / nu + rough)
                                         / ((z / nu + rough)
                                            * (z / nu + rough)
                                            * (z / nu + rough) + cv1_3)))
                              1e-16) 1e-10)).
  { intros z. rewrite !fmax_R. reflexivity. }
  assert (Hm : fmax J 1e-16 = J) by (rewrite fmax_R; apply Rmax_left; lra).
  apply derivable_pt_lim_fmax.
  - apply derivable_pt_lim_fmax.
    + eapply derivable_pt_lim_value; [deriv; try exact Hnu |].
      * fold J. rewrite Hm. lra.
      * exact HD.
      * cbv beta. fold J. rewrite Hm. unfold Rsqr. field.
        repeat apply conj; try assumption. lra.
    + fold J. rewrite Hm. fold A. lra.
  - fold J. rewrite Hm. fold A. rewrite fmax_R, Rmax_left by lra. exact HA.
Qed.
End EdwardsDerivative.

(** ** The hypotheses of the properties above hold at sample points *)

Section MoreWitnesses.
Local Open Scope R_scope.

Lemma sample_scalar_above_zero : 0 < ScalarVar_i (sample_Base 0.1).
Proof. cbn. lra. Qed.

Lemma flow_State_viscosity :
  Laminar_Viscosity_i (members flow_State) / Density_i (members flow_State)
  <> 0.
Proof. cbn. lra. Qed.

Lemma X1_result_independent_of_entry_state_witness :
  (ModVort_class SA_Neg = Variant.ModVort_Neg ->
   (ScalarVar_i (sample_Base 0.1) >? lit 0.0)%su2 = true) /\
  (forall c : Const.t,
     CommonVariables.const c (model_var (sample_State 0))
     = CommonVariables.const c (model_var (sample_State 1))) /\
  members (final (ComputeResidual SA_Neg (sample_Base 0.1)) (sample_State 0))
  = members (final (ComputeResidual SA_Neg (sample_Base 0.1)) (sample_State 1))
  /\
  evaluate SA_Neg (sample_Base 0.1) (sample_State 0)
  = evaluate SA_Neg (sample_Base 0.1) (sample_State 1).
Proof.
  assert (Hc : forall c : Const.t,
             CommonVariables.const c (model_var (sample_State 0))
             = CommonVariables.const c (model_var (sample_State 1)))
    by (intros c; destruct c; reflexivity).
  split; [intros _; exact sample_scalar_positive |].
  split; [exact Hc |].
  exact (X1_result_independent_of_entry_state SA_Neg (sample_Base 0.1)
           (sample_State 0) (sample_State 1)
           (fun _ => sample_scalar_positive) Hc).
Defined.

Lemma X2_second_call_repeats_the_first_witness :
  (ModVort_class SA_Neg = Variant.ModVort_Neg ->
   (ScalarVar_i (sample_Base 0.1) >? lit 0.0)%su2 = true) /\
  evaluate SA_Neg (sample_Base 0.1)
    (final (ComputeResidual SA_Neg (sample_Base 0.1)) (sample_State 0))
  = evaluate SA_Neg (sample_Base 0.1) (sample_State 0).
Proof.
  split; [intros _; exact sample_scalar_positive |].
  exact (proj2 (proj2 (X2_second_call_repeats_the_first SA_Neg
                         (sample_Base 0.1) (sample_State 0)
                         (fun _ => sample_scalar_positive)))).
Defined.

Lemma X7_inv_Shat_is_bounded_witness :
  (ModVort_class SA_Neg = Variant.ModVort_Neg ->
   0 < ScalarVar_i (sample_Base 0.1)) /\
  1e-10 <= CommonVariables.Shat
             (model_var
                (final (ModVort_class_get SA_Neg (sample_Base 0.1) ;;
                        invert_Shat) sheared_State)).
Proof.
  split; [intros _; exact sample_scalar_above_zero |].
  exact (proj1 (X7_inv_Shat_is_bounded SA_Neg (sample_Base 0.1) sheared_State
                  (fun _ => sample_scalar_above_zero))).
Defined.

Lemma sample_Base_off_the_wall : 1e-10 < dist_i (sample_Base 0.1).
Proof. cbn. lra. Qed.

Lemma sample_k2_positive : 0 < CommonVariables.k2 (model_var (sample_State 0)).
Proof. cbn. lra. Qed.

Lemma X8_guard_keeps_distance_divisions_safe_witness :
  1e-10 < dist_i (sample_Base 0.1) /\
  0 < CommonVariables.k2 (model_var (sample_State 0)) /\
  1e-20 < CommonVariables.dist_i_2
            (model_var (final (viscous_functions (sample_Base 0.1))
                          (sample_State 0))).
Proof.
  split; [exact sample_Base_off_the_wall |].
  split; [exact sample_k2_positive |].
  exact (proj1 (proj2 (X8_guard_keeps_distance_divisions_safe
                         (sample_Base 0.1) (sample_State 0)
                         sample_Base_off_the_wall sample_k2_positive))).
Defined.

Lemma X11_Omega_Edw_radicand_is_nonnegative_witness :
  (nDim (sample_Base 0.1) = 2%nat \/ nDim (sample_Base 0.1) = 3%nat) /\
  0 <= Omega_Edw.Sbar (sample_Base 0.1).
Proof.
  split; [right; reflexivity |].
  exact (proj1 (X11_Omega_Edw_radicand_is_nonnegative (sample_Base 0.1)
                  (sample_State 0) (or_intror eq_refl))).
Defined.

Lemma flow_State_fv1_denominator :
  let Ji :=
    CommonVariables.Ji
      (model_var (final (viscous_functions (sample_Base 0.1)) flow_State)) in
  Ji * Ji * Ji + CommonVariables.cv1_3 (model_var flow_State) <> 0.
Proof.
  unfold viscous_functions. run_R. rewrite ?lit_1, ?lit_2, ?lit_3, ?Rpow_2.
  cbn. lra.
Qed.

Lemma X13_d_fv1_is_the_derivative_witness :
  Laminar_Viscosity_i (members flow_State) / Density_i (members flow_State)
  <> 0 /\
  derivable_pt_lim
    (fun nue =>
       CommonVariables.fv1
         (model_var
            (final (viscous_functions (with_ScalarVar nue (sample_Base 0.1)))
               flow_State)))
    (ScalarVar_i (sample_Base 0.1))
    (CommonVariables.d_fv1
       (model_var (final (viscous_functions (sample_Base 0.1)) flow_State))).
Proof.
  split; [exact flow_State_viscosity |].
  exact (proj2 (X13_d_fv1_is_the_derivative (sample_Base 0.1) flow_State
                  flow_State_viscosity flow_State_fv1_denominator)).
Defined.

Lemma flow_State_fv1_denominator' :
  let nu :=
    Laminar_Viscosity_i (members flow_State) / Density_i (members flow_State)
  in
  let J := ScalarVar_i (sample_Base 0.1) / nu in
  J * J * J + CommonVariables.cv1_3 (model_var flow_State) <> 0.
Proof. cbn. lra. Qed.

Lemma flow_State_fv2_denominator :
  let nu :=
    Laminar_Viscosity_i (members flow_State) / Density_i (members flow_State)
  in
  let nue := ScalarVar_i (sample_Base 0.1) in
  let J := nue / nu in
  let cv1_3 := CommonVariables.cv1_3 (model_var flow_State) in
  nu + nue * (J * J * J / (J * J * J + cv1_3)) <> 0.
Proof.
  cbn.
  assert (H : 0 < 0.1 / (1 / 1) * (0.1 / (1 / 1)) * (0.1 / (1 / 1))
              / (0.1 / (1 / 1) * (0.1 / (1 / 1)) * (0.1 / (1 / 1)) + 357.911)).
  { apply Rdiv_lt_0_compat; lra. }
  lra.
Qed.

Lemma X14_d_fv2_is_the_derivative_on_smooth_walls_witness :
  roughness_i (sample_Base 0.1) = 0 /\
  derivable_pt_lim
    (fun nue =>
       CommonVariables.fv2
         (model_var
            (final (viscous_functions (with_ScalarVar nue (sample_Base 0.1)))
               flow_State)))
    (ScalarVar_i (sample_Base 0.1))
    (CommonVariables.d_fv2
       (model_var (final (viscous_functions (sample_Base 0.1)) flow_State))).
Proof.
  split; [reflexivity |].
  exact (X14_d_fv2_is_the_derivative_on_smooth_walls (sample_Base 0.1)
           flow_State eq_refl flow_State_viscosity
           flow_State_fv1_denominator' flow_State_fv2_denominator).
Defined.

Lemma X15_d_ft2_is_the_derivative_witness :
  Laminar_Viscosity_i (members flow_State) / Density_i (members flow_State)
  <> 0 /\
  derivable_pt_lim
    (fun nue =>
       CommonVariables.ft2
         (model_var
            (final (viscous_functions (with_ScalarVar nue (sample_Base 0.1)) ;;
                    ft2_nonzero.get (with_ScalarVar nue (sample_Base 0.1)))
               flow_State)))
    (ScalarVar_i (sample_Base 0.1))
    (CommonVariables.d_ft2
       (model_var
          (final (viscous_functions
                    (with_ScalarVar (ScalarVar_i (sample_Base 0.1))
                       (sample_Base 0.1)) ;;
                  ft2_nonzero.get
                    (with_ScalarVar (ScalarVar_i (sample_Base 0.1))
                       (sample_Base 0.1)))
             flow_State))).
Proof.
  split; [exact flow_State_viscosity |].
  exact (X15_d_ft2_is_the_derivative (sample_Base 0.1) flow_State
           flow_State_viscosity).
Defined.

Lemma sample_scalar_below_zero : ScalarVar_i (sample_Base (-0.1)) < 0.
Proof. cbn. lra. Qed.

Lemma assembly_State_distance :
  CommonVariables.dist_i_2 (model_var assembly_State) <> 0.
Proof. cbn. lra. Qed.

Lemma X16_negative_model_Jacobian_is_the_derivative_witness :
  ScalarVar_i (sample_Base (-0.1)) < 0 /\
  CommonVariables.dist_i_2 (model_var assembly_State) <> 0 /\
  derivable_pt_lim
    (fun nue =>
       Production
         (members (final (SourceTerms_Neg.get
                            (with_ScalarVar nue (sample_Base (-0.1))))
                     assembly_State))
       - Destruction
           (members (final (SourceTerms_Neg.get
                              (with_ScalarVar nue (sample_Base (-0.1))))
                       assembly_State))
       + CrossProduction
           (members (final (SourceTerms_Neg.get
                              (with_ScalarVar nue (sample_Base (-0.1))))
                       assembly_State)))
    (ScalarVar_i (sample_Base (-0.1)))
    (Jacobian_i
       (members (final (SourceTerms_Neg.get
                          (with_ScalarVar (ScalarVar_i (sample_Base (-0.1)))
                             (sample_Base (-0.1))))
                   assembly_State))
     - Jacobian_i (members assembly_State)).
Proof.
  split; [exact sample_scalar_below_zero |].
  split; [exact assembly_State_distance |].
  exact (X16_negative_model_Jacobian_is_the_derivative (sample_Base (-0.1))
           assembly_State sample_scalar_below_zero assembly_State_distance).
Defined.
End MoreWitnesses.

Section JacobianWitness.
Local Open Scope R_scope.

Lemma sample_entry_Omega :
  CommonVariables.Omega
    (model_var (entry_state SA_Bsl (sample_Base 0.1) (sample_State 0))) = 1.
Proof.
  unfold entry_state, rotational_correction, Omega_class_get, Omega_Bsl.get,
    read_primitives, reset_accumulators, sample_Base, sample_State, SA_Bsl.
  cbn [Omega_class rotating_frame].
  run_cbn.
  replace (0 * 0 + 0 * 0 + 1 * 1) with 1 by lra. apply sqrt_1.
Qed.

Lemma sample_viscous :
  let V :=
    model_var (at_viscous SA_Bsl (sample_Base 0.1) (sample_State 0) 0.1) in
  CommonVariables.S V = 1 /\
  CommonVariables.inv_k2_d2 V = 1 / 0.1681 /\
  CommonVariables.Ji V = 10000 /\
  CommonVariables.fv1 V
  = 10000 * 10000 * 10000 / (10000 * 10000 * 10000 + 357.911) /\
  CommonVariables.fv2 V = 1 - 0.1 / (1e-5 + 0.1 * CommonVariables.fv1 V).
Proof.
  unfold at_viscous, along, viscous_functions, with_ScalarVar.
  run_cbn. rewrite entry_state_members, sample_entry_Omega.
  pose proof (entry_state_constants SA_Bsl (sample_Base 0.1) (sample_State 0))
    as Ek.
  pose proof (Ek Const.cr1) as Ecr. pose proof (Ek Const.k2) as Ek2.
  pose proof (Ek Const.cv1_3) as Ecv.
  cbn [CommonVariables.const] in Ecr, Ek2, Ecv. rewrite Ecr, Ek2, Ecv.
  unfold sample_Base, sample_State, sample_model_var. run_cbn.
  rewrite ?lit_1.
  assert (EJ : 0.1 / (1e-5 / 1) + 0.5 * (0 / (1 + 1e-16)) = 10000) by lra.
  rewrite !EJ.
  repeat apply conj; try reflexivity.
  - f_equal. lra.
  - f_equal. f_equal. f_equal. lra.
Qed.

Lemma sample_ModVort :
  let m :=
    model_var (at_ModVort SA_Bsl (sample_Base 0.1) (sample_State 0) 0.1) in
  1 <= CommonVariables.Shat m /\ CommonVariables.inv_k2_d2 m = 1 / 0.1681.
Proof.
  destruct sample_viscous as (ES & Ek & EJ & Ef1 & Ef2).
  assert (Eback : forall f, mem f [Field.Shat; Field.d_Shat; Field.ft2;
                                   Field.d_ft2] = false ->
            CommonVariables.get f
              (model_var
                 (at_ft2 SA_Bsl (sample_Base 0.1) (sample_State 0) 0.1))
            = CommonVariables.get f
                (model_var
                   (at_viscous SA_Bsl (sample_Base 0.1) (sample_State 0) 0.1))).
  { intros f Hf. apply at_ft2_back.
    destruct f; cbn in Hf |- *; congruence. }
  pose proof (Eback Field.S eq_refl) as E1.
  pose proof (Eback Field.fv2 eq_refl) as E2.
  pose proof (Eback Field.inv_k2_d2 eq_refl) as E3.
  cbn [CommonVariables.get] in E1, E2, E3.
  split.
  - unfold at_ModVort, along, ModVort_Bsl.get, with_ScalarVar. run_cbn.
    rewrite E1, E2, E3, ES, Ek, Ef2, Ef1, fmax_R.
    eapply Rle_trans; [| apply Rmax_l]. lra.
  - change (CommonVariables.get Field.inv_k2_d2
              (model_var
                 (at_ModVort SA_Bsl (sample_Base 0.1) (sample_State 0) 0.1))
            = 1 / 0.1681).
    rewrite at_ModVort_back by reflexivity.
    cbn [CommonVariables.get]. rewrite E3. exact Ek.
Qed.

Lemma r_stage_value (b : Base R) (S : State R) :
  CommonVariables.r (model_var (final (invert_Shat ;; r_Bsl.get b) S))
  = Rmin (ScalarVar_i b * (1 / CommonVariables.Shat (model_var S))
          * CommonVariables.inv_k2_d2 (model_var S)) 10.
Proof.
  unfold invert_Shat, r_Bsl.get.
  rewrite !final_bind, final_when. run_cbn.
  rewrite lit_10, lit_1, fmin_R.
  destruct (Reqb _ _); reflexivity.
Qed.

Lemma g_6_nonnegative (S : State R) :
  0 <= CommonVariables.g_6 (model_var (final wall_damping S)).
Proof.
  unfold wall_damping. run_cbn. rewrite ?lit_6, !Rpow_6.
  set (g := _ + _ * (_ - _)).
  replace (g * g * g * g * g * g) with (Rsqr (g * g * g))
    by (unfold Rsqr; ring).
  apply Rle_0_sqr.
Qed.

Lemma sample_r :
  CommonVariables.r
    (model_var (at_r SA_Bsl (sample_Base 0.1) (sample_State 0) 0.1)) < 10.
Proof.
  destruct sample_ModVort as (HS & Ek).
  unfold at_r, along. rewrite r_stage_value, Ek.
  set (Shat := CommonVariables.Shat _) in *.
  assert (Hinv : 0 < 1 / Shat <= 1).
  { split; [apply Rdiv_lt_0_compat; lra |].
    apply Rmult_le_reg_r with Shat; [lra |]. field_simplify; lra. }
  eapply Rle_lt_trans; [apply Rmin_l |].
  change (ScalarVar_i (with_ScalarVar 0.1 (sample_Base 0.1))) with 0.1.
  apply Rle_lt_trans with (0.1 * 1 * (1 / 0.1681)); [| lra].
  apply Rmult_le_compat_r; [lra |].
  apply Rmult_le_compat_l; lra.
Qed.

Lemma sample_g_6 :
  0 < CommonVariables.g_6
        (model_var
           (at_wall_damping SA_Bsl (sample_Base 0.1) (sample_State 0) 0.1))
      + CommonVariables.cw3_6 (model_var (sample_State 0)).
Proof.
  unfold at_wall_damping, along.
  pose proof (g_6_nonnegative
                (at_r SA_Bsl (sample_Base 0.1) (sample_State 0) 0.1)) as H.
  unfold sample_State at 2. unfold sample_model_var.
  cbn [model_var CommonVariables.cw3_6]. lra.
Qed.

Lemma sample_is_interior :
  let m' :=
    model_var
      (final (ComputeResidual SA_Bsl (sample_Base 0.1)) (sample_State 0)) in
  CommonVariables.Ji m' = 10000 /\
  0 < CommonVariables.fv1 m' /\
  1e-10 < CommonVariables.Shat m' /\
  CommonVariables.r m' < 10 /\
  0 < CommonVariables.g_6 m'
      + CommonVariables.cw3_6 (model_var (sample_State 0)).
Proof.
  assert (E0 : final (ComputeResidual SA_Bsl (sample_Base 0.1))
                 (sample_State 0)
               = at_exit SA_Bsl (sample_Base 0.1) (sample_State 0) 0.1).
  { apply (ComputeResidual_at_exit SA_Bsl (sample_Base 0.1) (sample_State 0)
             0.1 eq_refl eq_refl eq_refl).
    cbn. lra. }
  cbv zeta. rewrite E0, at_exit_model_var.
  destruct sample_viscous as (_ & _ & EJ & Ef1 & _).
  destruct sample_ModVort as (HS & _).
  pose proof sample_r as Hr. pose proof sample_g_6 as Hg.
  repeat apply conj.
  - change (CommonVariables.get Field.Ji
              (model_var
                 (at_gradient SA_Bsl (sample_Base 0.1) (sample_State 0) 0.1))
            = 10000).
    rewrite at_gradient_back, at_wall_damping_back, at_r_back,
      at_ModVort_back, at_ft2_back by reflexivity.
    exact EJ.
  - change (0 < CommonVariables.get Field.fv1
                  (model_var
                     (at_gradient SA_Bsl (sample_Base 0.1) (sample_State 0)
                        0.1))).
    rewrite at_gradient_back, at_wall_damping_back, at_r_back,
      at_ModVort_back, at_ft2_back by reflexivity.
    cbn [CommonVariables.get]. rewrite Ef1. lra.
  - change (1e-10 < CommonVariables.get Field.Shat
                      (model_var
                         (at_gradient SA_Bsl (sample_Base 0.1)
                            (sample_State 0) 0.1))).
    rewrite at_gradient_back, at_wall_damping_back, at_r_back by reflexivity.
    cbn [CommonVariables.get]. lra.
  - change (CommonVariables.get Field.r
              (model_var
                 (at_gradient SA_Bsl (sample_Base 0.1) (sample_State 0) 0.1))
            < 10).
    rewrite at_gradient_back, at_wall_damping_back by reflexivity.
    exact Hr.
  - change (0 < CommonVariables.get Field.g_6
                  (model_var
                     (at_gradient SA_Bsl (sample_Base 0.1) (sample_State 0)
                        0.1))
                + CommonVariables.cw3_6 (model_var (sample_State 0))).
    rewrite at_gradient_back by reflexivity.
    exact Hg.
Qed.

Lemma sample_viscosity :
  V_i_LaminarViscosity (sample_Base 0.1) / V_i_Density (sample_Base 0.1) <> 0.
Proof. cbn. lra. Qed.

Lemma sample_k2_nonzero : CommonVariables.k2 (model_var (sample_State 0)) <> 0.
Proof. cbn. lra. Qed.

Lemma sample_fv1_denominator :
  let m' :=
    model_var
      (final (ComputeResidual SA_Bsl (sample_Base 0.1)) (sample_State 0)) in
  CommonVariables.Ji m' * CommonVariables.Ji m' * CommonVariables.Ji m'
  + CommonVariables.cv1_3 (model_var (sample_State 0)) <> 0.
Proof.
  cbv zeta. rewrite (proj1 sample_is_interior). cbn. lra.
Qed.

Lemma sample_fv2_denominator :
  let m' :=
    model_var
      (final (ComputeResidual SA_Bsl (sample_Base 0.1)) (sample_State 0)) in
  V_i_LaminarViscosity (sample_Base 0.1) / V_i_Density (sample_Base 0.1)
  + ScalarVar_i (sample_Base 0.1) * CommonVariables.fv1 m' <> 0.
Proof.
  cbv zeta. pose proof (proj1 (proj2 sample_is_interior)) as H.
  cbv zeta in H. cbn [V_i_LaminarViscosity V_i_Density ScalarVar_i sample_Base].
  lra.
Qed.

Lemma sample_cw3_6 :
  0 < 1 + CommonVariables.cw3_6 (model_var (sample_State 0)).
Proof. cbn. lra. Qed.

Lemma X17_baseline_Jacobian_is_the_derivative_witness :
  roughness_i (sample_Base 0.1) = 0 /\
  1e-10 < dist_i (sample_Base 0.1) /\
  1e-10 < CommonVariables.Shat
            (model_var
               (final (ComputeResidual SA_Bsl (sample_Base 0.1))
                  (sample_State 0))) /\
  CommonVariables.r
    (model_var
       (final (ComputeResidual SA_Bsl (sample_Base 0.1)) (sample_State 0)))
  < 10 /\
  derivable_pt_lim
    (fun z => fst (evaluate SA_Bsl (with_ScalarVar z (sample_Base 0.1))
                     (sample_State 0)))
    (ScalarVar_i (sample_Base 0.1))
    (snd (evaluate SA_Bsl (sample_Base 0.1) (sample_State 0))).
Proof.
  destruct sample_is_interior as (_ & _ & Hfloor & Hcap & Hg6).
  split; [reflexivity |].
  split; [exact sample_Base_off_the_wall |].
  split; [exact Hfloor |].
  split; [exact Hcap |].
  exact (X17_baseline_Jacobian_is_the_derivative SA_Bsl (sample_Base 0.1)
           (sample_State 0) eq_refl eq_refl eq_refl eq_refl
           sample_Base_off_the_wall sample_viscosity sample_k2_nonzero
           sample_fv1_denominator sample_fv2_denominator Hfloor Hcap
           sample_cw3_6 Hg6).
Defined.
End JacobianWitness.

Section LaterWitnesses.
Local Open Scope R_scope.

Lemma X18_NaN_distance_counts_as_on_the_wall_witness :
  PrimFloat.is_nan (dist_i (binary64_Base PrimFloat.nan)) = true /\
  evaluate (H := Arith_binary64 (fun x _ => x) (fun x => x) (fun x => x))
    SA_Bsl (binary64_Base PrimFloat.nan) zero_State
  = (float_of_Q 0, float_of_Q 0).
Proof.
  split; [reflexivity |].
  exact (X18_NaN_distance_counts_as_on_the_wall (fun x _ => x) (fun x => x)
           (fun x => x) SA_Bsl (binary64_Base PrimFloat.nan) zero_State
           eq_refl).
Defined.

Lemma sheared_flow_viscosity :
  Laminar_Viscosity_i (members sheared_flow_State)
  / Density_i (members sheared_flow_State) <> 0.
Proof. cbn. lra. Qed.

Lemma sheared_flow_Edwards :
  let m' :=
    model_var
      (final (viscous_functions (sample_Base 0.1) ;;
              ModVort_Edw.get (sample_Base 0.1)) sheared_flow_State) in
  CommonVariables.Ji m' = 0.1 /\ 1e-10 < CommonVariables.Shat m'.
Proof.
  unfold viscous_functions, ModVort_Edw.get, sample_Base, sheared_flow_State,
    sample_model_var.
  run_cbn.
  rewrite ?lit_1, ?lit_1e_16, ?lit_1e_10', !fmax_R.
  assert (EJ : 0.1 / (1 / 1) + 0.5 * (0 / (1 + 1e-16)) = 0.1) by lra.
  rewrite !EJ. split; [reflexivity |].
  rewrite (Rmax_left 0.1 1e-16) by lra.
  eapply Rlt_le_trans; [| apply Rmax_l].
  eapply Rlt_le_trans; [| apply Rmax_l].
  lra.
Qed.

Lemma sheared_flow_fv1_denominator :
  let m' :=
    model_var
      (final (viscous_functions (sample_Base 0.1) ;;
              ModVort_Edw.get (sample_Base 0.1)) sheared_flow_State) in
  CommonVariables.Ji m' * CommonVariables.Ji m' * CommonVariables.Ji m'
  + CommonVariables.cv1_3 (model_var sheared_flow_State) <> 0.
Proof. cbv zeta. rewrite (proj1 sheared_flow_Edwards). cbn. lra. Qed.

Lemma sheared_flow_Ji :
  1e-16 < CommonVariables.Ji
            (model_var
               (final (viscous_functions (sample_Base 0.1) ;;
                       ModVort_Edw.get (sample_Base 0.1)) sheared_flow_State)).
Proof. rewrite (proj1 sheared_flow_Edwards). lra. Qed.

Lemma X21_Edwards_d_Shat_is_the_derivative_witness :
  1e-10 < CommonVariables.Shat
            (model_var
               (final (viscous_functions (sample_Base 0.1) ;;
                       ModVort_Edw.get (sample_Base 0.1)) sheared_flow_State))
  /\
  derivable_pt_lim
    (fun nue =>
       CommonVariables.Shat
         (model_var
            (final (viscous_functions (with_ScalarVar nue (sample_Base 0.1)) ;;
                    ModVort_Edw.get (with_ScalarVar nue (sample_Base 0.1)))
               sheared_flow_State)))
    (ScalarVar_i (sample_Base 0.1))
    (CommonVariables.d_Shat
       (model_var
          (final (viscous_functions (sample_Base 0.1) ;;
                  ModVort_Edw.get (sample_Base 0.1)) sheared_flow_State))).
Proof.
  split; [exact (proj2 sheared_flow_Edwards) |].
  exact (X21_Edwards_d_Shat_is_the_derivative (sample_Base 0.1)
           sheared_flow_State sheared_flow_viscosity
           sheared_flow_fv1_denominator sheared_flow_Ji
           (proj2 sheared_flow_Edwards)).
Defined.
End LaterWitnesses.

(** ** Numbers in real arithmetic and in IEEE binary64 *)

Section NumbersR.
Local Open Scope R_scope.

Lemma ArithNumbers_R : ArithNumbers R.
Proof.
  split.
  - intros a b _. unfold is_number. cbn [fle Arith_R].
    split; apply Rleb_true; lra.
  - intros a b _. unfold is_number. cbn [fle Arith_R].
    split; apply Rleb_true; lra.
  - intros a b _ _. cbn. unfold Rltb, Rleb.
    destruct (Rlt_dec b a), (Rle_dec a b); intros; try reflexivity;
      try discriminate; lra.
  - intros x. cbn [flt fsqrt Arith_R]. apply Rltb_false. rewrite lit_0.
    apply sqrt_pos.
  - intros x _. cbn [fle fsqrt Arith_R]. apply Rleb_true. rewrite lit_0.
    apply sqrt_pos.
Qed.
End NumbersR.

Section NumbersBinary64.
Variable libm_pow : PrimFloat.float -> PrimFloat.float -> PrimFloat.float.
Variables libm_exp libm_tanh : PrimFloat.float -> PrimFloat.float.
Let binary64 := Arith_binary64 libm_pow libm_exp libm_tanh.

Lemma SFcompare_None (a b : SpecFloat.spec_float) :
  SpecFloat.SFcompare a b = None ->
  a = SpecFloat.S754_nan \/ b = SpecFloat.S754_nan.
Proof.
  destruct a as [sa | sa | | sa ma ea], b as [sb | sb | | sb mb eb];
    cbn; try (intros; discriminate); try (now left); try (now right);
    try (destruct sa; intros; discriminate);
    try (destruct sb; intros; discriminate);
    try (destruct sa, sb; intros; discriminate).
Qed.

Lemma leb_self_not_nan (x : PrimFloat.float) :
  PrimFloat.leb x x = true -> FloatOps.Prim2SF x <> SpecFloat.S754_nan.
Proof.
  rewrite FloatAxioms.leb_spec. unfold SpecFloat.SFleb. intros Hx E.
  rewrite E in Hx. discriminate.
Qed.

(** The square root of a double is NaN, a zero, plus infinity or a positive
    number. *)
Lemma SFsqrt_cases (a : SpecFloat.spec_float) :
  let r := FloatAxioms.SF64sqrt a in
  r = SpecFloat.S754_nan \/ (exists sg, r = SpecFloat.S754_zero sg) \/
  r = SpecFloat.S754_infinity false \/
  exists m e, r = SpecFloat.S754_finite false m e.
Proof.
  unfold FloatAxioms.SF64sqrt, SpecFloat.SFsqrt.
  destruct a as [sa | [] | | [] ma ea]; cbv zeta;
    try (now left); try (right; left; eexists; reflexivity);
    try (right; right; left; reflexivity).
  destruct (SpecFloat.SFsqrt_core_binary _ _ _ _) as [[mz ez] lz].
  unfold SpecFloat.binary_round_aux.
  destruct (SpecFloat.shr_fexp _ _ mz ez lz) as [mrs' e'].
  destruct (SpecFloat.shr_fexp _ _ _ e' _) as [mrs'' e''].
  destruct (SpecFloat.shr_m mrs'') as [| m | m].
  - right; left; eexists; reflexivity.
  - destruct (e'' <=? _)%Z.
    + right; right; right. eexists. eexists. reflexivity.
    + right; right; left. reflexivity.
  - now left.
Qed.

Lemma compared_numbers (a b : PrimFloat.float) (c : comparison) :
  SpecFloat.SFcompare (FloatOps.Prim2SF a) (FloatOps.Prim2SF b) = Some c ->
  PrimFloat.leb a a = true /\ PrimFloat.leb b b = true.
Proof.
  intros E. rewrite !FloatAxioms.leb_spec. unfold SpecFloat.SFleb.
  assert (Na : FloatOps.Prim2SF a <> SpecFloat.S754_nan)
    by (intros N; rewrite N in E; discriminate).
  assert (Nb : FloatOps.Prim2SF b <> SpecFloat.S754_nan).
  { intros N. rewrite N in E.
    destruct (FloatOps.Prim2SF a) as [| [] | | [] ? ?]; discriminate. }
  rewrite (SFcompare_refl _ Na), (SFcompare_refl _ Nb). split; reflexivity.
Qed.

Lemma ArithNumbers_binary64 : @ArithNumbers PrimFloat.float binary64.
Proof.
  split.
  - intros a b. unfold is_number. cbn.
    rewrite (FloatAxioms.leb_spec a b). unfold SpecFloat.SFleb.
    destruct (SpecFloat.SFcompare (FloatOps.Prim2SF a) (FloatOps.Prim2SF b))
      as [c |] eqn:E; [| discriminate].
    intros _. exact (compared_numbers a b c E).
  - intros a b. unfold is_number. cbn.
    rewrite (FloatAxioms.ltb_spec a b). unfold SpecFloat.SFltb.
    destruct (SpecFloat.SFcompare (FloatOps.Prim2SF a) (FloatOps.Prim2SF b))
      as [c |] eqn:E; [| discriminate].
    intros _. exact (compared_numbers a b c E).
  - intros a b Ha Hb. unfold is_number in *. cbn in *.
    pose proof (leb_self_not_nan a Ha) as Na.
    pose proof (leb_self_not_nan b Hb) as Nb.
    rewrite FloatAxioms.leb_spec, FloatAxioms.ltb_spec.
    unfold SpecFloat.SFleb, SpecFloat.SFltb.
    rewrite (SFcompare_antisym (FloatOps.Prim2SF a) (FloatOps.Prim2SF b)).
    destruct (SpecFloat.SFcompare (FloatOps.Prim2SF a) (FloatOps.Prim2SF b))
      as [[] |] eqn:E; cbn; try congruence.
    destruct (SFcompare_None _ _ E); contradiction.
  - intros x.
    change (PrimFloat.ltb (PrimFloat.sqrt x) (float_of_Q 0.0) = false).
    rewrite FloatAxioms.ltb_spec, FloatAxioms.sqrt_spec.
    change (FloatOps.Prim2SF (float_of_Q 0.0))
      with (SpecFloat.S754_zero false).
    unfold SpecFloat.SFltb.
    destruct (SFsqrt_cases (FloatOps.Prim2SF x))
      as [E | [(sg & E) | [E | (m & e & E)]]]; cbv zeta in E; rewrite E;
      reflexivity.
  - intros x. unfold is_number.
    change (PrimFloat.leb (PrimFloat.sqrt x) (PrimFloat.sqrt x) = true ->
            PrimFloat.leb (float_of_Q 0.0) (PrimFloat.sqrt x) = true).
    rewrite !FloatAxioms.leb_spec, FloatAxioms.sqrt_spec.
    change (FloatOps.Prim2SF (float_of_Q 0.0))
      with (SpecFloat.S754_zero false).
    unfold SpecFloat.SFleb.
    destruct (SFsqrt_cases (FloatOps.Prim2SF x))
      as [E | [(sg & E) | [E | (m & e & E)]]]; cbv zeta in E; rewrite E;
      cbn; try reflexivity; try (intros; discriminate).
Qed.
End NumbersBinary64.

(** ** Where the claims on clamps, square roots and scaling fail in binary64 *)

Section Binary64NaNs.

Lemma Prim2SF_is_nan (x : PrimFloat.float) :
  FloatOps.Prim2SF x = SpecFloat.S754_nan -> PrimFloat.is_nan x = true.
Proof.
  intros E. unfold PrimFloat.is_nan. rewrite FloatAxioms.eqb_spec, E.
  reflexivity.
Qed.

Lemma nan_sub (x y : PrimFloat.float) :
  FloatOps.Prim2SF x = SpecFloat.S754_nan ->
  FloatOps.Prim2SF (PrimFloat.sub x y) = SpecFloat.S754_nan.
Proof.
  intros E. rewrite FloatAxioms.sub_spec, E. reflexivity.
Qed.

Lemma nan_ltb (x y : PrimFloat.float) :
  FloatOps.Prim2SF x = SpecFloat.S754_nan -> PrimFloat.ltb x y = false.
Proof.
  intros E. rewrite FloatAxioms.ltb_spec, E. reflexivity.
Qed.

Lemma nan_sqrt (x : PrimFloat.float) :
  FloatOps.Prim2SF x = SpecFloat.S754_nan ->
  FloatOps.Prim2SF (PrimFloat.sqrt x) = SpecFloat.S754_nan.
Proof.
  intros E. rewrite FloatAxioms.sqrt_spec, E. reflexivity.
Qed.

Lemma leb_nan (x y : PrimFloat.float) :
  FloatOps.Prim2SF y = SpecFloat.S754_nan -> PrimFloat.leb x y = false.
Proof.
  intros E. rewrite FloatAxioms.leb_spec, E. unfold SpecFloat.SFleb.
  destruct (FloatOps.Prim2SF x) as [| [] | | [] ? ?]; reflexivity.
Qed.
End Binary64NaNs.

Section Binary64Counterexamples.

(** C6 fails as stated.  At the sample point with the finite turbulence
    scalar 2^500, [Ji^3] overflows, [fv1] is inf / inf, and the NaN reaches
    [r] through [Shat] and [std::min]: the [r] of the baseline variant is
    not at most 10, whatever libm computes. *)
Lemma C6_counterexample :
  PrimFloat.is_finite (two_to_the 500) = true /\
  forall (libm_pow : PrimFloat.float -> PrimFloat.float -> PrimFloat.float)
         (libm_exp libm_tanh : PrimFloat.float -> PrimFloat.float),
    let r :=
      CommonVariables.r
        (model_var
           (final
              (ComputeResidual (H := Arith_binary64 libm_pow libm_exp libm_tanh)
                 SA_Bsl
                 (with_ScalarVar (two_to_the 500)
                    (binary64_Base PrimFloat.one)))
              binary64_State)) in
    PrimFloat.is_nan r = true /\ PrimFloat.leb r (float_of_Q 10) = false.
Proof.
  split; [reflexivity |]. intros libm_pow libm_exp libm_tanh.
  vm_compute. split; reflexivity.
Qed.

(** C10 fails as stated.  With the finite velocity gradient of
    [steep_Base] the double loop of the Edwards variant adds inf and -inf,
    [Sbar] is NaN, [std::max(NaN, 0.0)] is NaN and so is [Omega]: it is not
    at least 0, whatever libm computes. *)
Lemma C10_counterexample :
  (PrimFloat.is_finite (PrimVar_Grad_i_Vel steep_Base 0 0)
   && PrimFloat.is_finite (PrimVar_Grad_i_Vel steep_Base 0 1)
   && PrimFloat.is_finite (PrimVar_Grad_i_Vel steep_Base 1 0)
   && PrimFloat.is_finite (PrimVar_Grad_i_Vel steep_Base 1 1))%bool = true /\
  forall (libm_pow : PrimFloat.float -> PrimFloat.float -> PrimFloat.float)
         (libm_exp libm_tanh : PrimFloat.float -> PrimFloat.float),
    let Omega :=
      CommonVariables.Omega
        (model_var
           (final
              (Omega_Edw.get (H := Arith_binary64 libm_pow libm_exp libm_tanh)
                 steep_Base)
              binary64_State)) in
    PrimFloat.is_nan Omega = true /\
    PrimFloat.leb (float_of_Q 0) Omega = false.
Proof.
  split; [reflexivity |]. intros libm_pow libm_exp libm_tanh.
  set (binary64 := Arith_binary64 libm_pow libm_exp libm_tanh).
  assert (E : FloatOps.Prim2SF
                (CommonVariables.Omega
                   (model_var
                      (final (Omega_Edw.get (H := binary64) steep_Base)
                         binary64_State)))
              = SpecFloat.S754_nan).
  { change (FloatOps.Prim2SF
              (PrimFloat.sqrt
                 (fmax (Omega_Edw.Sbar (H := binary64) steep_Base)
                    (float_of_Q 0.0)))
            = SpecFloat.S754_nan).
    assert (ES : FloatOps.Prim2SF (Omega_Edw.Sbar (H := binary64) steep_Base)
                 = SpecFloat.S754_nan).
    { unfold Omega_Edw.Sbar. cbn [nDim steep_Base seq fold_left].
      assert (E0 : Omega_Edw.Sbar_sym (H := binary64) steep_Base
                   = PrimFloat.nan) by (vm_compute; reflexivity).
      rewrite E0. apply nan_sub, nan_sub. reflexivity. }
    apply nan_sqrt. unfold fmax.
    change (flt (Omega_Edw.Sbar steep_Base) (float_of_Q 0.0))
      with (PrimFloat.ltb (Omega_Edw.Sbar (H := binary64) steep_Base)
              (float_of_Q 0.0)).
    rewrite (nan_ltb _ _ ES). exact ES. }
  cbv zeta. split; [apply Prim2SF_is_nan, E | apply leb_nan, E].
Qed.

End Binary64Counterexamples.

(** ** The clamp and the square roots at inputs that are not numbers *)

Section NumbersWitnesses.
Let binary64 : Arith PrimFloat.float :=
  Arith_binary64 (fun x _ => x) (fun x => x) (fun x => x).
#[local] Existing Instance binary64.
Local Open Scope su2_scope.

Lemma C6_r_Bsl_clamp_witness :
  let b := binary64_Base PrimFloat.one in
  let s :=
    mkState
      (CommonVariables.set Field.inv_Shat PrimFloat.nan
         (model_var binary64_State))
      (members binary64_State) in
  let x :=
    ScalarVar_i b * CommonVariables.inv_Shat (model_var s)
    * CommonVariables.inv_k2_d2 (model_var s) in
  let m' := model_var (final (r_Bsl.get b) s) in
  is_number (lit 10.0) = true /\
  is_number x = false /\
  CommonVariables.r m' = fmin x (lit 10.0) /\
  (CommonVariables.r m' >? lit 10.0) = false /\
  (is_number (lit 10.0) = true ->
   (CommonVariables.r m' <=? lit 10.0) = is_number x) /\
  ((CommonVariables.r m' ==? lit 10.0) = true ->
   CommonVariables.d_r m' = lit 0.0).
Proof.
  split; [vm_compute; reflexivity |].
  split; [vm_compute; reflexivity |].
  exact (C6_r_Bsl_clamp (A := binary64)
           (HO := ArithOrder_binary64 _ _ _)
           (HN := ArithNumbers_binary64 _ _ _)
           (binary64_Base PrimFloat.one)
           (mkState
              (CommonVariables.set Field.inv_Shat PrimFloat.nan
                 (model_var binary64_State))
              (members binary64_State))).
Defined.

Lemma C10_Omega_nonnegative_witness :
  let Omega_of c :=
    CommonVariables.Omega (model_var (final c binary64_State)) in
  let b := steep_Base in
  is_number (Omega_of (Omega_Edw.get b)) = false /\
  Omega_of (Omega_Bsl.get b)
  = fsqrt (Vorticity_i b 0 * Vorticity_i b 0 + Vorticity_i b 1 * Vorticity_i b 1
           + Vorticity_i b 2 * Vorticity_i b 2) /\
  Omega_of (Omega_Edw.get b) = fsqrt (fmax (Omega_Edw.Sbar b) (lit 0.0)) /\
  forall sel : TemplateArgs,
    (Omega_of (Omega_class_get sel b) <? lit 0.0) = false /\
    (lit 0.0 <=? Omega_of (Omega_class_get sel b))
    = is_number (Omega_of (Omega_class_get sel b)).
Proof.
  split; [vm_compute; reflexivity |].
  exact (C10_Omega_nonnegative (A := binary64)
           (HN := ArithNumbers_binary64 _ _ _)
           steep_Base binary64_State).
Defined.
End NumbersWitnesses.
